(** * The streaming batch decoder of [processor/stream/processor.go]

    A shallow embedding of the intake stream processor: the event-kind
    classifier [identifyEventType], the error wrapper [wrapError], the
    metadata step [readMetadata], the batch loop [readBatch], the
    orchestration [HandleStream], the event copy [copyEvent] and the
    admission semaphore protocol around [HandleStream]. *)

From Stdlib Require Import ZArith List String Ascii Bool Lia.
From Stdlib.Strings Require Import Byte.
From stdpp Require Import base gmap strings list.

Import ListNotations.
Local Open Scope string_scope.
Local Open Scope list_scope.
Local Open Scope Z_scope.

(** ** Go run-time values *)

(** A Go computation either yields a value or panics at run time (here:
    a slice expression whose bounds are out of range). *)
Inductive go (A : Type) : Type :=
| Ok (a : A)
| Panic.
Arguments Ok {A} a.
Arguments Panic {A}.

Definition go_bind {A B : Type} (m : go A) (k : A -> go B) : go B :=
  match m with
  | Ok a => k a
  | Panic => Panic
  end.

Notation "'try!' x ':=' m 'in' k" := (go_bind m (fun x => k))
  (at level 10, x name, m at level 100, k at level 200, only parsing).

(** [s[i:]] on a byte slice: panics when [i > len(s)]. *)
Definition slice_from (s : list byte) (i : nat) : go (list byte) :=
  if (i <=? length s)%nat then Ok (skipn i s) else Panic.

(** [s[:j]] on a byte slice with a Go [int] upper bound: panics when
    [j] is negative or beyond the slice. *)
Definition slice_to (s : list byte) (j : Z) : go (list byte) :=
  if (0 <=? j) && (j <=? Z.of_nat (length s))
  then Ok (firstn (Z.to_nat j) s)
  else Panic.

(** [bytes.IndexByte(b, c)]: index of the first [c] in [b], or [-1]. *)
Fixpoint IndexByte (b : list byte) (c : byte) : Z :=
  match b with
  | [] => -1
  | x :: b' =>
      if Byte.eqb x c then 0
      else let r := IndexByte b' c in
           if r =? -1 then -1 else r + 1
  end.

(** The two quote characters: the double quote, byte 0x22, and the
    single quote, byte 0x27. *)
Definition dquote : byte := x22.
Definition squote : byte := x27.

Definition is_quote (r : byte) : bool :=
  Byte.eqb r dquote || Byte.eqb r squote.

(** [string(b)] for a byte slice [b]: the same bytes, as a Go string. *)
Definition string_of_bytes (b : list byte) : string := string_of_list_byte b.

(** ** Errors *)

(** The dynamic error values the stream processor tells apart. *)
Inductive error : Type :=
| io_EOF
| ErrLineTooLong
| JSONDecodeError (msg : string)
| DecoderError (cause : error)
| InvalidInputError (TooLarge : bool) (Message Document : string)
| withMessage (cause : error) (msg : string)
| errorString (text : string).

(** [errors.New("did not recognize object type")]. *)
Definition errUnrecognizedObject : error :=
  errorString "did not recognize object type".

(** [errors.Wrap(err, message)]. *)
Definition errors_Wrap (err : error) (message : string) : error :=
  withMessage err message.

(** Modelled from the spec: the text of the oversize-line error
    [decoder.ErrLineTooLong], declared in the decoder package.  The spec
    only calls it the oversize-line error; no property below depends on
    the text. *)
Definition ErrLineTooLong_text : string := "line too long".

(** [err.Error()].  [errors.Wrap] prefixes its message; the own error
    types of the repository print their message (modelled from the spec:
    an invalid-input error is a message, the offending raw line and a
    too-large flag; a decoder error prints as its cause). *)
Fixpoint Error (e : error) : string :=
  match e with
  | io_EOF => "EOF"
  | ErrLineTooLong => ErrLineTooLong_text
  | JSONDecodeError msg => msg
  | DecoderError cause => Error cause
  | InvalidInputError _ Message _ => Message
  | withMessage cause msg => msg ++ ": " ++ Error cause
  | errorString text => text
  end.

(** [errors.Is(e, decoder.ErrLineTooLong)]: walks the [Unwrap] chain. *)
Fixpoint errors_Is_ErrLineTooLong (e : error) : bool :=
  match e with
  | ErrLineTooLong => true
  | DecoderError cause => errors_Is_ErrLineTooLong cause
  | withMessage cause _ => errors_Is_ErrLineTooLong cause
  | _ => false
  end.

(** [errors.As(err, &invalidInput)], the target being a pointer to an
    [InvalidInputError]: walks the [Unwrap] chain. *)
Fixpoint errors_As_InvalidInputError (e : error) : bool :=
  match e with
  | InvalidInputError _ _ _ => true
  | DecoderError cause => errors_As_InvalidInputError cause
  | withMessage cause _ => errors_As_InvalidInputError cause
  | _ => false
  end.

(** [err == io.EOF]. *)
Definition is_EOF (e : error) : bool :=
  match e with
  | io_EOF => true
  | _ => false
  end.

(** The type assertion of [err] to a pointer to [InvalidInputError]: no
    unwrapping. *)
Definition is_InvalidInputError (e : error) : bool :=
  match e with
  | InvalidInputError _ _ _ => true
  | _ => false
  end.

(** ** Event-kind classification *)

Definition errorEventType : string := "error".
Definition metricsetEventType : string := "metricset".
Definition spanEventType : string := "span".
Definition transactionEventType : string := "transaction".
Definition rumv3ErrorEventType : string := "e".
Definition rumv3TransactionEventType : string := "x".

(** The [for i, r := range body] loop of [identifyEventType], entered at
    index [i] with [rest = body[i:]]: the values of [quote] and [key]
    when the loop is left. *)
Fixpoint scan_quote (body rest : list byte) (i : nat) : go (byte * list byte) :=
  match rest with
  | [] => Ok (x00, [])
  | r :: rest' =>
      if is_quote r
      then try! key := slice_from body (i + 1) in Ok (r, key)
      else scan_quote body rest' (S i)
  end.

(** [identifyEventType]: [None] is the nil slice. *)
Definition identifyEventType (body : list byte) : go (option (list byte)) :=
  try! qk := scan_quote body body 0 in
  let '(quote, key) := qk in
  let end_ := IndexByte key quote in
  if end_ =? -1 then Ok None
  else try! tok := slice_to key end_ in Ok (Some tok).

(** [string(eventType)]: the nil slice converts to the empty string. *)
Definition eventType_string (eventType : option (list byte)) : string :=
  match eventType with
  | Some tok => string_of_bytes tok
  | None => ""
  end.

(** ** Data model *)

(** A Go map value is a reference: an event holds the address of its
    label map, and the maps themselves live in a store. *)
Definition loc : Type := positive.

(** The capped error list and the accepted counter of one stream.
    Modelled from the spec: [Result] and its methods are declared in
    another file of the package; the spec gives a running accepted-event
    counter and an ordered list of per-document errors whose length is
    capped, further errors being dropped once it is full. *)
Record Result : Type := mkResult {
  Accepted : Z;
  Errors : list error
}.

Definition LimitedAdd (errorsLimit : nat) (r : Result) (err : error) : Result :=
  if (length (Errors r) <? errorsLimit)%nat
  then {| Accepted := Accepted r; Errors := Errors r ++ [err] |}
  else r.

Definition AddAccepted (r : Result) (ct : Z) : Result :=
  {| Accepted := Accepted r + ct; Errors := Errors r |}.

(** The pooled incremental reader.  Modelled from the spec: the NDJSON
    stream decoder is declared in the decoder package.  The byte source is
    given by what it yields line by line: the raw bytes of the next line
    and the condition reported with them (none, end of input, or a read
    failure); once the list is used up only end of input is left.  The
    reader keeps the latest line for error context, an end-of-input flag and
    the maximum line length. *)
Record streamReader : Type := mkStreamReader {
  source : list (list byte * option error);
  latestLine : list byte;
  isEOF : bool;
  maxLineLength : Z
}.

(** [ReadAhead]: the next line, or end of input, or the oversize-line
    error when the line is longer than the maximum (the bytes kept are
    those read up to the limit). *)
Definition ReadAhead (sr : streamReader) : streamReader * (list byte * option error) :=
  match source sr with
  | [] =>
      ({| source := []; latestLine := []; isEOF := true;
          maxLineLength := maxLineLength sr |},
       ([], Some io_EOF))
  | (line, cond) :: rest =>
      if Z.of_nat (length line) >? maxLineLength sr
      then
        let kept := firstn (Z.to_nat (maxLineLength sr)) line in
        ({| source := rest; latestLine := kept; isEOF := false;
            maxLineLength := maxLineLength sr |},
         (kept, Some ErrLineTooLong))
      else
        ({| source := rest; latestLine := line;
            isEOF := match cond with Some e => is_EOF e | None => false end;
            maxLineLength := maxLineLength sr |},
         (line, cond))
  end.

Definition IsEOF (sr : streamReader) : bool := isEOF sr.

Definition LatestLine (sr : streamReader) : list byte := latestLine sr.

(** [wrapError]: converts decoder errors to stream errors. *)
Definition wrapError (sr : streamReader) (err : option error) : option error :=
  match err with
  | None => None
  | Some err =>
      match err with
      | JSONDecodeError _ =>
          Some (InvalidInputError false (Error err)
                  (string_of_bytes (LatestLine sr)))
      | _ =>
          let e := match err with
                   | DecoderError cause => cause
                   | _ => err
                   end in
          if errors_Is_ErrLineTooLong e
          then Some (InvalidInputError true "event exceeded the permitted size."
                       (string_of_bytes (LatestLine sr)))
          else Some err
      end
  end.

(** The outcome of the [select] that opens [HandleStream]: the send on
    the semaphore channel went through, or the context was done first and
    [ctx.Err()] is what it reports. *)
Inductive admission : Type :=
| SlotAcquired
| ContextDone (ctxErr : error).

(** How a loop body is left: by falling through or [continue] to the next
    iteration, or by a [return] with the given error value. *)
Inductive flow : Type :=
| Next
| Return (err : option error).

Section Model.

(** The fields of [model.APMEvent] other than the two label maps, and the
    values stored in the label maps, are declared in the model package;
    the stream processor never looks into them. *)
Variable Fields : Type.
Variable LabelValue : Type.
Variable NumericLabelValue : Type.

Record APMEvent : Type := mkAPMEvent {
  Labels : option loc;
  NumericLabels : option loc;
  OtherFields : Fields
}.

(** The label maps that exist at some point of the run. *)
Record store : Type := mkStore {
  labelMaps : gmap loc (gmap string LabelValue);
  numericLabelMaps : gmap loc (gmap string NumericLabelValue)
}.

(** Modelled from the spec: [Labels.Clone] and [NumericLabels.Clone] are
    declared in the model package; the spec has the label maps cloned
    independently, so a clone is a new map with the entries of the old
    one. *)
Definition Labels_Clone (l : loc) (h : store) : loc * store :=
  let l' := fresh (dom (labelMaps h)) in
  (l', {| labelMaps := <[l' := default ∅ (labelMaps h !! l)]> (labelMaps h);
          numericLabelMaps := numericLabelMaps h |}).

Definition NumericLabels_Clone (l : loc) (h : store) : loc * store :=
  let l' := fresh (dom (numericLabelMaps h)) in
  (l', {| labelMaps := labelMaps h;
          numericLabelMaps :=
            <[l' := default ∅ (numericLabelMaps h !! l)]> (numericLabelMaps h) |}).

(** [copyEvent]: a shallow copy of the event with a deep copy of the
    labels and numeric labels. *)
Definition copyEvent (e : APMEvent) (h : store) : APMEvent * store :=
  let out := e in
  let '(out, h) :=
    match Labels out with
    | Some l =>
        let '(l', h') := Labels_Clone l h in
        ({| Labels := Some l'; NumericLabels := NumericLabels out;
            OtherFields := OtherFields out |}, h')
    | None => (out, h)
    end in
  let '(out, h) :=
    match NumericLabels out with
    | Some l =>
        let '(l', h') := NumericLabels_Clone l h in
        ({| Labels := Labels out; NumericLabels := Some l';
            OtherFields := OtherFields out |}, h')
    | None => (out, h)
    end in
  (out, h).

Definition Batch : Type := list APMEvent.

(** A per-kind decoder.  Modelled from the spec: the decoders are
    declared in the modeldecoder packages; a decoder parses the document
    the reader holds, starting from the input's base event, and appends
    zero or more events to the batch; it returns the events to append,
    the label maps as it leaves them, and its error. *)
Definition DecodeFunc : Type :=
  list byte -> APMEvent -> store -> list APMEvent * store * option error.

Record Decoders : Type := mkDecoders {
  v2_DecodeNestedError : DecodeFunc;
  v2_DecodeNestedMetricset : DecodeFunc;
  v2_DecodeNestedSpan : DecodeFunc;
  v2_DecodeNestedTransaction : DecodeFunc;
  rumv3_DecodeNestedError : DecodeFunc;
  rumv3_DecodeNestedTransaction : DecodeFunc
}.

(** [decodeMetadataFunc]: reads the metadata document from the reader
    into the event it is given. *)
Definition decodeMetadataFunc : Type :=
  streamReader -> APMEvent -> store ->
  streamReader * APMEvent * store * option error.

(** [Processor].  The reader pool only recycles readers and the
    semaphore channel is represented by the [admission] a call gets. *)
Record Processor : Type := mkProcessor {
  decodeMetadata : decodeMetadataFunc;
  MaxEventSize : Z
}.

(** [readMetadata]. *)
Definition readMetadata (p : Processor) (reader : streamReader)
    (out : APMEvent) (h : store)
  : go (streamReader * APMEvent * store * option error) :=
  let '(reader, out, h, err) := decodeMetadata p reader out h in
  match err with
  | Some _ =>
      match wrapError reader err with
      | None => Panic
      | Some err =>
          if is_EOF err then
            Ok (reader, out, h,
                Some (InvalidInputError false "EOF while reading metadata"
                        (string_of_bytes (LatestLine reader))))
          else if is_InvalidInputError err then
            Ok (reader, out, h, Some err)
          else
            Ok (reader, out, h,
                Some (InvalidInputError false (Error err)
                        (string_of_bytes (LatestLine reader))))
      end
  | None => Ok (reader, out, h, None)
  end.

(** What [readBatch] reads and writes through its pointer arguments:
    the reader, the batch, the result, and the label maps. *)
Record state : Type := mkState {
  reader : streamReader;
  batch : Batch;
  result : Result;
  heap : store
}.

Variable errorsLimit : nat.
Variable decoders : Decoders.

(** The [switch] of [readBatch] on [string(eventType)]; [doc] is the
    document the reader holds. *)
Definition decodeEvent (eventType : option (list byte)) (doc : list byte)
    (input : APMEvent) (h : store)
  : list APMEvent * store * option error :=
  let s := eventType_string eventType in
  if String.eqb s errorEventType then
    v2_DecodeNestedError decoders doc input h
  else if String.eqb s metricsetEventType then
    v2_DecodeNestedMetricset decoders doc input h
  else if String.eqb s spanEventType then
    v2_DecodeNestedSpan decoders doc input h
  else if String.eqb s transactionEventType then
    v2_DecodeNestedTransaction decoders doc input h
  else if String.eqb s rumv3ErrorEventType then
    rumv3_DecodeNestedError decoders doc input h
  else if String.eqb s rumv3TransactionEventType then
    rumv3_DecodeNestedTransaction decoders doc input h
  else
    ([], h, Some (errors_Wrap errUnrecognizedObject s)).

(** One iteration of the [for] loop of [readBatch]. *)
Definition readBatch_iter (baseEvent : APMEvent) (s : state) : go (state * flow) :=
  let '(rd, (body, err)) := ReadAhead (reader s) in
  let s := {| reader := rd; batch := batch s; result := result s; heap := heap s |} in
  if match err with Some e => negb (is_EOF e) | None => false end then
    let err := wrapError rd err in
    match err with
    | Some e =>
        if errors_As_InvalidInputError e then
          Ok ({| reader := rd; batch := batch s;
                 result := LimitedAdd errorsLimit (result s) e;
                 heap := heap s |}, Next)
        else Ok (s, Return err)
    | None => Ok (s, Return err)
    end
  else if (length body =? 0)%nat then Ok (s, Next)
  else
    let '(base, h) := copyEvent baseEvent (heap s) in
    try! eventType := identifyEventType body in
    let '(events, h, err) := decodeEvent eventType (LatestLine rd) base h in
    let res :=
      match err with
      | Some e =>
          if negb (is_EOF e)
          then LimitedAdd errorsLimit (result s)
                 (InvalidInputError false (Error e)
                    (string_of_bytes (LatestLine rd)))
          else result s
      | None => result s
      end in
    Ok ({| reader := rd; batch := batch s ++ events; result := res; heap := h |},
        Next).

(** The [for i := 0; i < batchSize && !reader.IsEOF(); i++] loop, with
    [iters] iterations left before [i] reaches [batchSize]. *)
Fixpoint readBatch_loop (iters : nat) (baseEvent : APMEvent) (s : state)
  : go (state * flow) :=
  match iters with
  | O => Ok (s, Next)
  | S iters' =>
      if IsEOF (reader s) then Ok (s, Next)
      else
        try! r := readBatch_iter baseEvent s in
        match r with
        | (s', Next) => readBatch_loop iters' baseEvent s'
        | (s', Return err) => Ok (s', Return err)
        end
  end.

(** [readBatch]: the number of events read, the error, and the state
    behind the pointers. *)
Definition readBatch (baseEvent : APMEvent) (batchSize : Z) (s : state)
  : go (Z * option error * state) :=
  let origLen := length (batch s) in
  try! r := readBatch_loop (Z.to_nat batchSize) baseEvent s in
  let '(s', fl) := r in
  let n := Z.of_nat (length (batch s')) - Z.of_nat origLen in
  match fl with
  | Return err => Ok (n, err, s')
  | Next =>
      if IsEOF (reader s') then Ok (n, Some io_EOF, s')
      else Ok (n, None, s')
  end.

(** [getStreamReader]: a reader of the ND-JSON lines of [r], fresh or
    taken from the pool and reset. *)
Definition getStreamReader (p : Processor) (r : list (list byte * option error))
  : streamReader :=
  {| source := r; latestLine := []; isEOF := false;
     maxLineLength := MaxEventSize p |}.

(** The downstream [model.BatchProcessor], with a state of its own:
    [ProcessBatch] is handed the batch, of which it takes ownership, and
    returns an error or nil. *)
Variable Downstream : Type.

Definition BatchProcessor : Type :=
  Downstream -> Batch -> store -> Downstream * Batch * store * option error.

(** What a run of [HandleStream] reads and writes: its reader, the
    caller's result, the label maps and the downstream processor. *)
Record run : Type := mkRun {
  run_reader : streamReader;
  run_result : Result;
  run_heap : store;
  run_downstream : Downstream
}.

(** One iteration of the [for] loop of [HandleStream]; [Return None]
    stands for the [break], after which [HandleStream] returns nil. *)
Definition HandleStream_iter (baseEvent : APMEvent) (batchSize : Z)
    (processor : BatchProcessor) (st : run) : go (run * flow) :=
  try! r := readBatch baseEvent batchSize
              {| reader := run_reader st; batch := [];
                 result := run_result st; heap := run_heap st |} in
  let '(n, readErr, s) := r in
  let after_read :=
    {| run_reader := reader s; run_result := result s; run_heap := heap s;
       run_downstream := run_downstream st |} in
  let '(st', fl) :=
    if n >? 0 then
      let '(d, batch', h, err) := processor (run_downstream st) (batch s) (heap s) in
      match err with
      | Some e =>
          ({| run_reader := reader s; run_result := result s; run_heap := h;
              run_downstream := d |}, Return (Some e))
      | None =>
          ({| run_reader := reader s;
              run_result := AddAccepted (result s) (Z.of_nat (length batch'));
              run_heap := h; run_downstream := d |}, Next)
      end
    else (after_read, Next) in
  match fl with
  | Return err => Ok (st', Return err)
  | Next =>
      match readErr with
      | Some e => if is_EOF e then Ok (st', Return None) else Ok (st', Return readErr)
      | None => Ok (st', Next)
      end
  end.

(** How far a run of [HandleStream] got: it returned, it panicked, or
    the bounded unfolding of its loop was used up at the given state. *)
Inductive outcome : Type :=
| Done (ret : option error) (st : run)
| Crashed
| Unfinished (st : run).

(** The [for] loop of [HandleStream], unfolded at most [fuel] times. *)
Fixpoint HandleStream_loop (fuel : nat) (baseEvent : APMEvent) (batchSize : Z)
    (processor : BatchProcessor) (st : run) : outcome :=
  match fuel with
  | O => Unfinished st
  | S fuel' =>
      match HandleStream_iter baseEvent batchSize processor st with
      | Panic => Crashed
      | Ok (st', Return err) => Done err st'
      | Ok (st', Next) => HandleStream_loop fuel' baseEvent batchSize processor st'
      end
  end.

(** [HandleStream], for the given outcome of its admission [select]. *)
Definition HandleStream (fuel : nat) (p : Processor) (adm : admission)
    (baseEvent : APMEvent) (r : list (list byte * option error)) (batchSize : Z)
    (processor : BatchProcessor) (res : Result) (h : store) (d : Downstream)
  : outcome :=
  match adm with
  | ContextDone ctxErr =>
      Done (Some ctxErr)
        {| run_reader := getStreamReader p r; run_result := res; run_heap := h;
           run_downstream := d |}  (* no reader is taken on this path *)
  | SlotAcquired =>
      let sr := getStreamReader p r in
      match readMetadata p sr baseEvent h with
      | Panic => Crashed
      | Ok (sr, baseEvent, h, Some err) =>
          Done (Some err)
            {| run_reader := sr; run_result := res; run_heap := h;
               run_downstream := d |}
      | Ok (sr, baseEvent, h, None) =>
          HandleStream_loop fuel baseEvent batchSize processor
            {| run_reader := sr; run_result := res; run_heap := h;
               run_downstream := d |}
      end
  end.

End Model.

Arguments APMEvent Fields : clear implicits.
Arguments mkAPMEvent {Fields} _ _ _.
Arguments Labels {Fields} _.
Arguments NumericLabels {Fields} _.
Arguments OtherFields {Fields} _.
Arguments mkStore {LabelValue NumericLabelValue} _ _.
Arguments labelMaps {LabelValue NumericLabelValue} _.
Arguments numericLabelMaps {LabelValue NumericLabelValue} _.
Arguments Labels_Clone {LabelValue NumericLabelValue} _ _.
Arguments NumericLabels_Clone {LabelValue NumericLabelValue} _ _.
Arguments copyEvent {Fields LabelValue NumericLabelValue} _ _.
Arguments mkDecoders {Fields LabelValue NumericLabelValue} _ _ _ _ _ _.
Arguments v2_DecodeNestedError {Fields LabelValue NumericLabelValue} _.
Arguments v2_DecodeNestedMetricset {Fields LabelValue NumericLabelValue} _.
Arguments v2_DecodeNestedSpan {Fields LabelValue NumericLabelValue} _.
Arguments v2_DecodeNestedTransaction {Fields LabelValue NumericLabelValue} _.
Arguments rumv3_DecodeNestedError {Fields LabelValue NumericLabelValue} _.
Arguments rumv3_DecodeNestedTransaction {Fields LabelValue NumericLabelValue} _.
Arguments mkProcessor {Fields LabelValue NumericLabelValue} _ _.
Arguments decodeMetadata {Fields LabelValue NumericLabelValue} _.
Arguments MaxEventSize {Fields LabelValue NumericLabelValue} _.
Arguments readMetadata {Fields LabelValue NumericLabelValue} _ _ _ _.
Arguments mkState {Fields LabelValue NumericLabelValue} _ _ _ _.
Arguments reader {Fields LabelValue NumericLabelValue} _.
Arguments batch {Fields LabelValue NumericLabelValue} _.
Arguments result {Fields LabelValue NumericLabelValue} _.
Arguments heap {Fields LabelValue NumericLabelValue} _.
Arguments decodeEvent {Fields LabelValue NumericLabelValue} _ _ _ _ _.
Arguments readBatch_iter {Fields LabelValue NumericLabelValue} _ _ _ _.
Arguments readBatch_loop {Fields LabelValue NumericLabelValue} _ _ _ _ _.
Arguments readBatch {Fields LabelValue NumericLabelValue} _ _ _ _ _.
Arguments getStreamReader {Fields LabelValue NumericLabelValue} _ _.
Arguments mkRun {LabelValue NumericLabelValue Downstream} _ _ _ _.
Arguments run_reader {LabelValue NumericLabelValue Downstream} _.
Arguments run_result {LabelValue NumericLabelValue Downstream} _.
Arguments run_heap {LabelValue NumericLabelValue Downstream} _.
Arguments run_downstream {LabelValue NumericLabelValue Downstream} _.
Arguments HandleStream_iter {Fields LabelValue NumericLabelValue} _ _ {Downstream} _ _ _ _.
Arguments Done {LabelValue NumericLabelValue Downstream} _ _.
Arguments Crashed {LabelValue NumericLabelValue Downstream}.
Arguments Unfinished {LabelValue NumericLabelValue Downstream} _.
Arguments HandleStream_loop {Fields LabelValue NumericLabelValue} _ _ {Downstream} _ _ _ _ _.
Arguments HandleStream {Fields LabelValue NumericLabelValue} _ _ {Downstream} _ _ _ _ _ _ _ _ _ _.

(** ** The admission semaphore

    [HandleStream] opens with a [select] between a send on the buffered
    channel [p.sem] and the context's [Done] channel, and defers a receive
    from [p.sem].  The calls that share one channel are interleaved: each
    action below is one of them taking one of these steps. *)
Module Semaphore.

(** Where a call of [HandleStream] stands. *)
Inductive phase : Type :=
| AtSelect
| Holding
| Cancelled (ctxErr : error)
| Released.

(** The channel, by its capacity and the number of values it buffers,
    and the calls made so far. *)
Record system : Type := mkSystem {
  capacity : nat;
  buffered : nat;
  calls : list phase
}.

Inductive action : Type :=
| Arrive
| SelectSend (i : nat)
| SelectDone (i : nat) (ctxErr : error)
| Release (i : nat).

Definition is_Holding (ph : phase) : bool :=
  match ph with Holding => true | _ => false end.

(** One step.  A send on a buffered channel goes through only while the
    buffer is not full, a receive only while it is not empty; [None]
    when the action cannot be taken in this state. *)
Definition step (a : action) (c : system) : option system :=
  match a with
  | Arrive =>
      Some {| capacity := capacity c; buffered := buffered c;
              calls := calls c ++ [AtSelect] |}
  | SelectSend i =>
      match calls c !! i with
      | Some AtSelect =>
          if (buffered c <? capacity c)%nat
          then Some {| capacity := capacity c; buffered := S (buffered c);
                       calls := <[i := Holding]> (calls c) |}
          else None
      | _ => None
      end
  | SelectDone i ctxErr =>
      match calls c !! i with
      | Some AtSelect =>
          Some {| capacity := capacity c; buffered := buffered c;
                  calls := <[i := Cancelled ctxErr]> (calls c) |}
      | _ => None
      end
  | Release i =>
      match calls c !! i with
      | Some Holding =>
          match buffered c with
          | S b => Some {| capacity := capacity c; buffered := b;
                           calls := <[i := Released]> (calls c) |}
          | O => None
          end
      | _ => None
      end
  end.

(** A schedule: the actions taken, in order. *)
Fixpoint exec (schedule : list action) (c : system) : option system :=
  match schedule with
  | [] => Some c
  | a :: schedule' =>
      match step a c with
      | Some c' => exec schedule' c'
      | None => None
      end
  end.

(** The server starts with an empty channel and no call. *)
Definition init (C : nat) : system :=
  {| capacity := C; buffered := 0; calls := [] |}.

(** The number of calls past admission and before release. *)
Definition count_holding (l : list phase) : nat :=
  length (filter (fun ph => is_Holding ph = true) l).

Definition holding (c : system) : nat := count_holding (calls c).

(** The channel buffers one value for each call that holds a slot, and
    never more than its capacity. *)
Definition balanced (c : system) : Prop :=
  buffered c = holding c /\ (buffered c <= capacity c)%nat.

(** The admission with which a call in the given phase entered the body
    of [HandleStream], if it has left the [select]. *)
Definition admission_of (ph : phase) : option admission :=
  match ph with
  | AtSelect => None
  | Holding | Released => Some SlotAcquired
  | Cancelled ctxErr => Some (ContextDone ctxErr)
  end.

End Semaphore.

(** ** Sample decoders, processors and streams *)
Module Sample.

Definition bytes (s : string) : list byte := list_byte_of_string s.

Definition has_byte (b : byte) (doc : list byte) : bool :=
  existsb (Byte.eqb b) doc.

(** Writes the label [seen] into the label map of the event, when the
    event has one. *)
Definition tag (doc : list byte) (input : APMEvent string) (h : store string Z)
  : store string Z :=
  match Labels input with
  | Some l =>
      {| labelMaps :=
           <[l := <["seen" := string_of_bytes doc]> (default ∅ (labelMaps h !! l))]>
             (labelMaps h);
         numericLabelMaps := numericLabelMaps h |}
  | None => h
  end.

(** A decoder for every kind: a document with an exclamation mark does
    not parse, one with a hash mark makes the decoder fail with an error
    of another type, and any other document gives one event, labelled
    with the document. *)
Definition decode : DecodeFunc string string Z :=
  fun doc input h =>
    if has_byte x21 doc then
      ([], h, Some (DecoderError (JSONDecodeError "data read error")))
    else if has_byte x23 doc then
      ([], h, Some (errorString "unexpected EOF"))
    else
      ([{| Labels := Labels input; NumericLabels := NumericLabels input;
           OtherFields := string_of_bytes doc |}],
       tag doc input h, None).

Definition decoders : Decoders string string Z :=
  mkDecoders decode decode decode decode decode decode.

(** A metadata decoder: reads one line ahead, reports what the reader
    reports when there is no line, and otherwise keeps the line as the
    base event's own field. *)
Definition decodeMeta : decodeMetadataFunc string string Z :=
  fun rd out h =>
    let '(rd', (line, cond)) := ReadAhead rd in
    match line, cond with
    | [], Some e => (rd', out, h, Some e)
    | _, Some e =>
        if is_EOF e
        then (rd', {| Labels := Labels out; NumericLabels := NumericLabels out;
                      OtherFields := string_of_bytes line |}, h, None)
        else (rd', out, h, Some e)
    | _, None =>
        (rd', {| Labels := Labels out; NumericLabels := NumericLabels out;
                 OtherFields := string_of_bytes line |}, h, None)
    end.

Definition processor : Processor string string Z :=
  mkProcessor decodeMeta 32.

(** A downstream processor that keeps the batches it is handed. *)
Definition keep : BatchProcessor string string Z (list (Batch string)) :=
  fun d b h => (d ++ [b], b, h, None).

(** A downstream processor that fails. *)
Definition reject : BatchProcessor string string Z (list (Batch string)) :=
  fun d b h => (d, b, h, Some (errorString "queue is full")).

Definition emptyStore : store string Z :=
  {| labelMaps := ∅; numericLabelMaps := ∅ |}.

(** A base event with one label map, at address 1. *)
Definition baseStore : store string Z :=
  {| labelMaps := {[ 1%positive := {[ "env" := "prod" ]} ]};
     numericLabelMaps := ∅ |}.

Definition base : APMEvent string :=
  {| Labels := Some 1%positive; NumericLabels := None; OtherFields := "" |}.

Definition noLabels : APMEvent string :=
  {| Labels := None; NumericLabels := None; OtherFields := "" |}.

Definition emptyResult : Result := {| Accepted := 0; Errors := [] |}.

Definition meta : list byte := bytes "{'metadata':{}}".
Definition good1 : list byte := bytes "{'transaction':{'id':1}}".
Definition good2 : list byte := bytes "{'span':{'id':2}}".
Definition good3 : list byte := bytes "{'e':{'id':3}}".
Definition malformed : list byte := bytes "{'error':{'id':!}}".
Definition unknown : list byte := bytes "{'log':{'id':5}}".
Definition oversize : list byte := bytes "{'metricset':{'samples':{'a':1,'b':2}}}".
Definition failing : list byte := bytes "{'x':{'id':#}}".

(** A source that yields the given lines, each ended by a newline. *)
Definition lines (ls : list (list byte)) : list (list byte * option error) :=
  map (fun l => (l, None)) ls.

Definition reader0 (src : list (list byte * option error)) : streamReader :=
  getStreamReader processor src.

Definition state0 (src : list (list byte * option error)) : state string string Z :=
  {| reader := reader0 src; batch := []; result := emptyResult; heap := baseStore |}.

End Sample.


(** ** Vocabulary of the statements *)

(** No byte of [b] is a quote character. *)
Definition no_quote (b : list byte) : Prop :=
  Forall (fun r => is_quote r = false) b.

(** The byte [c] does not occur in [b]. *)
Definition lacks (c : byte) (b : list byte) : Prop :=
  Forall (fun r => r <> c) b.

(** The six kind tokens of the [switch] in [readBatch]. *)
Definition known_kind (s : string) : bool :=
  String.eqb s errorEventType || String.eqb s metricsetEventType
  || String.eqb s spanEventType || String.eqb s transactionEventType
  || String.eqb s rumv3ErrorEventType || String.eqb s rumv3TransactionEventType.

(** The line is within the maximum size [m]. *)
Definition fits (m : Z) (line : list byte) : Prop :=
  Z.of_nat (length line) <= m.

(** A source without read failures: every line comes without a
    condition, except that the last one may come with end of input. *)
Inductive clean : list (list byte * option error) -> Prop :=
| clean_nil : clean []
| clean_last (line : list byte) : clean [(line, Some io_EOF)]
| clean_cons (line : list byte) (rest : list (list byte * option error)) :
    clean rest -> clean ((line, None) :: rest).

(** The lines the reader has still to deliver. *)
Definition lines_of (sr : streamReader) : list (list byte) :=
  if isEOF sr then [] else map fst (source sr).

(** A bound on the number of reads the reader has left. *)
Definition reads_left (sr : streamReader) : nat :=
  if isEOF sr then O else S (length (source sr)).

(** A non-nil error that is neither [io.EOF] nor an invalid-input error. *)
Definition terminal (err : option error) : Prop :=
  exists e, err = Some e /\ is_EOF e = false /\
            errors_As_InvalidInputError e = false.

(** What [HandleStream] does with the signal of [readBatch], once the
    batch is dealt with: [break] and return nil on [io.EOF], return any
    other error, go round again on nil. *)
Definition after_signal (readErr : option error) : flow :=
  match readErr with
  | Some e => if is_EOF e then Return None else Return readErr
  | None => Next
  end.

Section Vocabulary.

Context {Fields LabelValue NumericLabelValue : Type}.
Variable decoders : Decoders Fields LabelValue NumericLabelValue.
Variable m : Z.

(** A valid document: not blank, within the size limit, and decoded
    into exactly one event without error, whatever the base event. *)
Definition valid_doc (line : list byte) : Prop :=
  line <> [] /\ fits m line /\
  forall (input : APMEvent Fields) (h : store LabelValue NumericLabelValue),
  exists tok ev h',
    identifyEventType line = Ok tok /\
    decodeEvent decoders tok line input h = ([ev], h', None).

(** The errors of interest among those recorded in the result. *)
Variable recorded : error -> Prop.

(** A document that fails on its own: it is over the size limit, or its
    kind is not recognized or its decoder rejects it, no event being
    appended; the error recorded for it is one of [recorded]. *)
Definition bad_doc (line : list byte) : Prop :=
  (Z.of_nat (length line) > m /\
   recorded (InvalidInputError true "event exceeded the permitted size."
               (string_of_bytes (firstn (Z.to_nat m) line)))) \/
  (line <> [] /\ fits m line /\
   forall (input : APMEvent Fields) (h : store LabelValue NumericLabelValue),
   exists tok h' e,
     identifyEventType line = Ok tok /\
     decodeEvent decoders tok line input h = ([], h', Some e) /\
     is_EOF e = false /\
     recorded (InvalidInputError false (Error e) (string_of_bytes line))).

(** [tally ls v b]: the lines [ls] are [v] valid documents, [b] failing
    documents and any number of blank lines, in any order. *)
Inductive tally : list (list byte) -> nat -> nat -> Prop :=
| tally_nil : tally [] 0 0
| tally_valid (line : list byte) (ls : list (list byte)) (v b : nat) :
    valid_doc line -> tally ls v b -> tally (line :: ls) (S v) b
| tally_bad (line : list byte) (ls : list (list byte)) (v b : nat) :
    bad_doc line -> tally ls v b -> tally (line :: ls) v (S b)
| tally_blank (ls : list (list byte)) (v b : nat) :
    0 <= m -> tally ls v b -> tally ([] :: ls) v b.

(** A decoder that writes to no label map that existed before the call
    other than those of the event it is given. *)
Definition local_decoder (f : DecodeFunc Fields LabelValue NumericLabelValue) : Prop :=
  forall doc input h evs h' err,
    f doc input h = (evs, h', err) ->
    (forall l lm, labelMaps h !! l = Some lm -> Labels input <> Some l ->
                  labelMaps h' !! l = Some lm) /\
    (forall l lm, numericLabelMaps h !! l = Some lm -> NumericLabels input <> Some l ->
                  numericLabelMaps h' !! l = Some lm).

Definition local_decoders : Prop :=
  local_decoder (v2_DecodeNestedError decoders) /\
  local_decoder (v2_DecodeNestedMetricset decoders) /\
  local_decoder (v2_DecodeNestedSpan decoders) /\
  local_decoder (v2_DecodeNestedTransaction decoders) /\
  local_decoder (rumv3_DecodeNestedError decoders) /\
  local_decoder (rumv3_DecodeNestedTransaction decoders).

(** Every label map of [h] is in [h'], unchanged. *)
Definition preserved (h h' : store LabelValue NumericLabelValue) : Prop :=
  (forall l lm, labelMaps h !! l = Some lm -> labelMaps h' !! l = Some lm) /\
  (forall l lm, numericLabelMaps h !! l = Some lm ->
                numericLabelMaps h' !! l = Some lm).

Variable errorsLimit : nat.

(** What a stretch of the loop from [s] to [s'] keeps, on a clean
    source whose remaining lines tally to [v] valid and [b] failing
    documents before and to [v'] and [b'] after. *)
Definition batch_progress (s s' : state Fields LabelValue NumericLabelValue)
    (v b v' b' : nat) : Prop :=
  clean (source (reader s')) /\
  maxLineLength (reader s') = m /\
  tally (lines_of (reader s')) v' b' /\
  (exists appended, batch s' = batch s ++ appended /\
                    (length appended + v' = v)%nat) /\
  (exists added,
      Errors (result s') = Errors (result s) ++ added /\
      Forall recorded added /\
      (length added + Nat.min b' (errorsLimit - length (Errors (result s')))
       = Nat.min b (errorsLimit - length (Errors (result s))))%nat) /\
  Accepted (result s') = Accepted (result s).

(** A downstream processor that accepts every batch as it is. *)
Definition forwards {Downstream : Type}
    (processor : BatchProcessor Fields LabelValue NumericLabelValue Downstream) : Prop :=
  forall d b h, exists d' b' h',
    processor d b h = (d', b', h', None) /\ length b' = length b.

End Vocabulary.

(** The final state of a run, when it has one. *)
Definition final {LabelValue NumericLabelValue Downstream : Type}
    (o : outcome LabelValue NumericLabelValue Downstream)
  : option (run LabelValue NumericLabelValue Downstream) :=
  match o with
  | Done _ st => Some st
  | Unfinished st => Some st
  | Crashed => None
  end.

(** The too-large flag of an invalid-input error; false for any other
    error. *)
Definition is_TooLarge (e : error) : bool :=
  match e with
  | InvalidInputError TooLarge _ _ => TooLarge
  | _ => false
  end.

(** The type assertion of [err] to [decoder.JSONDecodeError]. *)
Definition is_JSONDecodeError (e : error) : bool :=
  match e with
  | JSONDecodeError _ => true
  | _ => false
  end.

(** A downstream processor that also keeps the batches it is handed, in
    the order of the calls, beside the state of the processor it runs. *)
Definition logged {Fields LabelValue NumericLabelValue Downstream : Type}
    (processor : BatchProcessor Fields LabelValue NumericLabelValue Downstream)
  : BatchProcessor Fields LabelValue NumericLabelValue
      (Downstream * list (Batch Fields)) :=
  fun dl b h =>
    let '(d', b', h', err) := processor (fst dl) b h in
    ((d', snd dl ++ [b]), b', h', err).

(** Every decoder appends at most [k] events for one document. *)
Definition emits_at_most {Fields LabelValue NumericLabelValue : Type}
    (k : nat) (decoders : Decoders Fields LabelValue NumericLabelValue) : Prop :=
  forall tok doc input h,
    (length (fst (fst (decodeEvent decoders tok doc input h))) <= k)%nat.

(** A downstream processor that never returns an error. *)
Definition never_fails {Fields LabelValue NumericLabelValue Downstream : Type}
    (processor : BatchProcessor Fields LabelValue NumericLabelValue Downstream)
  : Prop :=
  forall d b h, snd (processor d b h) = None.

(** * Properties *)

(** ** The classifier *)

Lemma byte_eqb_refl (c : byte) : Byte.eqb c c = true.
Proof. now apply Byte.byte_dec_lb. Qed.

Lemma byte_eqb_neq (x c : byte) : x <> c -> Byte.eqb x c = false.
Proof.
  intros Hne. destruct (Byte.eqb x c) eqn:E; [|reflexivity].
  apply Byte.byte_dec_bl in E. contradiction.
Qed.

Lemma IndexByte_range (b : list byte) (c : byte) :
  IndexByte b c = -1 \/ 0 <= IndexByte b c < Z.of_nat (length b).
Proof.
  induction b as [|x b IH]; simpl; [now left|].
  destruct (Byte.eqb x c); [right; lia|].
  destruct IH as [-> | IH]; [now left|].
  destruct (IndexByte b c =? -1) eqn:E; [now left | right; lia].
Qed.

Lemma IndexByte_lacks (b : list byte) (c : byte) :
  lacks c b -> IndexByte b c = -1.
Proof.
  induction 1 as [|x b Hx _ IH]; simpl; [reflexivity|].
  now rewrite (byte_eqb_neq _ _ Hx), IH.
Qed.

Lemma IndexByte_found (t rest : list byte) (c : byte) :
  lacks c t -> IndexByte (t ++ c :: rest) c = Z.of_nat (length t).
Proof.
  induction 1 as [|x t Hx _ IH]; simpl.
  - now rewrite byte_eqb_refl.
  - rewrite (byte_eqb_neq _ _ Hx), IH.
    destruct (Z.eqb_spec (Z.of_nat (length t)) (-1)); lia.
Qed.

Lemma scan_quote_none (body rest : list byte) (i : nat) :
  no_quote rest -> scan_quote body rest i = Ok (x00, []).
Proof.
  intros H. revert i. induction H as [|r rest Hr _ IH]; intros i; simpl.
  - reflexivity.
  - now rewrite Hr.
Qed.

Lemma scan_quote_found (pre a tail : list byte) (q : byte) :
  no_quote a -> is_quote q = true ->
  scan_quote (pre ++ a ++ q :: tail) (a ++ q :: tail) (length pre) = Ok (q, tail).
Proof.
  intros Ha Hq. revert pre. induction Ha as [|r a Hr _ IH]; intros pre; simpl.
  - rewrite Hq. unfold slice_from.
    rewrite length_app. simpl.
    destruct (Nat.leb_spec (length pre + 1) (length pre + S (length tail))); [|lia].
    simpl. f_equal. f_equal.
    replace (length pre + 1)%nat with (length (pre ++ [q])) by (rewrite length_app; simpl; lia).
    replace (pre ++ q :: tail) with ((pre ++ [q]) ++ tail) by (now rewrite <- app_assoc).
    now rewrite skipn_app, skipn_all, Nat.sub_diag.
  - rewrite Hr.
    specialize (IH (pre ++ [r])).
    rewrite length_app in IH. simpl in IH.
    replace (length pre + 1)%nat with (S (length pre)) in IH by lia.
    now rewrite <- app_assoc in IH.
Qed.

Lemma scan_quote_total (pre rest : list byte) :
  exists q key, scan_quote (pre ++ rest) rest (length pre) = Ok (q, key).
Proof.
  revert pre. induction rest as [|r rest IH]; intros pre; simpl.
  - now exists x00, [].
  - destruct (is_quote r).
    + unfold slice_from. rewrite length_app. simpl.
      destruct (Nat.leb_spec (length pre + 1) (length pre + S (length rest))); [|lia].
      simpl. eauto.
    + specialize (IH (pre ++ [r])).
      rewrite length_app in IH. simpl in IH.
      replace (length pre + 1)%nat with (S (length pre)) in IH by lia.
      now rewrite <- app_assoc in IH.
Qed.

Lemma identifyEventType_total (body : list byte) :
  exists eventType, identifyEventType body = Ok eventType.
Proof.
  unfold identifyEventType.
  destruct (scan_quote_total [] body) as (q & key & Hs).
  simpl in Hs. rewrite Hs. simpl.
  destruct (IndexByte_range key q) as [E | E].
  - rewrite E. simpl. eauto.
  - destruct (IndexByte key q =? -1) eqn:E1; [eauto|].
    unfold slice_to.
    destruct (Z.leb_spec 0 (IndexByte key q)); [|lia].
    destruct (Z.leb_spec (IndexByte key q) (Z.of_nat (length key))); [|lia].
    simpl. eauto.
Qed.

Lemma identifyEventType_no_quote (body : list byte) :
  no_quote body -> identifyEventType body = Ok None.
Proof.
  intros H. unfold identifyEventType.
  now rewrite (scan_quote_none body body 0 H).
Qed.

Lemma identifyEventType_quoted (pre tok rest : list byte) (q : byte) :
  no_quote pre -> is_quote q = true -> lacks q tok ->
  identifyEventType (pre ++ q :: tok ++ q :: rest) = Ok (Some tok).
Proof.
  intros Hpre Hq Htok. unfold identifyEventType.
  pose proof (scan_quote_found [] pre (tok ++ q :: rest) q Hpre Hq) as Hs.
  simpl in Hs. rewrite Hs. simpl.
  rewrite (IndexByte_found tok rest q Htok).
  destruct (Z.eqb_spec (Z.of_nat (length tok)) (-1)) as [E|_]; [lia|].
  unfold slice_to.
  destruct (Z.leb_spec 0 (Z.of_nat (length tok))); [|lia].
  rewrite length_app. simpl.
  destruct (Z.leb_spec (Z.of_nat (length tok))
              (Z.of_nat (length tok + S (length rest)))); [|lia].
  simpl. rewrite Nat2Z.id.
  now rewrite firstn_app, firstn_all, Nat.sub_diag, app_nil_r.
Qed.

Lemma identifyEventType_unclosed (pre tail : list byte) (q : byte) :
  no_quote pre -> is_quote q = true -> lacks q tail ->
  identifyEventType (pre ++ q :: tail) = Ok None.
Proof.
  intros Hpre Hq Htail. unfold identifyEventType.
  pose proof (scan_quote_found [] pre tail q Hpre Hq) as Hs.
  simpl in Hs. rewrite Hs. simpl.
  now rewrite (IndexByte_lacks tail q Htail).
Qed.

Lemma first_quote_split (body : list byte) :
  no_quote body \/
  exists pre q tail, body = pre ++ q :: tail /\ no_quote pre /\ is_quote q = true.
Proof.
  induction body as [|r body IH]; [left; constructor|].
  destruct (is_quote r) eqn:Hr.
  - right. exists [], r, body. repeat split; [constructor | exact Hr].
  - destruct IH as [IH | (pre & q & tail & -> & Hpre & Hq)].
    + left. now constructor.
    + right. exists (r :: pre), q, tail. repeat split; [now constructor | exact Hq].
Qed.

Lemma first_byte_split (q : byte) (l : list byte) :
  lacks q l \/ exists tok rest, l = tok ++ q :: rest /\ lacks q tok.
Proof.
  induction l as [|r l IH]; [left; constructor|].
  destruct (Byte.eqb r q) eqn:Hr.
  - apply Byte.byte_dec_bl in Hr. subst r.
    right. exists [], l. split; [reflexivity | constructor].
  - apply Byte.eqb_false in Hr.
    destruct IH as [IH | (tok & rest & -> & Htok)].
    + left. now constructor.
    + right. exists (r :: tok), rest. split; [reflexivity | now constructor].
Qed.

(** The classifier on every document: nil without a quote character or
    without a closing quote, the bytes between the first quote and the next
    quote of the same kind otherwise. *)
Lemma identifyEventType_cases (body : list byte) :
  (no_quote body /\ identifyEventType body = Ok None) \/
  (exists pre q tail,
      body = pre ++ q :: tail /\ no_quote pre /\ is_quote q = true /\
      ((lacks q tail /\ identifyEventType body = Ok None) \/
       (exists tok rest,
           tail = tok ++ q :: rest /\ lacks q tok /\
           identifyEventType body = Ok (Some tok)))).
Proof.
  destruct (first_quote_split body) as [Hnq | (pre & q & tail & -> & Hpre & Hq)].
  - left. split; [exact Hnq | now apply identifyEventType_no_quote].
  - right. exists pre, q, tail. repeat split; try assumption.
    destruct (first_byte_split q tail) as [Hl | (tok & rest & -> & Htok)].
    + left. split; [exact Hl | now apply identifyEventType_unclosed].
    + right. exists tok, rest. repeat split; try assumption.
      now apply identifyEventType_quoted.
Qed.

(** ** Errors and the reader *)

Lemma wrapError_Some (sr : streamReader) (e : error) :
  exists e', wrapError sr (Some e) = Some e' /\
    (is_InvalidInputError e' = true \/ e' = e).
Proof.
  unfold wrapError. destruct e; simpl; eauto;
    match goal with
    | |- context [if ?b then _ else _] => destruct b; simpl; eauto
    end.
Qed.

Lemma wrapError_not_EOF (sr : streamReader) (e e' : error) :
  wrapError sr (Some e) = Some e' -> is_EOF e = false -> is_EOF e' = false.
Proof.
  intros H He. destruct (wrapError_Some sr e) as (e2 & H2 & [Hi | ->]).
  - rewrite H in H2. injection H2 as <-. now destruct e'.
  - rewrite H in H2. now injection H2 as ->.
Qed.

Lemma is_InvalidInputError_As (e : error) :
  is_InvalidInputError e = true -> errors_As_InvalidInputError e = true.
Proof. now destruct e. Qed.

Lemma wrapError_too_long (sr : streamReader) (e : error) :
  e = ErrLineTooLong \/ e = DecoderError ErrLineTooLong ->
  wrapError sr (Some e) =
  Some (InvalidInputError true "event exceeded the permitted size."
          (string_of_bytes (LatestLine sr))).
Proof. now intros [-> | ->]. Qed.

Lemma ReadAhead_reads_left (sr : streamReader) :
  isEOF sr = false ->
  (reads_left (fst (ReadAhead sr)) < reads_left sr)%nat.
Proof.
  intros H. unfold reads_left, ReadAhead. rewrite H.
  destruct (source sr) as [|[line cond] rest]; simpl; [lia|].
  destruct (Z.of_nat (length line) >? maxLineLength sr); simpl; [lia|].
  destruct cond as [e|]; [destruct (is_EOF e)|]; lia.
Qed.

(** ** One iteration of the batch loop *)

Section Iteration.

Context {Fields LabelValue NumericLabelValue : Type}.
Variable errorsLimit : nat.
Variable decoders : Decoders Fields LabelValue NumericLabelValue.

Abbreviation State := (state Fields LabelValue NumericLabelValue).
Abbreviation Event := (APMEvent Fields).

(** A line read that fails with an error other than end of input. *)
Lemma readBatch_iter_read_error (baseEvent : Event) (s : State)
    rd body e e' :
  ReadAhead (reader s) = (rd, (body, Some e)) ->
  is_EOF e = false ->
  wrapError rd (Some e) = Some e' ->
  readBatch_iter errorsLimit decoders baseEvent s =
  if errors_As_InvalidInputError e'
  then Ok ({| reader := rd; batch := batch s;
              result := LimitedAdd errorsLimit (result s) e';
              heap := heap s |}, Next)
  else Ok ({| reader := rd; batch := batch s; result := result s;
              heap := heap s |}, Return (Some e')).
Proof.
  intros HR He Hw. unfold readBatch_iter. rewrite HR, He. simpl negb. cbv iota.
  rewrite Hw. simpl.
  now destruct (errors_As_InvalidInputError e').
Qed.

(** A blank line. *)
Lemma readBatch_iter_blank (baseEvent : Event) (s : State) rd cond :
  ReadAhead (reader s) = (rd, ([], cond)) ->
  cond = None \/ cond = Some io_EOF ->
  readBatch_iter errorsLimit decoders baseEvent s =
  Ok ({| reader := rd; batch := batch s; result := result s; heap := heap s |},
      Next).
Proof.
  intros HR Hc. unfold readBatch_iter. rewrite HR.
  now destruct Hc as [-> | ->].
Qed.

(** A document: the decoder of its kind runs on a copy of the base
    event, and a decoder error other than end of input is recorded. *)
Lemma readBatch_iter_document (baseEvent : Event) (s : State)
    rd body cond tok :
  ReadAhead (reader s) = (rd, (body, cond)) ->
  cond = None \/ cond = Some io_EOF ->
  body <> [] ->
  identifyEventType body = Ok tok ->
  readBatch_iter errorsLimit decoders baseEvent s =
  let '(base, h) := copyEvent baseEvent (heap s) in
  let '(events, h', err) := decodeEvent decoders tok (LatestLine rd) base h in
  Ok ({| reader := rd; batch := batch s ++ events;
         result :=
           match err with
           | Some e =>
               if negb (is_EOF e)
               then LimitedAdd errorsLimit (result s)
                      (InvalidInputError false (Error e)
                         (string_of_bytes (LatestLine rd)))
               else result s
           | None => result s
           end;
         heap := h' |}, Next).
Proof.
  intros HR Hc Hb Hi. unfold readBatch_iter. rewrite HR.
  assert (Hc' : match cond with Some e => negb (is_EOF e) | None => false end = false)
    by now destruct Hc as [-> | ->].
  rewrite Hc'.
  destruct body as [|b0 body']; [contradiction|].
  cbn [length Nat.eqb reader batch result heap].
  destruct (copyEvent baseEvent (heap s)) as [base h].
  rewrite Hi. cbn [go_bind].
  destruct (decodeEvent decoders tok (LatestLine rd) base h) as [[events h'] err].
  reflexivity.
Qed.

End Iteration.

(** ** The batch loop on a source without read failures *)

Lemma clean_inv (line : list byte) (cond : option error)
    (rest : list (list byte * option error)) :
  clean ((line, cond) :: rest) ->
  clean rest /\ (cond = None \/ (cond = Some io_EOF /\ rest = [])).
Proof.
  inversion 1; subst.
  - split; [constructor | right; split; reflexivity].
  - split; [assumption | now left].
Qed.

Lemma ReadAhead_fits (sr : streamReader) line cond rest :
  source sr = (line, cond) :: rest ->
  fits (maxLineLength sr) line ->
  ReadAhead sr =
  ({| source := rest; latestLine := line;
      isEOF := match cond with Some e => is_EOF e | None => false end;
      maxLineLength := maxLineLength sr |}, (line, cond)).
Proof.
  intros Hs Hf. unfold ReadAhead, fits in *. rewrite Hs.
  destruct (Z.gtb_spec (Z.of_nat (length line)) (maxLineLength sr)); [lia|].
  reflexivity.
Qed.

Lemma ReadAhead_oversize (sr : streamReader) line cond rest :
  source sr = (line, cond) :: rest ->
  Z.of_nat (length line) > maxLineLength sr ->
  ReadAhead sr =
  ({| source := rest;
      latestLine := firstn (Z.to_nat (maxLineLength sr)) line;
      isEOF := false;
      maxLineLength := maxLineLength sr |},
   (firstn (Z.to_nat (maxLineLength sr)) line, Some ErrLineTooLong)).
Proof.
  intros Hs Hf. unfold ReadAhead. rewrite Hs.
  destruct (Z.gtb_spec (Z.of_nat (length line)) (maxLineLength sr)); [|lia].
  reflexivity.
Qed.

Lemma ReadAhead_exhausted (sr : streamReader) :
  source sr = [] ->
  ReadAhead sr =
  ({| source := []; latestLine := []; isEOF := true;
      maxLineLength := maxLineLength sr |}, ([], Some io_EOF)).
Proof. intros Hs. unfold ReadAhead. now rewrite Hs. Qed.

Lemma Errors_LimitedAdd (errorsLimit : nat) (r : Result) (e : error) :
  Errors (LimitedAdd errorsLimit r e) =
  Errors r ++ (if (length (Errors r) <? errorsLimit)%nat then [e] else []).
Proof.
  unfold LimitedAdd. destruct (length (Errors r) <? errorsLimit)%nat; simpl.
  - reflexivity.
  - now rewrite app_nil_r.
Qed.

Lemma Accepted_LimitedAdd (errorsLimit : nat) (r : Result) (e : error) :
  Accepted (LimitedAdd errorsLimit r e) = Accepted r.
Proof. unfold LimitedAdd. now destruct (length (Errors r) <? errorsLimit)%nat. Qed.

Section BatchLoop.

Context {Fields LabelValue NumericLabelValue : Type}.
Variable errorsLimit : nat.
Variable decoders : Decoders Fields LabelValue NumericLabelValue.
Variable m : Z.
Variable recorded : error -> Prop.

Abbreviation State := (state Fields LabelValue NumericLabelValue).
Abbreviation Event := (APMEvent Fields).

Abbreviation progress := (batch_progress decoders m recorded errorsLimit).

Ltac split_progress :=
  unfold batch_progress;
  cbn [reader batch result heap source maxLineLength];
  split; [|split; [|split; [|split; [|split]]]].

Ltac nothing_appended :=
  exists []; split; [now rewrite app_nil_r | simpl; lia].

Ltac nothing_added :=
  exists []; split; [now rewrite app_nil_r|];
  split; [constructor | simpl; lia].

Ltac one_added :=
  eexists; split; [apply Errors_LimitedAdd|];
  rewrite Errors_LimitedAdd, length_app;
  match goal with
  | |- context [(?a <? ?b)%nat] => destruct (Nat.ltb_spec a b)
  end;
  cbn [length];
  (split; [first [solve [constructor] | constructor; [assumption | constructor]] | lia]).

Lemma progress_refl (s : State) (v b : nat) :
  clean (source (reader s)) -> maxLineLength (reader s) = m ->
  tally decoders m recorded (lines_of (reader s)) v b ->
  progress s s v b v b.
Proof.
  intros Hc Hm Ht. split_progress; try assumption.
  - nothing_appended.
  - nothing_added.
  - reflexivity.
Qed.

Lemma progress_trans (s1 s2 s3 : State) (v1 b1 v2 b2 v3 b3 : nat) :
  progress s1 s2 v1 b1 v2 b2 -> progress s2 s3 v2 b2 v3 b3 ->
  progress s1 s3 v1 b1 v3 b3.
Proof.
  intros (_ & _ & _ & (ap1 & Hb1 & Hl1) & (ad1 & He1 & Hf1 & Hn1) & Ha1)
         (Hc & Hm & Ht & (ap2 & Hb2 & Hl2) & (ad2 & He2 & Hf2 & Hn2) & Ha2).
  split_progress; try assumption.
  - exists (ap1 ++ ap2). rewrite Hb2, Hb1, <- app_assoc, length_app.
    split; [reflexivity | lia].
  - exists (ad1 ++ ad2).
    split; [now rewrite He2, He1, <- app_assoc|].
    split; [now apply Forall_app|].
    apply (f_equal (@length _)) in He1, He2.
    rewrite !length_app in *. lia.
  - congruence.
Qed.

Lemma readBatch_iter_tally (baseEvent : Event) (s : State) (v b : nat) :
  isEOF (reader s) = false ->
  clean (source (reader s)) ->
  maxLineLength (reader s) = m ->
  tally decoders m recorded (lines_of (reader s)) v b ->
  exists s' v' b',
    readBatch_iter errorsLimit decoders baseEvent s = Ok (s', Next) /\
    progress s s' v b v' b' /\
    (reads_left (reader s') < reads_left (reader s))%nat.
Proof.
  intros Heof Hclean Hm Ht. subst m.
  assert (Hleft : forall s' : State,
             reader s' = fst (ReadAhead (reader s)) ->
             (reads_left (reader s') < reads_left (reader s))%nat).
  { intros s' ->. now apply ReadAhead_reads_left. }
  unfold lines_of in Ht. rewrite Heof in Ht.
  destruct (source (reader s)) as [|[line cond] rest] eqn:Hsrc.
  - (* the source is used up: end of input *)
    simpl in Ht. inversion Ht; subst.
    pose proof (ReadAhead_exhausted (reader s) Hsrc) as HR.
    eexists _, 0%nat, 0%nat. split; [|split].
    + apply (readBatch_iter_blank _ _ _ _ _ _ HR). now right.
    + split_progress.
      * constructor.
      * reflexivity.
      * constructor.
      * nothing_appended.
      * nothing_added.
      * reflexivity.
    + apply Hleft. simpl. now rewrite HR.
  - apply clean_inv in Hclean. destruct Hclean as [Hrest Hcond].
    assert (Hcond' : cond = None \/ cond = Some io_EOF)
      by (destruct Hcond as [-> | [-> _]]; auto).
    assert (Hlines : forall l,
               lines_of {| source := rest; latestLine := l;
                           isEOF := match cond with
                                    | Some e => is_EOF e
                                    | None => false
                                    end;
                           maxLineLength := maxLineLength (reader s) |}
               = map fst rest).
    { intros l. unfold lines_of. simpl.
      destruct Hcond as [-> | [-> ->]]; reflexivity. }
    simpl in Ht.
    inversion Ht as [ | ? ? ? ? Hvalid Hrestt | ? ? ? ? Hbad Hrestt | ? ? ? Hm0 Hrestt ];
      subst.
    + (* a valid document *)
      destruct Hvalid as (Hne & Hfit & Hdec).
      pose proof (ReadAhead_fits _ _ _ _ Hsrc Hfit) as HR.
      destruct (copyEvent baseEvent (heap s)) as [cp h0] eqn:Hcp.
      destruct (Hdec cp h0) as (tok & ev & h' & Hid & Hde).
      pose proof (readBatch_iter_document errorsLimit decoders baseEvent s
                    _ _ _ _ HR Hcond' Hne Hid) as Hit.
      rewrite Hcp in Hit. cbn [LatestLine latestLine] in Hit.
      rewrite Hde in Hit.
      eexists _, _, _. split; [exact Hit|]. split.
      * split_progress.
        -- assumption.
        -- reflexivity.
        -- rewrite Hlines. eassumption.
        -- exists [ev]. split; [reflexivity | simpl; lia].
        -- nothing_added.
        -- reflexivity.
      * apply Hleft. cbn [reader]. now rewrite HR.
    + (* a failing document *)
      destruct Hbad as [[Hbig HQ] | (Hne & Hfit & Hdec)].
      * pose proof (ReadAhead_oversize _ _ _ _ Hsrc Hbig) as HR.
        pose proof (readBatch_iter_read_error errorsLimit decoders baseEvent s
                      _ _ _ _ HR eq_refl eq_refl) as Hit.
        cbn [errors_As_InvalidInputError LatestLine latestLine] in Hit.
        eexists _, _, _. split; [exact Hit|]. split.
        -- split_progress.
           ++ assumption.
           ++ reflexivity.
           ++ unfold lines_of. cbn [isEOF source]. eassumption.
           ++ nothing_appended.
           ++ one_added.
           ++ apply Accepted_LimitedAdd.
        -- apply Hleft. cbn [reader]. now rewrite HR.
      * pose proof (ReadAhead_fits _ _ _ _ Hsrc Hfit) as HR.
        destruct (copyEvent baseEvent (heap s)) as [cp h0] eqn:Hcp.
        destruct (Hdec cp h0) as (tok & h' & e & Hid & Hde & He & HQ).
        pose proof (readBatch_iter_document errorsLimit decoders baseEvent s
                      _ _ _ _ HR Hcond' Hne Hid) as Hit.
        rewrite Hcp in Hit. cbn [LatestLine latestLine] in Hit.
        rewrite Hde, He in Hit. cbn [negb] in Hit.
        eexists _, _, _. split; [exact Hit|]. split.
        -- split_progress.
           ++ assumption.
           ++ reflexivity.
           ++ rewrite Hlines. eassumption.
           ++ nothing_appended.
           ++ one_added.
           ++ apply Accepted_LimitedAdd.
        -- apply Hleft. cbn [reader]. now rewrite HR.
    + (* a blank line *)
      assert (Hfit : fits (maxLineLength (reader s)) []).
      { unfold fits. simpl. lia. }
      pose proof (ReadAhead_fits _ _ _ _ Hsrc Hfit) as HR.
      pose proof (readBatch_iter_blank errorsLimit decoders baseEvent s
                    _ _ HR Hcond') as Hit.
      eexists _, _, _. split; [exact Hit|]. split.
      * split_progress.
        -- assumption.
        -- reflexivity.
        -- rewrite Hlines. eassumption.
        -- nothing_appended.
        -- nothing_added.
        -- reflexivity.
      * apply Hleft. cbn [reader]. now rewrite HR.
Qed.

Lemma readBatch_loop_tally (iters : nat) (baseEvent : Event) :
  forall (s : State) (v b : nat),
  clean (source (reader s)) ->
  maxLineLength (reader s) = m ->
  tally decoders m recorded (lines_of (reader s)) v b ->
  exists s' v' b',
    readBatch_loop errorsLimit decoders iters baseEvent s = Ok (s', Next) /\
    progress s s' v b v' b' /\
    (reads_left (reader s') <= reads_left (reader s))%nat /\
    ((0 < iters)%nat -> isEOF (reader s) = false ->
     (reads_left (reader s') < reads_left (reader s))%nat).
Proof.
  induction iters as [|iters IH]; intros s v b Hclean Hm Ht.
  - exists s, v, b. cbn [readBatch_loop].
    split; [reflexivity|]. split; [now apply progress_refl|].
    split; [lia|]. intros H. lia.
  - cbn [readBatch_loop]. unfold IsEOF.
    destruct (isEOF (reader s)) eqn:Heof.
    + exists s, v, b.
      split; [reflexivity|]. split; [now apply progress_refl|].
      split; [lia|]. intros _ H. discriminate H.
    + destruct (readBatch_iter_tally baseEvent s v b Heof Hclean Hm Ht)
        as (s1 & v1 & b1 & Hit & Hp1 & Hlt).
      rewrite Hit. cbn [go_bind].
      pose proof Hp1 as (Hc1 & Hm1 & Ht1 & _).
      destruct (IH s1 v1 b1 Hc1 Hm1 Ht1) as (s' & v' & b' & Hloop & Hp2 & Hle & _).
      exists s', v', b'.
      split; [exact Hloop|].
      split; [exact (progress_trans s s1 s' v b v1 b1 v' b' Hp1 Hp2)|].
      split; [lia|]. intros _ _. lia.
Qed.

(** [readBatch] on a clean source: the count is the number of valid
    documents consumed, and the signal tells whether the reader is at end
    of input. *)
Lemma readBatch_tally (baseEvent : Event) (batchSize : Z) (s : State) (v b : nat) :
  clean (source (reader s)) ->
  maxLineLength (reader s) = m ->
  tally decoders m recorded (lines_of (reader s)) v b ->
  exists s' v' b',
    readBatch errorsLimit decoders baseEvent batchSize s =
    Ok (Z.of_nat v - Z.of_nat v',
        if isEOF (reader s') then Some io_EOF else None, s') /\
    progress s s' v b v' b' /\
    (reads_left (reader s') <= reads_left (reader s))%nat /\
    (1 <= batchSize -> isEOF (reader s) = false ->
     (reads_left (reader s') < reads_left (reader s))%nat).
Proof.
  intros Hclean Hm Ht.
  destruct (readBatch_loop_tally (Z.to_nat batchSize) baseEvent s v b Hclean Hm Ht)
    as (s' & v' & b' & Hloop & Hp & Hle & Hlt).
  exists s', v', b'. unfold readBatch. rewrite Hloop. cbn [go_bind].
  split; [|split; [exact Hp | split; [exact Hle | intros H1 H2; apply Hlt; [lia | exact H2]]]].
  destruct Hp as (_ & _ & _ & (ap & Hb & Hl) & _).
  rewrite Hb, length_app. unfold IsEOF.
  replace (Z.of_nat (length (batch s) + length ap) - Z.of_nat (length (batch s)))
    with (Z.of_nat v - Z.of_nat v') by lia.
  now destruct (isEOF (reader s')).
Qed.

End BatchLoop.

(** ** The stream loop on a source without read failures *)

Section Orchestration.

Context {Fields LabelValue NumericLabelValue Downstream : Type}.
Variable errorsLimit : nat.
Variable decoders : Decoders Fields LabelValue NumericLabelValue.
Variable m : Z.
Variable recorded : error -> Prop.
Variable processor : BatchProcessor Fields LabelValue NumericLabelValue Downstream.
Variable baseEvent : APMEvent Fields.
Variable batchSize : Z.

Abbreviation Run := (run LabelValue NumericLabelValue Downstream).

Hypothesis processor_forwards : forwards processor.
Hypothesis batchSize_positive : 1 <= batchSize.

Lemma tally_nil_inv (v b : nat) : tally decoders m recorded [] v b -> v = 0%nat /\ b = 0%nat.
Proof. now inversion 1. Qed.

Lemma HandleStream_loop_tally (n : nat) :
  forall (st : Run) (v b : nat),
  (reads_left (run_reader st) <= n)%nat ->
  clean (source (run_reader st)) ->
  maxLineLength (run_reader st) = m ->
  tally decoders m recorded (lines_of (run_reader st)) v b ->
  exists st' added,
    (forall fuel, (n < fuel)%nat ->
       HandleStream_loop errorsLimit decoders fuel baseEvent batchSize processor st
       = Done None st') /\
    Accepted (run_result st') = Accepted (run_result st) + Z.of_nat v /\
    Errors (run_result st') = Errors (run_result st) ++ added /\
    Forall recorded added /\
    length added = Nat.min b (errorsLimit - length (Errors (run_result st))).
Proof.
  induction n as [|n IH]; intros st v b Hn Hclean Hm Ht.
  all: destruct (readBatch_tally errorsLimit decoders m recorded baseEvent batchSize
                   {| reader := run_reader st; batch := [];
                      result := run_result st; heap := run_heap st |}
                   v b Hclean Hm Ht)
         as (s1 & v1 & b1 & Hrb & Hp & Hle & Hlt).
  all: cbn [reader batch result heap] in *.
  all: pose proof Hp as (Hc1 & Hm1 & Ht1 & (ap & Hap & Hlen) & (ad & Had & Hfa & Hnum) & Hacc).
  all: cbn [reader batch result heap app] in *.
  all: destruct (processor_forwards (run_downstream st) (batch s1) (heap s1))
         as (d' & b' & h' & Hproc & Hblen).
  all: assert (Hiter :
    HandleStream_iter errorsLimit decoders baseEvent batchSize processor st =
    Ok (if Z.of_nat v - Z.of_nat v1 >? 0
        then {| run_reader := reader s1;
                run_result := AddAccepted (result s1) (Z.of_nat (length b'));
                run_heap := h'; run_downstream := d' |}
        else {| run_reader := reader s1; run_result := result s1;
                run_heap := heap s1; run_downstream := run_downstream st |},
        if isEOF (reader s1) then Return None else Next)).
  1,3: unfold HandleStream_iter; rewrite Hrb; cbn [go_bind];
       destruct (Z.of_nat v - Z.of_nat v1 >? 0);
       [rewrite Hproc|]; now destruct (isEOF (reader s1)).
  all: set (st1 := if Z.of_nat v - Z.of_nat v1 >? 0
                   then {| run_reader := reader s1;
                           run_result := AddAccepted (result s1) (Z.of_nat (length b'));
                           run_heap := h'; run_downstream := d' |}
                   else {| run_reader := reader s1; run_result := result s1;
                           run_heap := heap s1;
                           run_downstream := run_downstream st |}) in *.
  all: assert (Hrd : run_reader st1 = reader s1)
         by (unfold st1; now destruct (Z.of_nat v - Z.of_nat v1 >? 0)).
  all: assert (Hacc1 : Accepted (run_result st1)
                       = Accepted (run_result st) + Z.of_nat v - Z.of_nat v1).
  1,3: unfold st1; destruct (Z.gtb_spec (Z.of_nat v - Z.of_nat v1) 0);
       cbn [run_result AddAccepted Accepted]; rewrite Hacc;
       rewrite ?Hblen, ?Hap; lia.
  all: assert (Herr1 : Errors (run_result st1) = Errors (result s1))
         by (unfold st1; now destruct (Z.of_nat v - Z.of_nat v1 >? 0)).
  all: destruct (isEOF (reader s1)) eqn:Heof1.
  1,3: unfold lines_of in Ht1; rewrite Heof1 in Ht1;
       apply tally_nil_inv in Ht1; destruct Ht1 as [-> ->];
       exists st1, ad;
       (split; [intros [|fuel] Hf; [lia|]; cbn [HandleStream_loop]; now rewrite Hiter|]);
       (split; [lia|]); (split; [congruence|]); (split; [assumption|]);
       rewrite Nat.min_0_l in Hnum; lia.
  - (* no read left, yet not at end of input: impossible *)
    exfalso. unfold reads_left in Hle, Hn. rewrite Heof1 in Hle.
    destruct (isEOF (run_reader st)); lia.
  - assert (Heof0 : isEOF (run_reader st) = false).
    { destruct (isEOF (run_reader st)) eqn:E; [|reflexivity].
      unfold reads_left in Hle. rewrite E, Heof1 in Hle. lia. }
    specialize (Hlt batchSize_positive Heof0).
    destruct (IH st1 v1 b1) as (st' & ad2 & Hrun & Hacc2 & Herr2 & Hfa2 & Hnum2).
    + rewrite Hrd. lia.
    + now rewrite Hrd.
    + now rewrite Hrd.
    + now rewrite Hrd.
    + exists st', (ad ++ ad2).
      split.
      { intros [|fuel] Hf; [lia|]. cbn [HandleStream_loop]. rewrite Hiter.
        apply Hrun. lia. }
      split; [lia|].
      split; [rewrite Herr2, Herr1, Had; now rewrite app_assoc|].
      split; [now apply Forall_app|].
      rewrite length_app, Hnum2, Herr1. lia.
Qed.

End Orchestration.

(** ** Failing documents *)

Section FailingDocuments.

Context {Fields LabelValue NumericLabelValue : Type}.
Variable errorsLimit : nat.
Variable decoders : Decoders Fields LabelValue NumericLabelValue.
Variable recorded : error -> Prop.

(** An oversize line is recorded as a too-large error and the loop goes
    on. *)
Lemma readBatch_iter_oversize (baseEvent : APMEvent Fields)
    (s : state Fields LabelValue NumericLabelValue) line cond rest :
  source (reader s) = (line, cond) :: rest ->
  Z.of_nat (length line) > maxLineLength (reader s) ->
  readBatch_iter errorsLimit decoders baseEvent s =
  Ok ({| reader := {| source := rest;
                      latestLine := firstn (Z.to_nat (maxLineLength (reader s))) line;
                      isEOF := false;
                      maxLineLength := maxLineLength (reader s) |};
         batch := batch s;
         result :=
           LimitedAdd errorsLimit (result s)
             (InvalidInputError true "event exceeded the permitted size."
                (string_of_bytes
                   (firstn (Z.to_nat (maxLineLength (reader s))) line)));
         heap := heap s |}, Next).
Proof.
  intros Hsrc Hbig.
  pose proof (ReadAhead_oversize _ _ _ _ Hsrc Hbig) as HR.
  now rewrite (readBatch_iter_read_error errorsLimit decoders baseEvent s
                 _ _ _ _ HR eq_refl eq_refl).
Qed.

(** A failing document is recorded and the loop goes on. *)
Lemma readBatch_iter_bad_doc (baseEvent : APMEvent Fields)
    (s : state Fields LabelValue NumericLabelValue) line cond rest :
  source (reader s) = (line, cond) :: rest ->
  cond = None \/ cond = Some io_EOF ->
  bad_doc decoders (maxLineLength (reader s)) recorded line ->
  exists rd e h',
    readBatch_iter errorsLimit decoders baseEvent s =
    Ok ({| reader := rd; batch := batch s;
           result := LimitedAdd errorsLimit (result s) e;
           heap := h' |}, Next) /\
    source rd = rest /\ is_InvalidInputError e = true /\ recorded e.
Proof.
  intros Hsrc Hcond [[Hbig HQ] | (Hne & Hfit & Hdec)].
  - eexists _, _, _.
    split; [exact (readBatch_iter_oversize baseEvent s line cond rest Hsrc Hbig)|].
    split; [reflexivity|]. split; [reflexivity | exact HQ].
  - pose proof (ReadAhead_fits _ _ _ _ Hsrc Hfit) as HR.
    destruct (copyEvent baseEvent (heap s)) as [cp h0] eqn:Hcp.
    destruct (Hdec cp h0) as (tok & h' & e & Hid & Hde & He & HQ).
    pose proof (readBatch_iter_document errorsLimit decoders baseEvent s
                  _ _ _ _ HR Hcond Hne Hid) as Hit.
    rewrite Hcp in Hit. cbn [LatestLine latestLine] in Hit.
    rewrite Hde, He in Hit. cbn [negb] in Hit. rewrite app_nil_r in Hit.
    eexists _, _, _. split; [exact Hit|].
    split; [reflexivity|]. split; [reflexivity | exact HQ].
Qed.

End FailingDocuments.

(** ** Streams with failing documents *)

Lemma reads_left_bound (sr : streamReader) :
  (reads_left sr <= length (source sr) + 1)%nat.
Proof. unfold reads_left. destruct (isEOF sr); lia. Qed.

(** C1: a document whose failure is an invalid-input error (malformed,
    oversize, of unrecognized kind) is recorded into the capped error list
    of the result and the batch loop goes on with the next document; a
    stream of three valid documents and one failing document, in any
    position, is handled to the end: [HandleStream] returns nil, three
    events are accepted and exactly one error is recorded. *)
Theorem C1_one_bad_document_does_not_abort
    {Fields LabelValue NumericLabelValue Downstream : Type}
    (errorsLimit : nat) (decoders : Decoders Fields LabelValue NumericLabelValue) :
  (forall (baseEvent : APMEvent Fields)
          (s : state Fields LabelValue NumericLabelValue) line cond rest,
      source (reader s) = (line, cond) :: rest ->
      cond = None \/ cond = Some io_EOF ->
      bad_doc decoders (maxLineLength (reader s))
        (fun e => is_InvalidInputError e = true) line ->
      exists rd e h',
        readBatch_iter errorsLimit decoders baseEvent s =
        Ok ({| reader := rd; batch := batch s;
               result := LimitedAdd errorsLimit (result s) e;
               heap := h' |}, Next) /\
        source rd = rest /\ is_InvalidInputError e = true) /\
  (forall (baseEvent : APMEvent Fields)
          (s : state Fields LabelValue NumericLabelValue) rd body e e',
      ReadAhead (reader s) = (rd, (body, Some e)) ->
      is_EOF e = false ->
      wrapError rd (Some e) = Some e' ->
      errors_As_InvalidInputError e' = true ->
      readBatch_iter errorsLimit decoders baseEvent s =
      Ok ({| reader := rd; batch := batch s;
             result := LimitedAdd errorsLimit (result s) e';
             heap := heap s |}, Next)) /\
  (forall (p : Processor Fields LabelValue NumericLabelValue)
          (processor : BatchProcessor Fields LabelValue NumericLabelValue Downstream)
          (baseEvent : APMEvent Fields) (r : list (list byte * option error))
          (batchSize : Z) (h : store LabelValue NumericLabelValue) (d : Downstream)
          sr base1 h1,
      (1 <= errorsLimit)%nat ->
      1 <= batchSize ->
      forwards processor ->
      decodeMetadata p (getStreamReader p r) baseEvent h = (sr, base1, h1, None) ->
      maxLineLength sr = MaxEventSize p ->
      clean (source sr) ->
      tally decoders (MaxEventSize p) (fun e => is_InvalidInputError e = true)
        (lines_of sr) 3 1 ->
      exists st e,
        (forall fuel, (length (source sr) + 1 < fuel)%nat ->
           HandleStream errorsLimit decoders fuel p SlotAcquired baseEvent r
             batchSize processor {| Accepted := 0; Errors := [] |} h d
           = Done None st) /\
        Accepted (run_result st) = 3 /\
        Errors (run_result st) = [e] /\
        is_InvalidInputError e = true).
Proof.
  split; [|split].
  - intros baseEvent s line cond rest Hsrc Hcond Hbad.
    destruct (readBatch_iter_bad_doc errorsLimit decoders _ baseEvent s
                line cond rest Hsrc Hcond Hbad) as (rd & e & h' & Hit & Hrd & He & _).
    now exists rd, e, h'.
  - intros baseEvent s rd body e e' HR He Hw Has.
    now rewrite (readBatch_iter_read_error errorsLimit decoders baseEvent s
                   rd body e e' HR He Hw), Has.
  - intros p processor baseEvent r batchSize h d sr base1 h1
           Hlimit Hsize Hfwd Hmeta Hmax Hclean Htally.
    destruct (HandleStream_loop_tally errorsLimit decoders (MaxEventSize p)
                (fun e => is_InvalidInputError e = true) processor base1 batchSize
                Hfwd Hsize (length (source sr) + 1)
                {| run_reader := sr;
                   run_result := {| Accepted := 0; Errors := [] |};
                   run_heap := h1; run_downstream := d |} 3 1
                (reads_left_bound sr) Hclean Hmax Htally)
      as (st & added & Hrun & Hacc & Herr & Hall & Hlen).
    cbn [run_result Accepted Errors length app] in *.
    destruct added as [|e [|e2 added]]; cbn [length] in Hlen; try lia.
    exists st, e. split; [|split; [lia | split; [exact Herr | now inversion Hall]]].
    intros fuel Hfuel. unfold HandleStream, readMetadata. rewrite Hmeta.
    now apply Hrun.
Qed.

(** Facts about the sample documents. *)
Ltac sample_fits := unfold fits; vm_compute; discriminate.

Ltac sample_valid :=
  split; [discriminate|];
  split; [sample_fits|];
  intros input h; eexists _, _, _;
  split; [vm_compute; reflexivity | reflexivity].

Ltac sample_bad :=
  right; split; [discriminate|];
  split; [sample_fits|];
  intros input h; eexists _, _, _;
  split; [vm_compute; reflexivity|];
  split; [reflexivity|];
  split; reflexivity.

Lemma sample_tally_3_1 :
  tally Sample.decoders 32 (fun e => is_InvalidInputError e = true)
    [Sample.good1; Sample.malformed; Sample.good2; Sample.good3] 3 1.
Proof.
  apply tally_valid; [sample_valid|].
  apply tally_bad; [sample_bad|].
  apply tally_valid; [sample_valid|].
  apply tally_valid; [sample_valid|].
  apply tally_nil.
Qed.

Lemma sample_clean (ls : list (list byte)) : clean (Sample.lines ls).
Proof. induction ls; simpl; constructor; assumption. Qed.

Lemma sample_keep_forwards : forwards Sample.keep.
Proof. intros d b h. now exists (d ++ [b]), b, h. Qed.

Lemma C1_one_bad_document_does_not_abort_witness :
  exists st e,
    (forall fuel, (5 < fuel)%nat ->
       HandleStream 5 Sample.decoders fuel Sample.processor SlotAcquired Sample.base
         (Sample.lines [Sample.meta; Sample.good1; Sample.malformed;
                        Sample.good2; Sample.good3])
         2 Sample.keep {| Accepted := 0; Errors := [] |} Sample.baseStore []
       = Done None st) /\
    Accepted (run_result st) = 3 /\
    Errors (run_result st) = [e] /\
    is_InvalidInputError e = true.
Proof.
  apply (proj2 (proj2 (C1_one_bad_document_does_not_abort 5 Sample.decoders))
           Sample.processor Sample.keep Sample.base
           (Sample.lines [Sample.meta; Sample.good1; Sample.malformed;
                          Sample.good2; Sample.good3])
           2 Sample.baseStore []
           {| source := Sample.lines [Sample.good1; Sample.malformed;
                                      Sample.good2; Sample.good3];
              latestLine := Sample.meta; isEOF := false; maxLineLength := 32 |}
           {| Labels := Some 1%positive; NumericLabels := None;
              OtherFields := string_of_bytes Sample.meta |}
           Sample.baseStore).
  - lia.
  - lia.
  - exact sample_keep_forwards.
  - reflexivity.
  - reflexivity.
  - apply sample_clean.
  - exact sample_tally_3_1.
Defined.

Lemma tally_mono {Fields LabelValue NumericLabelValue : Type}
    (decoders : Decoders Fields LabelValue NumericLabelValue) (m : Z)
    (Q Q' : error -> Prop) (ls : list (list byte)) (v b : nat) :
  (forall e, Q e -> Q' e) ->
  tally decoders m Q ls v b -> tally decoders m Q' ls v b.
Proof.
  intros HQ. induction 1 as [ | line ls v b Hv _ IH | line ls v b Hb _ IH | ls v b Hm _ IH ].
  - constructor.
  - now apply tally_valid.
  - apply tally_bad; [|exact IH].
    destruct Hb as [[Hbig Hq] | (Hne & Hfit & Hdec)].
    + left. split; [exact Hbig | now apply HQ].
    + right. split; [exact Hne|]. split; [exact Hfit|].
      intros input h. destruct (Hdec input h) as (tok & h' & e & H1 & H2 & H3 & H4).
      exists tok, h', e. repeat split; try assumption. now apply HQ.
  - now apply tally_blank.
Qed.

(** C7: a line over the maximum size is wrapped by [wrapError] into an
    invalid-input error with the too-large flag and the message
    "event exceeded the permitted size."; in the batch loop it is recorded
    in the result and the loop goes on instead of returning; and the valid
    documents that follow it in the stream are decoded and accepted. *)
Theorem C7_oversize_document_is_recorded
    {Fields LabelValue NumericLabelValue Downstream : Type}
    (errorsLimit : nat) (decoders : Decoders Fields LabelValue NumericLabelValue) :
  (forall (sr : streamReader) (e : error),
      e = ErrLineTooLong \/ e = DecoderError ErrLineTooLong ->
      wrapError sr (Some e) =
      Some (InvalidInputError true "event exceeded the permitted size."
              (string_of_bytes (LatestLine sr)))) /\
  (forall (baseEvent : APMEvent Fields)
          (s : state Fields LabelValue NumericLabelValue) line cond rest,
      source (reader s) = (line, cond) :: rest ->
      Z.of_nat (length line) > maxLineLength (reader s) ->
      exists rd body,
        ReadAhead (reader s) = (rd, (body, Some ErrLineTooLong)) /\
        source rd = rest /\
        readBatch_iter errorsLimit decoders baseEvent s =
        Ok ({| reader := rd; batch := batch s;
               result :=
                 LimitedAdd errorsLimit (result s)
                   (InvalidInputError true "event exceeded the permitted size."
                      (string_of_bytes (LatestLine rd)));
               heap := heap s |}, Next)) /\
  (forall (p : Processor Fields LabelValue NumericLabelValue)
          (processor : BatchProcessor Fields LabelValue NumericLabelValue Downstream)
          (baseEvent : APMEvent Fields) (r : list (list byte * option error))
          (batchSize : Z) (h : store LabelValue NumericLabelValue) (d : Downstream)
          sr base1 h1 line cond rest (v : nat),
      (1 <= errorsLimit)%nat ->
      1 <= batchSize ->
      forwards processor ->
      decodeMetadata p (getStreamReader p r) baseEvent h = (sr, base1, h1, None) ->
      maxLineLength sr = MaxEventSize p ->
      isEOF sr = false ->
      clean (source sr) ->
      source sr = (line, cond) :: rest ->
      Z.of_nat (length line) > MaxEventSize p ->
      tally decoders (MaxEventSize p) (fun _ => False) (map fst rest) v 0 ->
      exists st doc,
        (forall fuel, (length (source sr) + 1 < fuel)%nat ->
           HandleStream errorsLimit decoders fuel p SlotAcquired baseEvent r
             batchSize processor {| Accepted := 0; Errors := [] |} h d
           = Done None st) /\
        Accepted (run_result st) = Z.of_nat v /\
        Errors (run_result st) =
        [InvalidInputError true "event exceeded the permitted size." doc]).
Proof.
  split; [exact wrapError_too_long|]. split.
  - intros baseEvent s line cond rest Hsrc Hbig.
    eexists _, _. split; [now apply (ReadAhead_oversize _ line cond rest)|].
    split; [reflexivity|].
    now apply (readBatch_iter_oversize errorsLimit decoders baseEvent s line cond rest).
  - intros p processor baseEvent r batchSize h d sr base1 h1 line cond rest v
           Hlimit Hsize Hfwd Hmeta Hmax Heof Hclean Hsrc Hbig Htally.
    set (too_large := fun e =>
           exists doc,
             e = InvalidInputError true "event exceeded the permitted size." doc).
    assert (Hall : tally decoders (MaxEventSize p) too_large (lines_of sr) v 1).
    { unfold lines_of. rewrite Heof, Hsrc. cbn [map fst].
      apply tally_bad.
      - left. split; [exact Hbig | now eexists].
      - apply (tally_mono decoders (MaxEventSize p) (fun _ => False));
          [intros e [] | exact Htally]. }
    destruct (HandleStream_loop_tally errorsLimit decoders (MaxEventSize p)
                too_large processor base1 batchSize
                Hfwd Hsize (length (source sr) + 1)
                {| run_reader := sr;
                   run_result := {| Accepted := 0; Errors := [] |};
                   run_heap := h1; run_downstream := d |} v 1
                (reads_left_bound sr) Hclean Hmax Hall)
      as (st & added & Hrun & Hacc & Herr & Hfa & Hlen).
    cbn [run_result Accepted Errors length app] in *.
    destruct added as [|e [|e2 added]]; cbn [length] in Hlen; try lia.
    inversion Hfa as [|? ? [doc ->] _]; subst.
    exists st, doc. split; [|split; [lia | exact Herr]].
    intros fuel Hfuel. unfold HandleStream, readMetadata. rewrite Hmeta.
    now apply Hrun.
Qed.

Lemma sample_tally_2_0 :
  tally Sample.decoders 32 (fun _ => False) [Sample.good1; Sample.good2] 2 0.
Proof.
  apply tally_valid; [sample_valid|].
  apply tally_valid; [sample_valid|].
  apply tally_nil.
Qed.

Lemma C7_oversize_document_is_recorded_witness :
  exists st doc,
    (forall fuel, (4 < fuel)%nat ->
       HandleStream 5 Sample.decoders fuel Sample.processor SlotAcquired Sample.base
         (Sample.lines [Sample.meta; Sample.oversize; Sample.good1; Sample.good2])
         2 Sample.keep {| Accepted := 0; Errors := [] |} Sample.baseStore []
       = Done None st) /\
    Accepted (run_result st) = 2 /\
    Errors (run_result st) =
    [InvalidInputError true "event exceeded the permitted size." doc].
Proof.
  apply (proj2 (proj2 (C7_oversize_document_is_recorded 5 Sample.decoders))
           Sample.processor Sample.keep Sample.base
           (Sample.lines [Sample.meta; Sample.oversize; Sample.good1; Sample.good2])
           2 Sample.baseStore []
           {| source := Sample.lines [Sample.oversize; Sample.good1; Sample.good2];
              latestLine := Sample.meta; isEOF := false; maxLineLength := 32 |}
           {| Labels := Some 1%positive; NumericLabels := None;
              OtherFields := string_of_bytes Sample.meta |}
           Sample.baseStore Sample.oversize None
           (Sample.lines [Sample.good1; Sample.good2]) 2%nat).
  - lia.
  - lia.
  - exact sample_keep_forwards.
  - reflexivity.
  - reflexivity.
  - reflexivity.
  - apply sample_clean.
  - reflexivity.
  - vm_compute. reflexivity.
  - exact sample_tally_2_0.
Defined.

(** What a run leaves behind, for the examples: the error returned, the
    result, and the documents of the batches handed downstream. *)
Example sample_stream_with_one_malformed_document :
  match HandleStream 5 Sample.decoders 6 Sample.processor SlotAcquired Sample.base
          (Sample.lines [Sample.meta; Sample.good1; Sample.malformed;
                         Sample.good2; Sample.good3])
          2 Sample.keep Sample.emptyResult Sample.baseStore [] with
  | Done ret st =>
      Some (ret, run_result st, map (map OtherFields) (run_downstream st))
  | _ => None
  end
  = Some (None,
          {| Accepted := 3;
             Errors := [InvalidInputError false "data read error"
                          "{'error':{'id':!}}"] |},
          [["{'transaction':{'id':1}}"];
           ["{'span':{'id':2}}"; "{'e':{'id':3}}"]]).
Proof. vm_compute. reflexivity. Qed.

Example sample_stream_with_blank_and_oversize_lines :
  match HandleStream 5 Sample.decoders 6 Sample.processor SlotAcquired Sample.base
          [(Sample.meta, None); ([], None); (Sample.oversize, None);
           ([], None); (Sample.good1, None); (Sample.good2, Some io_EOF)]
          10 Sample.keep Sample.emptyResult Sample.baseStore [] with
  | Done ret st =>
      Some (ret, run_result st, map (map OtherFields) (run_downstream st))
  | _ => None
  end
  = Some (None,
          {| Accepted := 2;
             Errors := [InvalidInputError true "event exceeded the permitted size."
                          "{'metricset':{'samples':{'a':1,'"] |},
          [["{'transaction':{'id':1}}"; "{'span':{'id':2}}"]]).
Proof. vm_compute. reflexivity. Qed.

Example sample_error_cap :
  match readBatch 2 Sample.decoders Sample.noLabels 10
          (Sample.state0 (Sample.lines [Sample.malformed; Sample.unknown;
                                        Sample.failing; Sample.good1])) with
  | Ok (n, sig, s) => Some (n, sig, length (Errors (result s)))
  | Panic => None
  end
  = Some (1, Some io_EOF, 2%nat).
Proof. vm_compute. reflexivity. Qed.

(** ** Unrecognized kinds *)

Section Unrecognized.

Context {Fields LabelValue NumericLabelValue : Type}.
Variable errorsLimit : nat.
Variable decoders : Decoders Fields LabelValue NumericLabelValue.

Lemma decodeEvent_unknown (tok : option (list byte)) (doc : list byte)
    (input : APMEvent Fields) (h : store LabelValue NumericLabelValue) :
  known_kind (eventType_string tok) = false ->
  decodeEvent decoders tok doc input h =
  ([], h, Some (errors_Wrap errUnrecognizedObject (eventType_string tok))).
Proof.
  unfold known_kind, decodeEvent. intros H.
  repeat (apply orb_false_elim in H; destruct H as [H ?]).
  repeat match goal with
         | E : String.eqb _ _ = false |- _ => rewrite E; clear E
         end.
  reflexivity.
Qed.

(** A document whose token is not one of the six kinds is recorded as an
    unrecognized object and the loop goes on. *)
Lemma readBatch_iter_unrecognized (baseEvent : APMEvent Fields)
    (s : state Fields LabelValue NumericLabelValue) line cond rest tok :
  source (reader s) = (line, cond) :: rest ->
  cond = None \/ cond = Some io_EOF ->
  line <> [] ->
  fits (maxLineLength (reader s)) line ->
  identifyEventType line = Ok tok ->
  known_kind (eventType_string tok) = false ->
  readBatch_iter errorsLimit decoders baseEvent s =
  Ok ({| reader := {| source := rest; latestLine := line;
                      isEOF := match cond with
                               | Some e => is_EOF e
                               | None => false
                               end;
                      maxLineLength := maxLineLength (reader s) |};
         batch := batch s;
         result :=
           LimitedAdd errorsLimit (result s)
             (InvalidInputError false
                (eventType_string tok ++ ": did not recognize object type")%string
                (string_of_bytes line));
         heap := snd (copyEvent baseEvent (heap s)) |}, Next).
Proof.
  intros Hsrc Hcond Hne Hfit Hid Hunk.
  pose proof (ReadAhead_fits _ _ _ _ Hsrc Hfit) as HR.
  rewrite (readBatch_iter_document errorsLimit decoders baseEvent s
             _ _ _ _ HR Hcond Hne Hid).
  destruct (copyEvent baseEvent (heap s)) as [cp h0].
  rewrite (decodeEvent_unknown _ _ _ _ Hunk).
  cbn [is_EOF errors_Wrap negb LatestLine latestLine snd Error errUnrecognizedObject].
  now rewrite app_nil_r.
Qed.

End Unrecognized.

Lemma no_quote_lacks (q : byte) (b : list byte) :
  is_quote q = true -> no_quote b -> lacks q b.
Proof.
  intros Hq. induction 1 as [|r b Hr _ IH]; constructor; [|exact IH].
  intros ->. congruence.
Qed.

(** C6: [identifyEventType] returns the bytes strictly between the first
    quote character of the document (double or single) and the next
    occurrence of that same character, and nil when no closing quote of
    that kind follows; so a root key classifies the same with either quote
    character; and a document whose token is none of [error], [metricset],
    [span], [transaction], [e], [x], the empty token included, is recorded
    as a per-document error "did not recognize object type", the loop
    going on. *)
Theorem C6_classifier_takes_first_quoted_token
    {Fields LabelValue NumericLabelValue : Type}
    (errorsLimit : nat) (decoders : Decoders Fields LabelValue NumericLabelValue) :
  (forall body,
      (no_quote body /\ identifyEventType body = Ok None) \/
      (exists pre q tail,
          body = pre ++ q :: tail /\ no_quote pre /\ is_quote q = true /\
          ((lacks q tail /\ identifyEventType body = Ok None) \/
           (exists tok rest,
               tail = tok ++ q :: rest /\ lacks q tok /\
               identifyEventType body = Ok (Some tok))))) /\
  (forall pre tok rest q,
      no_quote pre -> is_quote q = true -> lacks q tok ->
      identifyEventType (pre ++ q :: tok ++ q :: rest) = Ok (Some tok)) /\
  (forall pre tail q,
      no_quote pre -> is_quote q = true -> lacks q tail ->
      identifyEventType (pre ++ q :: tail) = Ok None) /\
  (forall pre tok rest rest',
      no_quote pre -> no_quote tok ->
      identifyEventType (pre ++ dquote :: tok ++ dquote :: rest) =
      identifyEventType (pre ++ squote :: tok ++ squote :: rest')) /\
  (forall (baseEvent : APMEvent Fields)
          (s : state Fields LabelValue NumericLabelValue) line cond rest tok,
      source (reader s) = (line, cond) :: rest ->
      cond = None \/ cond = Some io_EOF ->
      line <> [] ->
      fits (maxLineLength (reader s)) line ->
      identifyEventType line = Ok tok ->
      known_kind (eventType_string tok) = false ->
      readBatch_iter errorsLimit decoders baseEvent s =
      Ok ({| reader := {| source := rest; latestLine := line;
                          isEOF := match cond with
                                   | Some e => is_EOF e
                                   | None => false
                                   end;
                          maxLineLength := maxLineLength (reader s) |};
             batch := batch s;
             result :=
               LimitedAdd errorsLimit (result s)
                 (InvalidInputError false
                    (eventType_string tok ++ ": did not recognize object type")%string
                    (string_of_bytes line));
             heap := snd (copyEvent baseEvent (heap s)) |}, Next)).
Proof.
  split; [exact identifyEventType_cases|].
  split; [|split; [|split]].
  - intros pre tok rest q. apply identifyEventType_quoted.
  - intros pre tail q. apply identifyEventType_unclosed.
  - intros pre tok rest rest' Hpre Htok.
    rewrite (identifyEventType_quoted pre tok rest dquote Hpre eq_refl
               (no_quote_lacks dquote tok eq_refl Htok)).
    now rewrite (identifyEventType_quoted pre tok rest' squote Hpre eq_refl
                   (no_quote_lacks squote tok eq_refl Htok)).
  - intros baseEvent s line cond rest tok.
    apply readBatch_iter_unrecognized.
Qed.

Lemma C6_classifier_takes_first_quoted_token_witness :
  identifyEventType (Sample.bytes "{ 'span': {'id': 'a'}}")
  = Ok (Some (Sample.bytes "span")) /\
  readBatch_iter 5 Sample.decoders Sample.noLabels
    (Sample.state0 (Sample.lines [Sample.unknown; Sample.good1])) =
  Ok ({| reader := {| source := Sample.lines [Sample.good1];
                      latestLine := Sample.unknown; isEOF := false;
                      maxLineLength := 32 |};
         batch := [];
         result :=
           {| Accepted := 0;
              Errors := [InvalidInputError false
                           "log: did not recognize object type"
                           "{'log':{'id':5}}"] |};
         heap := Sample.baseStore |}, Next).
Proof.
  split.
  - apply (proj1 (proj2 (C6_classifier_takes_first_quoted_token 5 Sample.decoders))
             (Sample.bytes "{ ") (Sample.bytes "span") (Sample.bytes ": {'id': 'a'}}")
             squote).
    + repeat constructor.
    + reflexivity.
    + repeat constructor; discriminate.
  - apply (proj2 (proj2 (proj2 (proj2
             (C6_classifier_takes_first_quoted_token 5 Sample.decoders))))
             Sample.noLabels
             (Sample.state0 (Sample.lines [Sample.unknown; Sample.good1]))
             Sample.unknown None (Sample.lines [Sample.good1])
             (Some (Sample.bytes "log"))).
    + reflexivity.
    + now left.
    + discriminate.
    + sample_fits.
    + vm_compute. reflexivity.
    + reflexivity.
Defined.

(** C10: [identifyEventType] is total: it never panics on a slice bound,
    and on a document without any quote character it returns nil, the
    search for a closing quote running on the empty slice; such a document
    is then recorded as an unrecognized object and the loop goes on. *)
Theorem C10_classifier_is_total
    {Fields LabelValue NumericLabelValue : Type}
    (errorsLimit : nat) (decoders : Decoders Fields LabelValue NumericLabelValue) :
  (forall body, exists eventType, identifyEventType body = Ok eventType) /\
  (forall body, no_quote body ->
      scan_quote body body 0 = Ok (x00, []) /\
      IndexByte [] x00 = -1 /\
      identifyEventType body = Ok None) /\
  (forall (baseEvent : APMEvent Fields)
          (s : state Fields LabelValue NumericLabelValue) line cond rest,
      source (reader s) = (line, cond) :: rest ->
      cond = None \/ cond = Some io_EOF ->
      line <> [] ->
      fits (maxLineLength (reader s)) line ->
      no_quote line ->
      readBatch_iter errorsLimit decoders baseEvent s =
      Ok ({| reader := {| source := rest; latestLine := line;
                          isEOF := match cond with
                                   | Some e => is_EOF e
                                   | None => false
                                   end;
                          maxLineLength := maxLineLength (reader s) |};
             batch := batch s;
             result :=
               LimitedAdd errorsLimit (result s)
                 (InvalidInputError false ": did not recognize object type"
                    (string_of_bytes line));
             heap := snd (copyEvent baseEvent (heap s)) |}, Next)).
Proof.
  split; [exact identifyEventType_total|]. split.
  - intros body Hnq. split; [now apply scan_quote_none|].
    split; [reflexivity | now apply identifyEventType_no_quote].
  - intros baseEvent s line cond rest Hsrc Hcond Hne Hfit Hnq.
    now rewrite (readBatch_iter_unrecognized errorsLimit decoders baseEvent s
                   line cond rest None Hsrc Hcond Hne Hfit
                   (identifyEventType_no_quote line Hnq) eq_refl).
Qed.

Lemma C10_classifier_is_total_witness :
  identifyEventType (Sample.bytes "[1,2,3]") = Ok None /\
  readBatch_iter 5 Sample.decoders Sample.noLabels
    (Sample.state0 (Sample.lines [Sample.bytes "[1,2,3]"])) =
  Ok ({| reader := {| source := []; latestLine := Sample.bytes "[1,2,3]";
                      isEOF := false; maxLineLength := 32 |};
         batch := [];
         result :=
           {| Accepted := 0;
              Errors := [InvalidInputError false ": did not recognize object type"
                           "[1,2,3]"] |};
         heap := Sample.baseStore |}, Next).
Proof.
  assert (Hnq : no_quote (Sample.bytes "[1,2,3]")) by (repeat constructor).
  split.
  - exact (proj2 (proj2 (proj1 (proj2 (C10_classifier_is_total 5 Sample.decoders))
                            (Sample.bytes "[1,2,3]") Hnq))).
  - apply (proj2 (proj2 (C10_classifier_is_total 5 Sample.decoders))
             Sample.noLabels
             (Sample.state0 (Sample.lines [Sample.bytes "[1,2,3]"]))
             (Sample.bytes "[1,2,3]") None []).
    + reflexivity.
    + now left.
    + discriminate.
    + sample_fits.
    + exact Hnq.
Defined.

(** ** The metadata step *)

(** C5: a failure to decode the metadata line aborts the stream:
    [HandleStream] returns the error of [readMetadata] before the batch loop
    is entered, so the result is left as it was, with no event accepted and
    nothing handed downstream; the error is an invalid-input error, and when
    the input ends before any metadata line its message is
    "EOF while reading metadata". *)
Theorem C5_metadata_failure_aborts_stream
    {Fields LabelValue NumericLabelValue Downstream : Type}
    (errorsLimit : nat) (decoders : Decoders Fields LabelValue NumericLabelValue)
    (p : Processor Fields LabelValue NumericLabelValue)
    (processor : BatchProcessor Fields LabelValue NumericLabelValue Downstream)
    (baseEvent : APMEvent Fields) (r : list (list byte * option error))
    (batchSize : Z) (res : Result) (h : store LabelValue NumericLabelValue)
    (d : Downstream) sr out h' (e : error) (fuel : nat) :
  decodeMetadata p (getStreamReader p r) baseEvent h = (sr, out, h', Some e) ->
  exists err,
    readMetadata p (getStreamReader p r) baseEvent h = Ok (sr, out, h', Some err) /\
    HandleStream errorsLimit decoders fuel p SlotAcquired baseEvent r batchSize
      processor res h d
    = Done (Some err)
        {| run_reader := sr; run_result := res; run_heap := h';
           run_downstream := d |} /\
    is_InvalidInputError err = true /\
    (e = io_EOF ->
     err = InvalidInputError false "EOF while reading metadata"
             (string_of_bytes (LatestLine sr))).
Proof.
  intros Hmeta.
  assert (Hread : exists err,
             readMetadata p (getStreamReader p r) baseEvent h
             = Ok (sr, out, h', Some err) /\
             is_InvalidInputError err = true /\
             (e = io_EOF ->
              err = InvalidInputError false "EOF while reading metadata"
                      (string_of_bytes (LatestLine sr)))).
  { unfold readMetadata. rewrite Hmeta.
    destruct (wrapError_Some sr e) as (e' & Hw & He').
    rewrite Hw.
    destruct (is_EOF e') eqn:Heof.
    - eexists. split; [reflexivity|]. split; [reflexivity|]. reflexivity.
    - destruct (is_InvalidInputError e') eqn:Hinv.
      + exists e'. split; [reflexivity|]. split; [exact Hinv|].
        intros ->. simpl in Hw. injection Hw as <-. discriminate Heof.
      + eexists. split; [reflexivity|]. split; [reflexivity|].
        intros ->. simpl in Hw. injection Hw as <-. discriminate Heof. }
  destruct Hread as (err & Hread & Hinv & Heof).
  exists err. split; [exact Hread|]. split; [|split; assumption].
  unfold HandleStream. now rewrite Hread.
Qed.

Lemma C5_metadata_failure_aborts_stream_witness :
  HandleStream 5 Sample.decoders 0 Sample.processor SlotAcquired Sample.base []
    2 Sample.keep {| Accepted := 0; Errors := [] |} Sample.baseStore []
  = Done (Some (InvalidInputError false "EOF while reading metadata" ""))
      {| run_reader := {| source := []; latestLine := []; isEOF := true;
                          maxLineLength := 32 |};
         run_result := {| Accepted := 0; Errors := [] |};
         run_heap := Sample.baseStore; run_downstream := [] |}.
Proof.
  destruct (C5_metadata_failure_aborts_stream 5 Sample.decoders Sample.processor
              Sample.keep Sample.base [] 2 {| Accepted := 0; Errors := [] |}
              Sample.baseStore []
              {| source := []; latestLine := []; isEOF := true; maxLineLength := 32 |}
              Sample.base Sample.baseStore io_EOF 0 eq_refl)
    as (err & _ & Hrun & _ & Herr).
  rewrite Hrun, (Herr eq_refl). reflexivity.
Defined.

(** ** What every pass of the batch loop keeps *)

Lemma ReadAhead_source (sr : streamReader) :
  source (fst (ReadAhead sr)) = tl (source sr).
Proof.
  unfold ReadAhead. destruct (source sr) as [|[line cond] rest]; [reflexivity|].
  now destruct (Z.of_nat (length line) >? maxLineLength sr).
Qed.

Section Passes.

Context {Fields LabelValue NumericLabelValue : Type}.
Variable errorsLimit : nat.
Variable decoders : Decoders Fields LabelValue NumericLabelValue.

Lemma readBatch_iter_shape (baseEvent : APMEvent Fields)
    (s : state Fields LabelValue NumericLabelValue) :
  exists s' fl,
    readBatch_iter errorsLimit decoders baseEvent s = Ok (s', fl) /\
    reader s' = fst (ReadAhead (reader s)) /\
    Accepted (result s') = Accepted (result s) /\
    (exists appended, batch s' = batch s ++ appended) /\
    (forall err, fl = Return err ->
       terminal err /\ batch s' = batch s /\ result s' = result s /\
       heap s' = heap s).
Proof.
  unfold readBatch_iter.
  destruct (ReadAhead (reader s)) as [rd [body cond]]. cbn [fst].
  destruct cond as [e|].
  - destruct (is_EOF e) eqn:Heof; cbn [negb].
    + destruct (length body =? 0)%nat.
      * eexists _, _. split; [reflexivity|]. cbn [reader batch result heap].
        split; [reflexivity|]. split; [reflexivity|].
        split; [exists []; now rewrite app_nil_r | discriminate].
      * cbn [reader batch result heap].
        destruct (copyEvent baseEvent (heap s)) as [base h].
        destruct (identifyEventType_total body) as [tok ->]. cbn [go_bind].
        destruct (decodeEvent decoders tok (LatestLine rd) base h) as [[events h'] err].
        eexists _, _. split; [reflexivity|]. cbn [reader batch result heap].
        split; [reflexivity|].
        split; [destruct err as [e1|]; [destruct (is_EOF e1)|]; cbn [negb];
                rewrite ?Accepted_LimitedAdd; reflexivity|].
        split; [now exists events | discriminate].
    + destruct (wrapError_Some rd e) as (e' & Hw & _).
      pose proof (wrapError_not_EOF rd e e' Hw Heof) as Heof'.
      rewrite Hw.
      destruct (errors_As_InvalidInputError e') eqn:Has.
      * eexists _, _. split; [reflexivity|]. cbn [reader batch result heap].
        split; [reflexivity|]. split; [apply Accepted_LimitedAdd|].
        split; [exists []; now rewrite app_nil_r | discriminate].
      * eexists _, _. split; [reflexivity|]. cbn [reader batch result heap].
        split; [reflexivity|]. split; [reflexivity|].
        split; [exists []; now rewrite app_nil_r|].
        intros err [= <-]. split; [now exists e' | repeat split].
  - destruct (length body =? 0)%nat.
    + eexists _, _. split; [reflexivity|]. cbn [reader batch result heap].
      split; [reflexivity|]. split; [reflexivity|].
      split; [exists []; now rewrite app_nil_r | discriminate].
    + cbn [reader batch result heap].
      destruct (copyEvent baseEvent (heap s)) as [base h].
      destruct (identifyEventType_total body) as [tok ->]. cbn [go_bind].
      destruct (decodeEvent decoders tok (LatestLine rd) base h) as [[events h'] err].
      eexists _, _. split; [reflexivity|]. cbn [reader batch result heap].
      split; [reflexivity|].
      split; [destruct err as [e1|]; [destruct (is_EOF e1)|]; cbn [negb];
              rewrite ?Accepted_LimitedAdd; reflexivity|].
      split; [now exists events | discriminate].
Qed.

Lemma readBatch_loop_shape (iters : nat) (baseEvent : APMEvent Fields) :
  forall s : state Fields LabelValue NumericLabelValue,
  exists s' fl,
    readBatch_loop errorsLimit decoders iters baseEvent s = Ok (s', fl) /\
    Accepted (result s') = Accepted (result s) /\
    (exists appended, batch s' = batch s ++ appended) /\
    (forall err, fl = Return err -> terminal err).
Proof.
  induction iters as [|iters IH]; intros s; cbn [readBatch_loop].
  - exists s, Next. split; [reflexivity|]. split; [reflexivity|].
    split; [exists []; now rewrite app_nil_r | discriminate].
  - destruct (IsEOF (reader s)).
    + exists s, Next. split; [reflexivity|]. split; [reflexivity|].
      split; [exists []; now rewrite app_nil_r | discriminate].
    + destruct (readBatch_iter_shape baseEvent s)
        as (s1 & fl & Hit & _ & Hacc & (ap & Hap) & Hret).
      rewrite Hit. cbn [go_bind]. destruct fl as [|err].
      * destruct (IH s1) as (s' & fl' & Hloop & Hacc' & (ap' & Hap') & Hret').
        exists s', fl'. split; [exact Hloop|]. split; [congruence|].
        split; [|exact Hret'].
        exists (ap ++ ap'). now rewrite Hap', Hap, app_assoc.
      * exists s1, (Return err). split; [reflexivity|]. split; [exact Hacc|].
        split; [now exists ap|].
        intros err' [= <-]. now apply (Hret err).
Qed.

(** [readBatch] never panics; it returns the number of events appended,
    and a signal that is [io.EOF] at end of input, a terminal read error, or
    nil. *)
Lemma readBatch_shape (baseEvent : APMEvent Fields) (batchSize : Z)
    (s : state Fields LabelValue NumericLabelValue) :
  exists n sig s' appended,
    readBatch errorsLimit decoders baseEvent batchSize s = Ok (n, sig, s') /\
    batch s' = batch s ++ appended /\
    n = Z.of_nat (length appended) /\
    n = Z.of_nat (length (batch s')) - Z.of_nat (length (batch s)) /\
    Accepted (result s') = Accepted (result s) /\
    ((sig = Some io_EOF /\ isEOF (reader s') = true) \/
     (sig = None /\ isEOF (reader s') = false) \/
     terminal sig).
Proof.
  unfold readBatch.
  destruct (readBatch_loop_shape (Z.to_nat batchSize) baseEvent s)
    as (s' & fl & Hloop & Hacc & (ap & Hap) & Hret).
  rewrite Hloop. cbn [go_bind].
  assert (Hn : Z.of_nat (length (batch s')) - Z.of_nat (length (batch s))
               = Z.of_nat (length ap)).
  { rewrite Hap, length_app. lia. }
  destruct fl as [|err].
  - unfold IsEOF. destruct (isEOF (reader s')) eqn:Heof.
    + eexists _, _, s', ap. split; [reflexivity|].
      repeat (split; [first [assumption | reflexivity]|]). left. now split.
    + eexists _, _, s', ap. split; [reflexivity|].
      repeat (split; [first [assumption | reflexivity]|]). right. left. now split.
  - eexists _, _, s', ap. split; [reflexivity|].
    repeat (split; [first [assumption | reflexivity]|]). right. right.
    now apply Hret.
Qed.

End Passes.

(** ** One round of the stream loop *)

Section Rounds.

Context {Fields LabelValue NumericLabelValue Downstream : Type}.
Variable errorsLimit : nat.
Variable decoders : Decoders Fields LabelValue NumericLabelValue.
Variable processor : BatchProcessor Fields LabelValue NumericLabelValue Downstream.
Variable baseEvent : APMEvent Fields.
Variable batchSize : Z.

Abbreviation entry st :=
  {| reader := run_reader st; batch := []; result := run_result st;
     heap := run_heap st |}.

(** No event was read: nothing is handed downstream. *)
Lemma HandleStream_iter_empty (st : run LabelValue NumericLabelValue Downstream)
    n sig s :
  readBatch errorsLimit decoders baseEvent batchSize (entry st) = Ok (n, sig, s) ->
  n <= 0 ->
  HandleStream_iter errorsLimit decoders baseEvent batchSize processor st =
  Ok ({| run_reader := reader s; run_result := result s; run_heap := heap s;
         run_downstream := run_downstream st |}, after_signal sig).
Proof.
  intros Hrb Hn. unfold HandleStream_iter. rewrite Hrb. cbn [go_bind].
  destruct (Z.gtb_spec n 0); [lia|].
  unfold after_signal. destruct sig as [e|]; [destruct (is_EOF e)|]; reflexivity.
Qed.

(** Events were read and the downstream processor took them. *)
Lemma HandleStream_iter_forward (st : run LabelValue NumericLabelValue Downstream)
    n sig s d b h :
  readBatch errorsLimit decoders baseEvent batchSize (entry st) = Ok (n, sig, s) ->
  n > 0 ->
  processor (run_downstream st) (batch s) (heap s) = (d, b, h, None) ->
  HandleStream_iter errorsLimit decoders baseEvent batchSize processor st =
  Ok ({| run_reader := reader s;
         run_result := AddAccepted (result s) (Z.of_nat (length b));
         run_heap := h; run_downstream := d |}, after_signal sig).
Proof.
  intros Hrb Hn Hp. unfold HandleStream_iter. rewrite Hrb. cbn [go_bind].
  destruct (Z.gtb_spec n 0); [|lia]. rewrite Hp.
  unfold after_signal. destruct sig as [e|]; [destruct (is_EOF e)|]; reflexivity.
Qed.

(** Events were read and the downstream processor failed. *)
Lemma HandleStream_iter_reject (st : run LabelValue NumericLabelValue Downstream)
    n sig s d b h e :
  readBatch errorsLimit decoders baseEvent batchSize (entry st) = Ok (n, sig, s) ->
  n > 0 ->
  processor (run_downstream st) (batch s) (heap s) = (d, b, h, Some e) ->
  HandleStream_iter errorsLimit decoders baseEvent batchSize processor st =
  Ok ({| run_reader := reader s; run_result := result s; run_heap := h;
         run_downstream := d |}, Return (Some e)).
Proof.
  intros Hrb Hn Hp. unfold HandleStream_iter. rewrite Hrb. cbn [go_bind].
  destruct (Z.gtb_spec n 0); [|lia]. now rewrite Hp.
Qed.

Lemma HandleStream_iter_Accepted (st : run LabelValue NumericLabelValue Downstream) :
  exists st' fl,
    HandleStream_iter errorsLimit decoders baseEvent batchSize processor st
    = Ok (st', fl) /\
    Accepted (run_result st) <= Accepted (run_result st').
Proof.
  destruct (readBatch_shape errorsLimit decoders baseEvent batchSize (entry st))
    as (n & sig & s & ap & Hrb & _ & _ & _ & Hacc & _).
  cbn [result] in Hacc.
  destruct (Z.gtb_spec n 0) as [Hn | Hn].
  - destruct (processor (run_downstream st) (batch s) (heap s))
      as [[[d b] h] [e|]] eqn:Hp.
    + eexists _, _.
      split; [exact (HandleStream_iter_reject st n sig s d b h e Hrb ltac:(lia) Hp)|].
      cbn [run_result]. lia.
    + eexists _, _.
      split; [exact (HandleStream_iter_forward st n sig s d b h Hrb ltac:(lia) Hp)|].
      cbn [run_result AddAccepted Accepted]. lia.
  - eexists _, _. split; [exact (HandleStream_iter_empty st n sig s Hrb Hn)|].
    cbn [run_result]. lia.
Qed.

Lemma HandleStream_loop_Accepted (fuel : nat) :
  forall st st' : run LabelValue NumericLabelValue Downstream,
  final (HandleStream_loop errorsLimit decoders fuel baseEvent batchSize processor st)
  = Some st' ->
  Accepted (run_result st) <= Accepted (run_result st').
Proof.
  induction fuel as [|fuel IH]; intros st st'; cbn [HandleStream_loop final].
  - intros [= <-]. lia.
  - destruct (HandleStream_iter_Accepted st) as (st1 & fl & Hit & Hle).
    rewrite Hit. destruct fl as [|err].
    + intros H. apply IH in H. lia.
    + cbn [final]. intros [= <-]. exact Hle.
Qed.

(** The stream loop never panics. *)
Lemma HandleStream_loop_final (fuel : nat) :
  forall st : run LabelValue NumericLabelValue Downstream,
  exists st',
    final (HandleStream_loop errorsLimit decoders fuel baseEvent batchSize processor st)
    = Some st'.
Proof.
  induction fuel as [|fuel IH]; intros st; cbn [HandleStream_loop final].
  - now exists st.
  - destruct (HandleStream_iter_Accepted st) as (st1 & fl & Hit & _).
    rewrite Hit. destruct fl as [|err]; [apply IH | now exists st1].
Qed.

(** With a batch size of zero or less no line is ever read: on a reader
    that is not at end of input the stream loop goes round for ever. *)
Lemma HandleStream_loop_no_batch (fuel : nat)
    (st : run LabelValue NumericLabelValue Downstream) :
  batchSize <= 0 ->
  isEOF (run_reader st) = false ->
  HandleStream_loop errorsLimit decoders fuel baseEvent batchSize processor st
  = Unfinished st.
Proof.
  intros Hsize Heof. destruct st as [rd res h d]. cbn [run_reader] in Heof.
  induction fuel as [|fuel IH]; cbn [HandleStream_loop]; [reflexivity|].
  unfold HandleStream_iter, readBatch. cbn [run_reader run_result run_heap].
  replace (Z.to_nat batchSize) with 0%nat by lia.
  cbn [readBatch_loop go_bind reader batch result heap length]. unfold IsEOF.
  rewrite Heof. cbn [Z.of_nat Z.sub Z.gtb Z.compare run_downstream]. exact IH.
Qed.

End Rounds.

(** C2: the accepted count of the result never decreases, and a round of
    the stream loop changes it only by adding the length of the batch that
    [ProcessBatch] has just accepted; when [ProcessBatch] returns an error,
    [HandleStream] returns that error at once and the count is left as it
    was before the failed batch. *)
Theorem C2_accepted_count_follows_forwarded_batches
    {Fields LabelValue NumericLabelValue Downstream : Type}
    (errorsLimit : nat) (decoders : Decoders Fields LabelValue NumericLabelValue)
    (processor : BatchProcessor Fields LabelValue NumericLabelValue Downstream)
    (baseEvent : APMEvent Fields) (batchSize : Z) :
  (forall st : run LabelValue NumericLabelValue Downstream,
   exists n sig s,
     readBatch errorsLimit decoders baseEvent batchSize
       {| reader := run_reader st; batch := []; result := run_result st;
          heap := run_heap st |} = Ok (n, sig, s) /\
     Accepted (result s) = Accepted (run_result st) /\
     (n <= 0 ->
      exists st' fl,
        HandleStream_iter errorsLimit decoders baseEvent batchSize processor st
        = Ok (st', fl) /\
        run_downstream st' = run_downstream st /\
        Accepted (run_result st') = Accepted (run_result st)) /\
     (forall d b h,
        n > 0 ->
        processor (run_downstream st) (batch s) (heap s) = (d, b, h, None) ->
        exists st' fl,
          HandleStream_iter errorsLimit decoders baseEvent batchSize processor st
          = Ok (st', fl) /\
          Accepted (run_result st')
          = Accepted (run_result st) + Z.of_nat (length b)) /\
     (forall d b h e,
        n > 0 ->
        processor (run_downstream st) (batch s) (heap s) = (d, b, h, Some e) ->
        exists st',
          (forall fuel,
             HandleStream_loop errorsLimit decoders (S fuel) baseEvent batchSize
               processor st = Done (Some e) st') /\
          Accepted (run_result st') = Accepted (run_result st))) /\
  (forall fuel (st : run LabelValue NumericLabelValue Downstream),
   exists st',
     final (HandleStream_loop errorsLimit decoders fuel baseEvent batchSize
              processor st) = Some st' /\
     Accepted (run_result st) <= Accepted (run_result st')).
Proof.
  split.
  2: { intros fuel st.
       destruct (HandleStream_loop_final errorsLimit decoders processor baseEvent
                   batchSize fuel st) as [st' Hfinal].
       exists st'. split; [exact Hfinal|].
       now apply (HandleStream_loop_Accepted errorsLimit decoders processor
                    baseEvent batchSize fuel). }
  intros st.
  destruct (readBatch_shape errorsLimit decoders baseEvent batchSize
              {| reader := run_reader st; batch := []; result := run_result st;
                 heap := run_heap st |})
    as (n & sig & s & ap & Hrb & _ & _ & _ & Hacc & _).
  cbn [result] in Hacc.
  exists n, sig, s. split; [exact Hrb|]. split; [exact Hacc|].
  split; [|split].
  - intros Hn. eexists _, _.
    split; [apply (HandleStream_iter_empty _ _ _ _ _ st _ _ _ Hrb Hn)|].
    split; [reflexivity | exact Hacc].
  - intros d b h Hn Hp. eexists _, _.
    split; [apply (HandleStream_iter_forward _ _ _ _ _ st _ _ _ _ _ _ Hrb Hn Hp)|].
    cbn [run_result AddAccepted Accepted]. now rewrite Hacc.
  - intros d b h e Hn Hp. eexists. split.
    + intros fuel. cbn [HandleStream_loop].
      now rewrite (HandleStream_iter_reject _ _ _ _ _ st _ _ _ _ _ _ _ Hrb Hn Hp).
    + exact Hacc.
Qed.

Lemma C2_accepted_count_follows_forwarded_batches_witness :
  exists st',
    (forall fuel,
       HandleStream_loop 5 Sample.decoders (S fuel) Sample.noLabels 2 Sample.reject
         {| run_reader := Sample.reader0 (Sample.lines [Sample.good1; Sample.good2]);
            run_result := {| Accepted := 7; Errors := [] |};
            run_heap := Sample.emptyStore; run_downstream := [] |}
       = Done (Some (errorString "queue is full")) st') /\
    Accepted (run_result st') = 7.
Proof.
  destruct (proj1 (C2_accepted_count_follows_forwarded_batches 5 Sample.decoders
                     Sample.reject Sample.noLabels 2)
              {| run_reader := Sample.reader0 (Sample.lines [Sample.good1; Sample.good2]);
                 run_result := {| Accepted := 7; Errors := [] |};
                 run_heap := Sample.emptyStore; run_downstream := [] |})
    as (n & sig & s & Hrb & _ & _ & _ & Hreject).
  vm_compute in Hrb. injection Hrb as <- <- <-.
  exact (Hreject [] _ _ (errorString "queue is full") ltac:(lia) eq_refl).
Defined.

(** ** Errors inside a pass *)

Section PassErrors.

Context {Fields LabelValue NumericLabelValue : Type}.
Variable errorsLimit : nat.
Variable decoders : Decoders Fields LabelValue NumericLabelValue.

(** The first [k] iterations of a longer pass. *)
Lemma readBatch_loop_split (k j : nat) (baseEvent : APMEvent Fields) :
  forall s s1 : state Fields LabelValue NumericLabelValue,
  readBatch_loop errorsLimit decoders k baseEvent s = Ok (s1, Next) ->
  readBatch_loop errorsLimit decoders (k + j) baseEvent s
  = readBatch_loop errorsLimit decoders j baseEvent s1.
Proof.
  induction k as [|k IH]; intros s s1; cbn [readBatch_loop Nat.add].
  - now intros [= <-].
  - destruct (IsEOF (reader s)) eqn:Heof.
    + intros [= <-]. destruct j as [|j]; cbn [readBatch_loop]; [reflexivity|].
      now rewrite Heof.
    + destruct (readBatch_iter errorsLimit decoders baseEvent s) as [[s2 [|err]]|];
        cbn [go_bind]; [apply IH | discriminate | discriminate].
Qed.

(** A line read that fails with a terminal error ends the pass at once. *)
Lemma readBatch_read_failure (k j : nat) (baseEvent : APMEvent Fields)
    (s s1 : state Fields LabelValue NumericLabelValue) rd body e e' :
  readBatch_loop errorsLimit decoders k baseEvent s = Ok (s1, Next) ->
  isEOF (reader s1) = false ->
  ReadAhead (reader s1) = (rd, (body, Some e)) ->
  is_EOF e = false ->
  wrapError rd (Some e) = Some e' ->
  errors_As_InvalidInputError e' = false ->
  readBatch errorsLimit decoders baseEvent (Z.of_nat (k + S j)) s =
  Ok (Z.of_nat (length (batch s1)) - Z.of_nat (length (batch s)), Some e',
      {| reader := rd; batch := batch s1; result := result s1; heap := heap s1 |}).
Proof.
  intros Hk Heof HR He Hw Has. unfold readBatch.
  rewrite Nat2Z.id, (readBatch_loop_split k (S j) baseEvent s s1 Hk).
  cbn [readBatch_loop]. unfold IsEOF. rewrite Heof.
  rewrite (readBatch_iter_read_error errorsLimit decoders baseEvent s1
             rd body e e' HR He Hw), Has.
  reflexivity.
Qed.

(** A decoder error other than end of input is recorded, whatever its
    type, and the pass goes on. *)
Lemma readBatch_iter_decoder_error (baseEvent : APMEvent Fields)
    (s : state Fields LabelValue NumericLabelValue) rd body cond tok events h' e :
  ReadAhead (reader s) = (rd, (body, cond)) ->
  cond = None \/ cond = Some io_EOF ->
  body <> [] ->
  identifyEventType body = Ok tok ->
  decodeEvent decoders tok (LatestLine rd)
    (fst (copyEvent baseEvent (heap s))) (snd (copyEvent baseEvent (heap s)))
  = (events, h', Some e) ->
  is_EOF e = false ->
  readBatch_iter errorsLimit decoders baseEvent s =
  Ok ({| reader := rd; batch := batch s ++ events;
         result := LimitedAdd errorsLimit (result s)
                     (InvalidInputError false (Error e)
                        (string_of_bytes (LatestLine rd)));
         heap := h' |}, Next).
Proof.
  intros HR Hcond Hne Hid Hde He.
  rewrite (readBatch_iter_document errorsLimit decoders baseEvent s
             _ _ _ _ HR Hcond Hne Hid).
  destruct (copyEvent baseEvent (heap s)) as [cp h0]. cbn [fst snd] in Hde.
  now rewrite Hde, He.
Qed.

End PassErrors.

(** C3, as the code has it: inside one pass, a line read that fails with
    an error that is neither [io.EOF] nor an invalid-input error ends the
    pass at once: [readBatch] returns that error together with the number of
    events appended so far, and the lines after the failing one are left
    unread.  An error returned by a per-kind decoder, other than [io.EOF],
    is never returned by [readBatch]: whatever its type, it is recorded in
    the result as an invalid-input error with its message, and the pass goes
    on. *)
Theorem C3_only_read_errors_end_the_pass
    {Fields LabelValue NumericLabelValue : Type}
    (errorsLimit : nat) (decoders : Decoders Fields LabelValue NumericLabelValue)
    (baseEvent : APMEvent Fields) :
  (forall (k j : nat) (s s1 : state Fields LabelValue NumericLabelValue)
          rd body e e',
      readBatch_loop errorsLimit decoders k baseEvent s = Ok (s1, Next) ->
      isEOF (reader s1) = false ->
      ReadAhead (reader s1) = (rd, (body, Some e)) ->
      is_EOF e = false ->
      wrapError rd (Some e) = Some e' ->
      errors_As_InvalidInputError e' = false ->
      e' = e /\
      readBatch errorsLimit decoders baseEvent (Z.of_nat (k + S j)) s =
      Ok (Z.of_nat (length (batch s1)) - Z.of_nat (length (batch s)), Some e,
          {| reader := rd; batch := batch s1; result := result s1;
             heap := heap s1 |}) /\
      source rd = tl (source (reader s1))) /\
  (forall (s : state Fields LabelValue NumericLabelValue)
          rd body cond tok events h' e,
      ReadAhead (reader s) = (rd, (body, cond)) ->
      cond = None \/ cond = Some io_EOF ->
      body <> [] ->
      identifyEventType body = Ok tok ->
      decodeEvent decoders tok (LatestLine rd)
        (fst (copyEvent baseEvent (heap s))) (snd (copyEvent baseEvent (heap s)))
      = (events, h', Some e) ->
      is_EOF e = false ->
      readBatch_iter errorsLimit decoders baseEvent s =
      Ok ({| reader := rd; batch := batch s ++ events;
             result := LimitedAdd errorsLimit (result s)
                         (InvalidInputError false (Error e)
                            (string_of_bytes (LatestLine rd)));
             heap := h' |}, Next)).
Proof.
  split.
  - intros k j s s1 rd body e e' Hk Heof HR He Hw Has.
    assert (He' : e' = e).
    { destruct (wrapError_Some rd e) as (e2 & Hw2 & [Hinv | ->]).
      - rewrite Hw in Hw2. injection Hw2 as <-.
        apply is_InvalidInputError_As in Hinv. congruence.
      - rewrite Hw in Hw2. now injection Hw2. }
    split; [exact He'|]. subst e'. split.
    + now apply (readBatch_read_failure errorsLimit decoders k j baseEvent s s1
                   rd body e e).
    + pose proof (ReadAhead_source (reader s1)) as Hs. now rewrite HR in Hs.
  - intros s rd body cond tok events h' e.
    apply readBatch_iter_decoder_error.
Qed.

Lemma C3_only_read_errors_end_the_pass_witness :
  readBatch 5 Sample.decoders Sample.noLabels 10
    {| reader := Sample.reader0
                   [(Sample.good1, None);
                    (Sample.good2, Some (errorString "connection reset by peer"));
                    (Sample.good3, None)];
       batch := []; result := Sample.emptyResult; heap := Sample.emptyStore |}
  = Ok (1, Some (errorString "connection reset by peer"),
        {| reader := {| source := [(Sample.good3, None)];
                        latestLine := Sample.good2; isEOF := false;
                        maxLineLength := 32 |};
           batch := [{| Labels := None; NumericLabels := None;
                        OtherFields := "{'transaction':{'id':1}}" |}];
           result := Sample.emptyResult; heap := Sample.emptyStore |}).
Proof.
  apply (proj1 (proj2 (proj1 (C3_only_read_errors_end_the_pass 5 Sample.decoders
                                Sample.noLabels)
                  1%nat 8%nat
                  {| reader := Sample.reader0
                                 [(Sample.good1, None);
                                  (Sample.good2,
                                   Some (errorString "connection reset by peer"));
                                  (Sample.good3, None)];
                     batch := []; result := Sample.emptyResult;
                     heap := Sample.emptyStore |}
                  {| reader := {| source :=
                                    [(Sample.good2,
                                      Some (errorString "connection reset by peer"));
                                     (Sample.good3, None)];
                                  latestLine := Sample.good1; isEOF := false;
                                  maxLineLength := 32 |};
                     batch := [{| Labels := None; NumericLabels := None;
                                  OtherFields := "{'transaction':{'id':1}}" |}];
                     result := Sample.emptyResult; heap := Sample.emptyStore |}
                  {| source := [(Sample.good3, None)];
                     latestLine := Sample.good2; isEOF := false;
                     maxLineLength := 32 |}
                  Sample.good2 (errorString "connection reset by peer")
                  (errorString "connection reset by peer")
                  eq_refl eq_refl eq_refl eq_refl eq_refl eq_refl))).
Defined.

(** C3 does not hold for decoder errors: the sample decoder fails on the
    first document with an error that is not an invalid-input error, yet
    [readBatch] records it, decodes the next document and returns [io.EOF],
    not that error; so it is not true that every decoder error outside the
    invalid-input class is returned from the pass. *)
Lemma C3_decoder_error_is_not_propagated :
  (Sample.decode Sample.failing Sample.noLabels Sample.emptyStore
   = ([], Sample.emptyStore, Some (errorString "unexpected EOF")) /\
   errors_As_InvalidInputError (errorString "unexpected EOF") = false /\
   readBatch 5 Sample.decoders Sample.noLabels 10
     {| reader := Sample.reader0 (Sample.lines [Sample.failing; Sample.good1]);
        batch := []; result := Sample.emptyResult; heap := Sample.emptyStore |}
   = Ok (1, Some io_EOF,
         {| reader := {| source := []; latestLine := []; isEOF := true;
                         maxLineLength := 32 |};
            batch := [{| Labels := None; NumericLabels := None;
                         OtherFields := "{'transaction':{'id':1}}" |}];
            result := {| Accepted := 0;
                         Errors := [InvalidInputError false "unexpected EOF"
                                      "{'x':{'id':#}}"] |};
            heap := Sample.emptyStore |})) /\
  ~ (forall (decoders : Decoders string string Z) (baseEvent : APMEvent string)
            (batchSize : Z) (s : state string string Z)
            rd body tok events h' e,
        1 <= batchSize ->
        isEOF (reader s) = false ->
        ReadAhead (reader s) = (rd, (body, None)) ->
        body <> [] ->
        identifyEventType body = Ok tok ->
        decodeEvent decoders tok (LatestLine rd)
          (fst (copyEvent baseEvent (heap s))) (snd (copyEvent baseEvent (heap s)))
        = (events, h', Some e) ->
        is_EOF e = false ->
        errors_As_InvalidInputError e = false ->
        exists n s', readBatch 5 decoders baseEvent batchSize s = Ok (n, Some e, s')).
Proof.
  split; [repeat split|].
  intros H.
  destruct (H Sample.decoders Sample.noLabels 10
              {| reader := Sample.reader0 (Sample.lines [Sample.failing; Sample.good1]);
                 batch := []; result := Sample.emptyResult;
                 heap := Sample.emptyStore |}
              {| source := Sample.lines [Sample.good1];
                 latestLine := Sample.failing; isEOF := false;
                 maxLineLength := 32 |}
              Sample.failing (Some (Sample.bytes "x")) [] Sample.emptyStore
              (errorString "unexpected EOF")
              ltac:(lia) eq_refl eq_refl ltac:(discriminate) eq_refl eq_refl
              eq_refl eq_refl)
    as (n & s' & Hrb).
  vm_compute in Hrb. discriminate Hrb.
Qed.

(** ** The signal of a pass *)

(** An error that [wrapError] leaves outside the invalid-input class is
    the error it was given. *)
Lemma wrapError_terminal (sr : streamReader) (e e' : error) :
  wrapError sr (Some e) = Some e' ->
  errors_As_InvalidInputError e' = false ->
  e' = e.
Proof.
  intros Hw Has. destruct (wrapError_Some sr e) as (e2 & Hw2 & [Hinv | ->]).
  - rewrite Hw in Hw2. injection Hw2 as <-.
    apply is_InvalidInputError_As in Hinv. congruence.
  - rewrite Hw in Hw2. now injection Hw2.
Qed.

Section PassSignal.

Context {Fields LabelValue NumericLabelValue : Type}.
Variable errorsLimit : nat.
Variable decoders : Decoders Fields LabelValue NumericLabelValue.

(** An iteration returns only out of the branch of a failed read: the
    read reported an error other than [io.EOF] that [wrapError] left
    outside the invalid-input class, and that error is what is returned. *)
Lemma readBatch_iter_return (baseEvent : APMEvent Fields)
    (s s' : state Fields LabelValue NumericLabelValue) (err : option error) :
  readBatch_iter errorsLimit decoders baseEvent s = Ok (s', Return err) ->
  exists body e,
    ReadAhead (reader s) = (reader s', (body, Some e)) /\
    is_EOF e = false /\
    wrapError (reader s') (Some e) = Some e /\
    errors_As_InvalidInputError e = false /\
    err = Some e /\
    batch s' = batch s /\ result s' = result s /\ heap s' = heap s.
Proof.
  unfold readBatch_iter.
  destruct (ReadAhead (reader s)) as [rd [body cond]].
  assert (Hdoc : forall (X : go (state Fields LabelValue NumericLabelValue * flow)),
             X = (if (length body =? 0)%nat
                  then Ok ({| reader := rd; batch := batch s; result := result s;
                              heap := heap s |}, Next)
                  else
                    let '(base, h) := copyEvent baseEvent (heap s) in
                    try! eventType := identifyEventType body in
                    let '(events, h0, err0) :=
                      decodeEvent decoders eventType (LatestLine rd) base h in
                    Ok ({| reader := rd; batch := batch s ++ events;
                           result :=
                             match err0 with
                             | Some e =>
                                 if negb (is_EOF e)
                                 then LimitedAdd errorsLimit (result s)
                                        (InvalidInputError false (Error e)
                                           (string_of_bytes (LatestLine rd)))
                                 else result s
                             | None => result s
                             end;
                           heap := h0 |}, Next)) ->
             X <> Ok (s', Return err)).
  { intros X ->. destruct (length body =? 0)%nat; [discriminate|].
    destruct (copyEvent baseEvent (heap s)) as [base h].
    destruct (identifyEventType body) as [tok|]; cbn [go_bind]; [|discriminate].
    destruct (decodeEvent decoders tok (LatestLine rd) base h) as [[events h0] err0].
    discriminate. }
  destruct cond as [e|]; [destruct (is_EOF e) eqn:Heof|]; cbn [negb];
    cbn [reader batch result heap];
    try (intros H; exfalso; exact (Hdoc _ eq_refl H)).
  destruct (wrapError rd (Some e)) as [e'|] eqn:Hw.
  - destruct (errors_As_InvalidInputError e') eqn:Has; [discriminate|].
    intros [= <- <-]. cbn [reader batch result heap].
    pose proof (wrapError_terminal rd e e' Hw Has) as ->.
    exists body, e. now repeat split.
  - destruct (wrapError_Some rd e) as (e2 & Hw2 & _). congruence.
Qed.

(** A pass is cut short only by a failed read: the iterations before it
    all went on, the reader was not at end of input, and the error of the
    read is what the pass returns, the batch, the result and the label maps
    being those the earlier iterations left. *)
Lemma readBatch_loop_return (iters : nat) (baseEvent : APMEvent Fields) :
  forall (s s' : state Fields LabelValue NumericLabelValue) (err : option error),
  readBatch_loop errorsLimit decoders iters baseEvent s = Ok (s', Return err) ->
  exists k s1 body e,
    (k < iters)%nat /\
    readBatch_loop errorsLimit decoders k baseEvent s = Ok (s1, Next) /\
    isEOF (reader s1) = false /\
    ReadAhead (reader s1) = (reader s', (body, Some e)) /\
    is_EOF e = false /\
    wrapError (reader s') (Some e) = Some e /\
    errors_As_InvalidInputError e = false /\
    err = Some e /\
    batch s' = batch s1 /\ result s' = result s1 /\ heap s' = heap s1.
Proof.
  induction iters as [|iters IH]; intros s s' err; cbn [readBatch_loop];
    [discriminate|].
  unfold IsEOF. destruct (isEOF (reader s)) eqn:Heof; [discriminate|].
  destruct (readBatch_iter errorsLimit decoders baseEvent s)
    as [[s2 [|err2]]|] eqn:Hit; cbn [go_bind]; [| |discriminate].
  - intros Hloop.
    destruct (IH s2 s' err Hloop)
      as (k & s1 & body & e & Hk & Hpre & Hne & HR & He & Hw & Has & Herr & Hrest).
    exists (S k), s1, body, e. split; [lia|]. split.
    + cbn [readBatch_loop]. unfold IsEOF. rewrite Heof, Hit. exact Hpre.
    + now repeat split.
  - intros [= <- <-].
    destruct (readBatch_iter_return baseEvent s s2 err2 Hit)
      as (body & e & HR & He & Hw & Has & Herr & Hrest).
    exists 0%nat, s, body, e. split; [lia|]. split; [reflexivity|].
    now repeat split.
Qed.

(** The signal of a pass, by what made the loop stop: it ran to its end
    and the signal is [io.EOF] or nil by the reader's end-of-input flag, or
    a read failed and the signal is the error of that read. *)
Lemma readBatch_signal (baseEvent : APMEvent Fields) (batchSize : Z)
    (s : state Fields LabelValue NumericLabelValue) :
  exists n sig s' appended,
    readBatch errorsLimit decoders baseEvent batchSize s = Ok (n, sig, s') /\
    batch s' = batch s ++ appended /\
    n = Z.of_nat (length appended) /\
    n = Z.of_nat (length (batch s')) - Z.of_nat (length (batch s)) /\
    ((readBatch_loop errorsLimit decoders (Z.to_nat batchSize) baseEvent s
      = Ok (s', Next) /\
      sig = (if isEOF (reader s') then Some io_EOF else None)) \/
     (exists k s1 body e,
         (k < Z.to_nat batchSize)%nat /\
         readBatch_loop errorsLimit decoders k baseEvent s = Ok (s1, Next) /\
         isEOF (reader s1) = false /\
         ReadAhead (reader s1) = (reader s', (body, Some e)) /\
         is_EOF e = false /\
         wrapError (reader s') (Some e) = Some e /\
         errors_As_InvalidInputError e = false /\
         sig = Some e /\
         batch s' = batch s1 /\ result s' = result s1 /\ heap s' = heap s1)).
Proof.
  destruct (readBatch_shape errorsLimit decoders baseEvent batchSize s)
    as (n & sig & s' & ap & Hrb & Hap & Hn & Hn' & _).
  exists n, sig, s', ap. split; [exact Hrb|]. split; [exact Hap|].
  split; [exact Hn|]. split; [exact Hn'|].
  revert Hrb. unfold readBatch.
  destruct (readBatch_loop errorsLimit decoders (Z.to_nat batchSize) baseEvent s)
    as [[s1 fl]|] eqn:Hloop; cbn [go_bind]; [|discriminate].
  destruct fl as [|err].
  - unfold IsEOF. destruct (isEOF (reader s1)) eqn:Heof; intros [= _ <- <-];
      left; rewrite Heof; now split.
  - intros [= _ <- <-]. right.
    destruct (readBatch_loop_return _ baseEvent s s1 err Hloop)
      as (k & s0 & body & e & H).
    now exists k, s0, body, e.
Qed.

End PassSignal.

(** C4, as the code has it: [readBatch] never panics and returns the
    number of events appended to the batch during the pass (the final
    length of the batch minus its length on entry) together with a signal:
    the error of a line read that failed with neither [io.EOF] nor an
    invalid-input error, when the pass was cut short by one; otherwise
    [io.EOF] when the reader is at end of input, possibly with a positive
    count, and nil when it is not.  [HandleStream] hands the appended events
    downstream before it looks at the signal; on [io.EOF] it returns nil,
    and on any other non-nil signal it returns that error. *)
Theorem C4_readBatch_count_and_signal
    {Fields LabelValue NumericLabelValue Downstream : Type}
    (errorsLimit : nat) (decoders : Decoders Fields LabelValue NumericLabelValue)
    (processor : BatchProcessor Fields LabelValue NumericLabelValue Downstream)
    (baseEvent : APMEvent Fields) (batchSize : Z) :
  (forall s : state Fields LabelValue NumericLabelValue,
   exists n sig s' appended,
     readBatch errorsLimit decoders baseEvent batchSize s = Ok (n, sig, s') /\
     batch s' = batch s ++ appended /\
     n = Z.of_nat (length appended) /\
     n = Z.of_nat (length (batch s')) - Z.of_nat (length (batch s)) /\
     ((readBatch_loop errorsLimit decoders (Z.to_nat batchSize) baseEvent s
       = Ok (s', Next) /\
       ((sig = Some io_EOF /\ isEOF (reader s') = true) \/
        (sig = None /\ isEOF (reader s') = false))) \/
      (terminal sig /\
       exists k s1 body e,
         (k < Z.to_nat batchSize)%nat /\
         readBatch_loop errorsLimit decoders k baseEvent s = Ok (s1, Next) /\
         isEOF (reader s1) = false /\
         ReadAhead (reader s1) = (reader s', (body, Some e)) /\
         is_EOF e = false /\
         wrapError (reader s') (Some e) = Some e /\
         errors_As_InvalidInputError e = false /\
         sig = Some e /\
         batch s' = batch s1 /\ result s' = result s1 /\ heap s' = heap s1))) /\
  (forall (k j : nat) (s s1 : state Fields LabelValue NumericLabelValue)
          rd body e,
     readBatch_loop errorsLimit decoders k baseEvent s = Ok (s1, Next) ->
     isEOF (reader s1) = false ->
     ReadAhead (reader s1) = (rd, (body, Some e)) ->
     is_EOF e = false ->
     wrapError rd (Some e) = Some e ->
     errors_As_InvalidInputError e = false ->
     readBatch errorsLimit decoders baseEvent (Z.of_nat (k + S j)) s =
     Ok (Z.of_nat (length (batch s1)) - Z.of_nat (length (batch s)), Some e,
         {| reader := rd; batch := batch s1; result := result s1;
            heap := heap s1 |})) /\
  (forall (st : run LabelValue NumericLabelValue Downstream) n sig s d b h,
     readBatch errorsLimit decoders baseEvent batchSize
       {| reader := run_reader st; batch := []; result := run_result st;
          heap := run_heap st |} = Ok (n, sig, s) ->
     n > 0 ->
     processor (run_downstream st) (batch s) (heap s) = (d, b, h, None) ->
     HandleStream_iter errorsLimit decoders baseEvent batchSize processor st =
     Ok ({| run_reader := reader s;
            run_result := AddAccepted (result s) (Z.of_nat (length b));
            run_heap := h; run_downstream := d |}, after_signal sig)) /\
  (forall (st : run LabelValue NumericLabelValue Downstream) n sig s,
     readBatch errorsLimit decoders baseEvent batchSize
       {| reader := run_reader st; batch := []; result := run_result st;
          heap := run_heap st |} = Ok (n, sig, s) ->
     n <= 0 ->
     HandleStream_iter errorsLimit decoders baseEvent batchSize processor st =
     Ok ({| run_reader := reader s; run_result := result s; run_heap := heap s;
            run_downstream := run_downstream st |}, after_signal sig)) /\
  (forall (fuel : nat) (st st' : run LabelValue NumericLabelValue Downstream) sig,
     HandleStream_iter errorsLimit decoders baseEvent batchSize processor st =
     Ok (st', after_signal sig) ->
     (sig = Some io_EOF ->
      HandleStream_loop errorsLimit decoders (S fuel) baseEvent batchSize processor st
      = Done None st') /\
     (forall e, sig = Some e -> is_EOF e = false ->
      HandleStream_loop errorsLimit decoders (S fuel) baseEvent batchSize processor st
      = Done (Some e) st')).
Proof.
  split; [|split; [|split; [|split]]].
  - intros s.
    destruct (readBatch_signal errorsLimit decoders baseEvent batchSize s)
      as (n & sig & s' & ap & H1 & H2 & H3 & H4 & H5).
    exists n, sig, s', ap. split; [exact H1|]. split; [exact H2|].
    split; [exact H3|]. split; [exact H4|].
    destruct H5 as [[Hloop ->] | (k & s1 & body & e & Hk & Hpre & Hne & HR & He
                                  & Hw & Has & -> & Hrest)].
    + left. split; [exact Hloop|].
      destruct (isEOF (reader s')); [left | right]; now split.
    + right. split; [now exists e|].
      exists k, s1, body, e. now repeat split.
  - intros k j s s1 rd body e Hk Hne HR He Hw Has.
    now apply (readBatch_read_failure errorsLimit decoders k j baseEvent s s1
                 rd body e e).
  - intros st n sig s d b h.
    apply (HandleStream_iter_forward errorsLimit decoders processor baseEvent
             batchSize st).
  - intros st n sig s.
    apply (HandleStream_iter_empty errorsLimit decoders processor baseEvent
             batchSize st).
  - intros fuel st st' sig Hit. split.
    + intros ->. cbn [HandleStream_loop]. now rewrite Hit.
    + intros e -> He. cbn [HandleStream_loop]. rewrite Hit.
      unfold after_signal. now rewrite He.
Qed.

Lemma C4_readBatch_count_and_signal_witness :
  HandleStream_loop 5 Sample.decoders 1 Sample.noLabels 10 Sample.keep
    {| run_reader := Sample.reader0 [(Sample.good1, None); (Sample.good2, Some io_EOF)];
       run_result := Sample.emptyResult;
       run_heap := Sample.emptyStore; run_downstream := [] |}
  = Done None
      {| run_reader := {| source := []; latestLine := Sample.good2; isEOF := true;
                          maxLineLength := 32 |};
         run_result := {| Accepted := 2; Errors := [] |};
         run_heap := Sample.emptyStore;
         run_downstream :=
           [[{| Labels := None; NumericLabels := None;
                OtherFields := "{'transaction':{'id':1}}" |};
             {| Labels := None; NumericLabels := None;
                OtherFields := "{'span':{'id':2}}" |}]] |}.
Proof.
  pose (st := {| run_reader :=
                   Sample.reader0 [(Sample.good1, None); (Sample.good2, Some io_EOF)];
                 run_result := Sample.emptyResult;
                 run_heap := Sample.emptyStore;
                 run_downstream := ([] : list (Batch string)) |}).
  pose proof (C4_readBatch_count_and_signal 5 Sample.decoders Sample.keep
                Sample.noLabels 10) as (_ & _ & Hfwd & _ & Hsig).
  apply (proj1 (Hsig 0%nat st _ (Some io_EOF)
                  (Hfwd st 2 (Some io_EOF) _ _ _ _ eq_refl ltac:(lia) eq_refl))
           eq_refl).
Defined.

(** C4 does not hold when a line read fails: the signal of [readBatch] is
    then neither [io.EOF] nor nil, though one event was appended and the
    reader is not at end of input; so the signal is not always [io.EOF] at
    end of input and nil otherwise. *)
Lemma C4_signal_can_be_a_read_error :
  (readBatch 5 Sample.decoders Sample.noLabels 10
     {| reader := Sample.reader0
                    [(Sample.good1, None);
                     ([], Some (errorString "connection reset by peer"))];
        batch := []; result := Sample.emptyResult; heap := Sample.emptyStore |}
   = Ok (1, Some (errorString "connection reset by peer"),
         {| reader := {| source := []; latestLine := []; isEOF := false;
                         maxLineLength := 32 |};
            batch := [{| Labels := None; NumericLabels := None;
                         OtherFields := "{'transaction':{'id':1}}" |}];
            result := Sample.emptyResult; heap := Sample.emptyStore |})) /\
  ~ (forall (decoders : Decoders string string Z) (baseEvent : APMEvent string)
            (batchSize : Z) (s s' : state string string Z) n sig,
        readBatch 5 decoders baseEvent batchSize s = Ok (n, sig, s') ->
        sig = (if isEOF (reader s') then Some io_EOF else None)).
Proof.
  split; [reflexivity|].
  intros H.
  specialize (H Sample.decoders Sample.noLabels 10
                {| reader := Sample.reader0
                               [(Sample.good1, None);
                                ([], Some (errorString "connection reset by peer"))];
                   batch := []; result := Sample.emptyResult;
                   heap := Sample.emptyStore |}
                _ _ _ eq_refl).
  discriminate H.
Qed.

(** ** Label maps *)

Section LabelMaps.

Context {Fields LabelValue NumericLabelValue : Type}.

Abbreviation Store := (store LabelValue NumericLabelValue).

Lemma preserved_refl (h : Store) : preserved h h.
Proof. now split. Qed.

Lemma preserved_trans (h1 h2 h3 : Store) :
  preserved h1 h2 -> preserved h2 h3 -> preserved h1 h3.
Proof. intros [A1 B1] [A2 B2]. split; eauto. Qed.

Lemma fresh_label (h : Store) : labelMaps h !! fresh (dom (labelMaps h)) = None.
Proof. apply not_elem_of_dom. apply is_fresh. Qed.

Lemma fresh_numeric (h : Store) :
  numericLabelMaps h !! fresh (dom (numericLabelMaps h)) = None.
Proof. apply not_elem_of_dom. apply is_fresh. Qed.

(** [copyEvent]: the other fields are the same, a nil map stays nil, and
    each label map is replaced by a new map with the same entries, every
    map that existed being left as it was. *)
Lemma copyEvent_spec (e : APMEvent Fields) (h : Store) :
  let '(out, h') := copyEvent e h in
  OtherFields out = OtherFields e /\
  match Labels e with
  | None => Labels out = None
  | Some l =>
      exists l', Labels out = Some l' /\ labelMaps h !! l' = None /\
                 labelMaps h' !! l' = Some (default ∅ (labelMaps h !! l))
  end /\
  match NumericLabels e with
  | None => NumericLabels out = None
  | Some l =>
      exists l', NumericLabels out = Some l' /\ numericLabelMaps h !! l' = None /\
                 numericLabelMaps h' !! l' = Some (default ∅ (numericLabelMaps h !! l))
  end /\
  preserved h h'.
Proof.
  unfold copyEvent, Labels_Clone, NumericLabels_Clone.
  destruct e as [[l|] [n|] other];
    cbn [Labels NumericLabels OtherFields labelMaps numericLabelMaps];
    (split; [reflexivity|]); (split; [|split]);
    try reflexivity;
    try (eexists; split; [reflexivity|];
         split; [first [apply fresh_label | apply fresh_numeric]
                | apply lookup_insert_eq]);
    try apply preserved_refl.
  all: split; cbn [labelMaps numericLabelMaps]; intros l0 lm Hl0;
    try exact Hl0;
    (rewrite lookup_insert_ne;
     [exact Hl0
     | intros <-;
       first [rewrite fresh_label in Hl0 | rewrite fresh_numeric in Hl0];
       discriminate Hl0]).
Qed.

Variable errorsLimit : nat.
Variable decoders : Decoders Fields LabelValue NumericLabelValue.
Hypothesis decoders_local : local_decoders decoders.

Lemma decodeEvent_local (tok : option (list byte)) :
  local_decoder (decodeEvent decoders tok).
Proof.
  destruct decoders_local as (H1 & H2 & H3 & H4 & H5 & H6).
  unfold decodeEvent. intros doc input h evs h' err.
  repeat match goal with
         | |- context [String.eqb ?a ?b] => destruct (String.eqb a b)
         end; eauto.
  intros [= <- <- <-]. now split.
Qed.

(** An iteration leaves every label map that existed as it was. *)
Lemma readBatch_iter_preserved (baseEvent : APMEvent Fields)
    (s s' : state Fields LabelValue NumericLabelValue) fl :
  readBatch_iter errorsLimit decoders baseEvent s = Ok (s', fl) ->
  preserved (heap s) (heap s').
Proof.
  unfold readBatch_iter.
  destruct (ReadAhead (reader s)) as [rd [body cond]].
  destruct (match cond with Some e => negb (is_EOF e) | None => false end).
  - destruct (wrapError rd cond) as [e|];
      [destruct (errors_As_InvalidInputError e)|];
      intros [= <- <-]; apply preserved_refl.
  - destruct (length body =? 0)%nat; [intros [= <- <-]; apply preserved_refl|].
    cbn [reader batch result heap].
    pose proof (copyEvent_spec baseEvent (heap s)) as Hcp.
    destruct (copyEvent baseEvent (heap s)) as [cp h0].
    destruct Hcp as (_ & Hl & Hn & [Hp1 Hp2]).
    destruct (identifyEventType body) as [tok|]; cbn [go_bind]; [|discriminate].
    destruct (decodeEvent decoders tok (LatestLine rd) cp h0)
      as [[events h'] err] eqn:Hde.
    intros [= <- <-]. cbn [heap].
    destruct (decodeEvent_local tok _ _ _ _ _ _ Hde) as [Hd1 Hd2].
    split.
    + intros l lm Hlm. apply Hd1; [now apply Hp1|].
      destruct (Labels baseEvent) as [l0|].
      * destruct Hl as (l' & -> & Hfresh & _). intros [= ->]. congruence.
      * now rewrite Hl.
    + intros l lm Hlm. apply Hd2; [now apply Hp2|].
      destruct (NumericLabels baseEvent) as [l0|].
      * destruct Hn as (l' & -> & Hfresh & _). intros [= ->]. congruence.
      * now rewrite Hn.
Qed.

Lemma readBatch_loop_preserved (iters : nat) (baseEvent : APMEvent Fields) :
  forall (s s' : state Fields LabelValue NumericLabelValue) fl,
  readBatch_loop errorsLimit decoders iters baseEvent s = Ok (s', fl) ->
  preserved (heap s) (heap s').
Proof.
  induction iters as [|iters IH]; intros s s' fl; cbn [readBatch_loop].
  - intros [= <- <-]. apply preserved_refl.
  - destruct (IsEOF (reader s)); [intros [= <- <-]; apply preserved_refl|].
    destruct (readBatch_iter errorsLimit decoders baseEvent s)
      as [[s1 fl1]|] eqn:Hit; cbn [go_bind]; [|discriminate].
    pose proof (readBatch_iter_preserved baseEvent s s1 fl1 Hit) as Hp.
    destruct fl1 as [|err].
    + intros Hloop. apply (preserved_trans _ (heap s1)); [exact Hp | eauto].
    + now intros [= <- <-].
Qed.

End LabelMaps.

Lemma sample_decode_local : local_decoder Sample.decode.
Proof.
  intros doc input h evs h' err. unfold Sample.decode.
  destruct (Sample.has_byte x21 doc); [intros [= <- <- <-]; now split|].
  destruct (Sample.has_byte x23 doc); [intros [= <- <- <-]; now split|].
  intros [= <- <- <-]. unfold Sample.tag.
  destruct (Labels input) as [l|]; [|now split].
  split; cbn [labelMaps numericLabelMaps]; [|tauto].
  intros l0 lm Hl0 Hne. rewrite lookup_insert_ne; [exact Hl0 | congruence].
Qed.

Lemma sample_decoders_local : local_decoders Sample.decoders.
Proof.
  unfold local_decoders. cbn.
  repeat (split; [exact sample_decode_local|]). exact sample_decode_local.
Qed.

(** C8: every iteration of the batch loop decodes from
    [copyEvent(baseEvent)]; [copyEvent] keeps every field but the two label
    maps, keeps a nil map nil, and replaces each label map by a new map with
    the same entries; so, with decoders that write to the label maps of the
    event they are given, a pass leaves every label map that existed before
    it as it was (the maps of the base event and of the events decoded
    earlier), and the copy made for a later document has the entries the
    base event had at the start, in a map of its own. *)
Theorem C8_label_maps_are_copied_per_document
    {Fields LabelValue NumericLabelValue : Type}
    (errorsLimit : nat) (decoders : Decoders Fields LabelValue NumericLabelValue)
    (baseEvent : APMEvent Fields) :
  (forall (e : APMEvent Fields) (h : store LabelValue NumericLabelValue),
   let '(out, h') := copyEvent e h in
   OtherFields out = OtherFields e /\
   match Labels e with
   | None => Labels out = None
   | Some l =>
       exists l', Labels out = Some l' /\ labelMaps h !! l' = None /\
                  labelMaps h' !! l' = Some (default ∅ (labelMaps h !! l))
   end /\
   match NumericLabels e with
   | None => NumericLabels out = None
   | Some l =>
       exists l', NumericLabels out = Some l' /\ numericLabelMaps h !! l' = None /\
                  numericLabelMaps h' !! l'
                  = Some (default ∅ (numericLabelMaps h !! l))
   end /\
   preserved h h') /\
  (forall (s : state Fields LabelValue NumericLabelValue) rd body cond tok,
     ReadAhead (reader s) = (rd, (body, cond)) ->
     cond = None \/ cond = Some io_EOF ->
     body <> [] ->
     identifyEventType body = Ok tok ->
     readBatch_iter errorsLimit decoders baseEvent s =
     let '(base, h) := copyEvent baseEvent (heap s) in
     let '(events, h', err) := decodeEvent decoders tok (LatestLine rd) base h in
     Ok ({| reader := rd; batch := batch s ++ events;
            result :=
              match err with
              | Some e =>
                  if negb (is_EOF e)
                  then LimitedAdd errorsLimit (result s)
                         (InvalidInputError false (Error e)
                            (string_of_bytes (LatestLine rd)))
                  else result s
              | None => result s
              end;
            heap := h' |}, Next)) /\
  (local_decoders decoders ->
   forall (iters : nat) (s : state Fields LabelValue NumericLabelValue),
   exists s' fl,
     readBatch_loop errorsLimit decoders iters baseEvent s = Ok (s', fl) /\
     preserved (heap s) (heap s') /\
     (forall l lm,
        Labels baseEvent = Some l -> labelMaps (heap s) !! l = Some lm ->
        exists l',
          Labels (fst (copyEvent baseEvent (heap s'))) = Some l' /\
          l' <> l /\
          labelMaps (heap s') !! l' = None /\
          labelMaps (snd (copyEvent baseEvent (heap s'))) !! l' = Some lm) /\
     (forall l lm,
        NumericLabels baseEvent = Some l ->
        numericLabelMaps (heap s) !! l = Some lm ->
        exists l',
          NumericLabels (fst (copyEvent baseEvent (heap s'))) = Some l' /\
          l' <> l /\
          numericLabelMaps (heap s') !! l' = None /\
          numericLabelMaps (snd (copyEvent baseEvent (heap s'))) !! l' = Some lm)).
Proof.
  split; [exact copyEvent_spec|]. split.
  - intros s rd body cond tok.
    apply readBatch_iter_document.
  - intros Hlocal iters s.
    destruct (readBatch_loop_shape errorsLimit decoders iters baseEvent s)
      as (s' & fl & Hloop & _).
    exists s', fl. split; [exact Hloop|].
    pose proof (readBatch_loop_preserved errorsLimit decoders Hlocal iters
                  baseEvent s s' fl Hloop) as [Hp1 Hp2].
    split; [now split|].
    pose proof (copyEvent_spec baseEvent (heap s')) as Hcp.
    destruct (copyEvent baseEvent (heap s')) as [cp h0]. cbn [fst snd].
    destruct Hcp as (_ & Hl & Hn & _).
    split.
    + intros l lm Hbase Hlm. rewrite Hbase in Hl.
      destruct Hl as (l' & Hcp & Hfresh & Hcontent).
      apply Hp1 in Hlm. rewrite Hlm in Hcontent.
      exists l'. repeat split; try assumption. congruence.
    + intros l lm Hbase Hlm. rewrite Hbase in Hn.
      destruct Hn as (l' & Hcp & Hfresh & Hcontent).
      apply Hp2 in Hlm. rewrite Hlm in Hcontent.
      exists l'. repeat split; try assumption. congruence.
Qed.

Lemma C8_label_maps_are_copied_per_document_witness :
  exists s',
    readBatch_loop 5 Sample.decoders 10 Sample.base
      (Sample.state0 (Sample.lines [Sample.good1; Sample.good2]))
    = Ok (s', Next) /\
    batch s' = [{| Labels := Some 2%positive; NumericLabels := None;
                   OtherFields := "{'transaction':{'id':1}}" |};
                {| Labels := Some 3%positive; NumericLabels := None;
                   OtherFields := "{'span':{'id':2}}" |}] /\
    labelMaps (heap s') !! 1%positive = Some {[ "env" := "prod" ]} /\
    labelMaps (heap s') !! 2%positive
    = Some (<[ "seen" := "{'transaction':{'id':1}}" ]> {[ "env" := "prod" ]}) /\
    labelMaps (heap s') !! 3%positive
    = Some (<[ "seen" := "{'span':{'id':2}}" ]> {[ "env" := "prod" ]}).
Proof.
  destruct (proj2 (proj2 (C8_label_maps_are_copied_per_document
                            5 Sample.decoders Sample.base))
              sample_decoders_local 10%nat
              (Sample.state0 (Sample.lines [Sample.good1; Sample.good2])))
    as (s' & fl & Hloop & [Hkeep _] & _).
  specialize (Hkeep 1%positive {[ "env" := "prod" ]} eq_refl).
  vm_compute in Hloop. injection Hloop as <- <-.
  exists
    {| reader := {| source := []; latestLine := []; isEOF := true;
                    maxLineLength := 32 |};
       batch := [{| Labels := Some 2%positive; NumericLabels := None;
                    OtherFields := "{'transaction':{'id':1}}" |};
                 {| Labels := Some 3%positive; NumericLabels := None;
                    OtherFields := "{'span':{'id':2}}" |}];
       result := Sample.emptyResult;
       heap := {| labelMaps :=
                    <[ 3%positive :=
                         <[ "seen" := "{'span':{'id':2}}" ]> {[ "env" := "prod" ]} ]>
                      (<[ 2%positive :=
                            <[ "seen" := "{'transaction':{'id':1}}" ]>
                              {[ "env" := "prod" ]} ]>
                         {[ 1%positive := {[ "env" := "prod" ]} ]});
                  numericLabelMaps := ∅ |} |}.
  split; [vm_compute; reflexivity|]. split; [reflexivity|].
  split; [exact Hkeep|]. split; reflexivity.
Defined.

(** ** Admission *)

Section Admission.

Import Semaphore.

Lemma count_holding_cons (ph : phase) (l : list phase) :
  count_holding (ph :: l)
  = ((if is_Holding ph then 1 else 0) + count_holding l)%nat.
Proof.
  unfold count_holding. rewrite filter_cons.
  destruct (is_Holding ph) eqn:E; case_decide; simpl; congruence.
Qed.

Lemma count_holding_app (l1 l2 : list phase) :
  count_holding (l1 ++ l2) = (count_holding l1 + count_holding l2)%nat.
Proof.
  induction l1 as [|ph l1 IH]; [reflexivity|].
  rewrite <- app_comm_cons, !count_holding_cons, IH. lia.
Qed.

Lemma count_holding_insert (l : list phase) (i : nat) (old new : phase) :
  l !! i = Some old ->
  (count_holding (<[i := new]> l) + (if is_Holding old then 1 else 0)
   = count_holding l + (if is_Holding new then 1 else 0))%nat.
Proof.
  revert i. induction l as [|ph l IH]; intros i Hi; [discriminate|].
  destruct i as [|i]; simpl in Hi |- *.
  - injection Hi as ->. rewrite !count_holding_cons. lia.
  - rewrite !count_holding_cons. specialize (IH i Hi). lia.
Qed.

Lemma step_capacity (a : action) (c c' : system) :
  step a c = Some c' -> capacity c' = capacity c.
Proof.
  destruct a as [|i|i e|i]; simpl.
  - now intros [= <-].
  - destruct (calls c !! i) as [[]|]; try discriminate.
    destruct (buffered c <? capacity c)%nat; [now intros [= <-] | discriminate].
  - destruct (calls c !! i) as [[]|]; try discriminate. now intros [= <-].
  - destruct (calls c !! i) as [[]|]; try discriminate.
    destruct (buffered c); [discriminate | now intros [= <-]].
Qed.

Lemma step_balanced (a : action) (c c' : system) :
  balanced c -> step a c = Some c' -> balanced c'.
Proof.
  unfold balanced, holding. intros [Hb Hc].
  destruct a as [|i|i e|i]; simpl.
  - intros [= <-]. simpl. rewrite count_holding_app.
    change (count_holding [AtSelect]) with 0%nat. lia.
  - destruct (calls c !! i) as [[]|] eqn:Hi; try discriminate.
    destruct (Nat.ltb_spec (buffered c) (capacity c)); [|discriminate].
    intros [= <-]. simpl.
    pose proof (count_holding_insert (calls c) i AtSelect Holding Hi) as Hn.
    simpl in Hn. lia.
  - destruct (calls c !! i) as [[]|] eqn:Hi; try discriminate.
    intros [= <-]. simpl.
    pose proof (count_holding_insert (calls c) i AtSelect (Cancelled e) Hi) as Hn.
    simpl in Hn. lia.
  - destruct (calls c !! i) as [[]|] eqn:Hi; try discriminate.
    destruct (buffered c) as [|b] eqn:Hbuf; [discriminate|].
    intros [= <-]. simpl.
    pose proof (count_holding_insert (calls c) i Holding Released Hi) as Hn.
    simpl in Hn. lia.
Qed.

Lemma exec_balanced (schedule : list action) :
  forall c c', balanced c -> exec schedule c = Some c' ->
               balanced c' /\ capacity c' = capacity c.
Proof.
  induction schedule as [|a schedule IH]; intros c c' Hc; simpl.
  - intros [= <-]. now split.
  - destruct (step a c) as [c1|] eqn:Hstep; [|discriminate].
    intros Hexec.
    destruct (IH c1 c' (step_balanced a c c1 Hc Hstep) Hexec) as [Hb Hcap].
    split; [exact Hb|]. rewrite Hcap. now apply (step_capacity a).
Qed.

Lemma init_balanced (C : nat) : balanced (init C).
Proof. split; simpl; [reflexivity | lia]. Qed.

End Admission.

(** C9: whatever the capacity [C] of the semaphore channel and however the
    calls of [HandleStream] that share it are interleaved, at most [C] of
    them hold a slot (are past the [select] and before the deferred
    receive) at any time, and the deferred
    release of a call that holds a slot can always be taken; a call whose context
    is done at the [select] returns the context's error at once, holds no
    slot, and touches neither the reader, the result nor the downstream
    processor. *)
Theorem C9_at_most_capacity_calls_hold_a_slot
    {Fields LabelValue NumericLabelValue Downstream : Type} (C : nat) :
  (forall (schedule : list Semaphore.action) (c : Semaphore.system),
     Semaphore.exec schedule (Semaphore.init C) = Some c ->
     (Semaphore.holding c <= C)%nat /\
     Semaphore.buffered c = Semaphore.holding c /\
     (forall i, Semaphore.calls c !! i = Some Semaphore.Holding ->
                exists c', Semaphore.step (Semaphore.Release i) c = Some c' /\
                           Semaphore.holding c' = pred (Semaphore.holding c)) /\
     (forall i, Semaphore.holding c = C ->
                Semaphore.step (Semaphore.SelectSend i) c = None) /\
     (forall i ctxErr,
        Semaphore.calls c !! i = Some Semaphore.AtSelect ->
        exists c',
          Semaphore.step (Semaphore.SelectDone i ctxErr) c = Some c' /\
          Semaphore.calls c' !! i = Some (Semaphore.Cancelled ctxErr) /\
          Semaphore.buffered c' = Semaphore.buffered c /\
          Semaphore.holding c' = Semaphore.holding c)) /\
  (forall (errorsLimit : nat) (decoders : Decoders Fields LabelValue NumericLabelValue)
          (fuel : nat) (p : Processor Fields LabelValue NumericLabelValue)
          (processor : BatchProcessor Fields LabelValue NumericLabelValue Downstream)
          baseEvent r batchSize res h d ctxErr,
     Semaphore.admission_of (Semaphore.Cancelled ctxErr) = Some (ContextDone ctxErr) /\
     exists st,
       HandleStream errorsLimit decoders fuel p (ContextDone ctxErr) baseEvent r
         batchSize processor res h d = Done (Some ctxErr) st /\
       run_result st = res /\ run_heap st = h /\ run_downstream st = d).
Proof.
  split.
  - intros schedule c Hexec.
    destruct (exec_balanced schedule _ c (init_balanced C) Hexec) as [Hbal Hcap].
    pose proof Hbal as [Hb Hle].
    simpl in Hcap. rewrite Hcap in Hle.
    split; [lia|]. split; [exact Hb|]. split; [|split].
    + intros i Hi.
      pose proof (count_holding_insert (Semaphore.calls c) i
                    Semaphore.Holding Semaphore.Released Hi) as Hn.
      unfold Semaphore.holding in Hb. simpl in Hn.
      destruct (Semaphore.step (Semaphore.Release i) c) as [c'|] eqn:Hstep.
      * exists c'. split; [reflexivity|].
        simpl in Hstep. rewrite Hi in Hstep.
        destruct (Semaphore.buffered c) as [|b] eqn:Hbuf; [discriminate|].
        injection Hstep as <-. unfold Semaphore.holding. simpl. lia.
      * exfalso. simpl in Hstep. rewrite Hi in Hstep.
        destruct (Semaphore.buffered c) as [|b] eqn:Hbuf; [lia | discriminate].
    + intros i Hfull. simpl.
      destruct (Semaphore.calls c !! i) as [[]|]; try reflexivity.
      destruct (Nat.ltb_spec (Semaphore.buffered c) (Semaphore.capacity c));
        [lia | reflexivity].
    + intros i ctxErr Hi. simpl. rewrite Hi.
      eexists. split; [reflexivity|]. simpl.
      split; [apply list_lookup_insert_eq; now apply lookup_lt_Some in Hi|].
      split; [reflexivity|].
      pose proof (count_holding_insert (Semaphore.calls c) i
                    Semaphore.AtSelect (Semaphore.Cancelled ctxErr) Hi) as Hn.
      unfold Semaphore.holding. simpl in Hn |- *. lia.
  - intros. split; [reflexivity|]. eexists. split; [reflexivity|]. now repeat split.
Qed.

Lemma C9_at_most_capacity_calls_hold_a_slot_witness :
  exists c,
    Semaphore.exec
      [Semaphore.Arrive; Semaphore.Arrive; Semaphore.Arrive; Semaphore.Arrive;
       Semaphore.SelectSend 0; Semaphore.SelectSend 2;
       Semaphore.SelectDone 1 (errorString "context canceled");
       Semaphore.Release 0; Semaphore.SelectSend 3]
      (Semaphore.init 2) = Some c /\
    Semaphore.calls c
    = [Semaphore.Released; Semaphore.Cancelled (errorString "context canceled");
       Semaphore.Holding; Semaphore.Holding] /\
    (Semaphore.holding c <= 2)%nat /\
    Semaphore.step (Semaphore.SelectSend 1) c = None.
Proof.
  pose proof (proj1 (@C9_at_most_capacity_calls_hold_a_slot unit unit unit unit 2)
                [Semaphore.Arrive; Semaphore.Arrive; Semaphore.Arrive;
                 Semaphore.Arrive; Semaphore.SelectSend 0; Semaphore.SelectSend 2;
                 Semaphore.SelectDone 1 (errorString "context canceled");
                 Semaphore.Release 0; Semaphore.SelectSend 3]
                {| Semaphore.capacity := 2; Semaphore.buffered := 2;
                   Semaphore.calls :=
                     [Semaphore.Released;
                      Semaphore.Cancelled (errorString "context canceled");
                      Semaphore.Holding; Semaphore.Holding] |}
                eq_refl) as (Hle & _ & _ & Hfull & _).
  eexists. split; [reflexivity|]. split; [reflexivity|].
  split; [exact Hle|]. apply Hfull. reflexivity.
Defined.

(** * Further properties of the stream processor *)

(** ** [wrapError] *)

(** X1: [wrapError] returns nil exactly for nil and [io.EOF] exactly for
    [io.EOF]: it neither hides an error nor turns another error into end of
    input, which the callers test for after wrapping. *)
Theorem X1_wrapError_keeps_nil_and_EOF (sr : streamReader) (err : option error) :
  (wrapError sr err = None <-> err = None) /\
  (wrapError sr err = Some io_EOF <-> err = Some io_EOF).
Proof.
  destruct err as [e|]; [|simpl; split; split; intros H; exact H].
  destruct (wrapError_Some sr e) as (e' & Hw & He'). rewrite Hw.
  split; split; intros H; try discriminate H.
  - injection H as He. subst e'.
    destruct He' as [He' | <-]; [discriminate He' | reflexivity].
  - injection H as He. subst e. simpl in Hw. symmetry. exact Hw.
Qed.

(** X2: wrapping twice is wrapping once, whatever reader does the second
    wrapping: an error that went through [wrapError] is left as it is. *)
Theorem X2_wrapError_idempotent (sr sr' : streamReader) (err : option error) :
  wrapError sr' (wrapError sr err) = wrapError sr err.
Proof.
  destruct err as [e|]; [|reflexivity].
  destruct e; simpl; try reflexivity;
    match goal with
    | |- context [if ?b then _ else _] => destruct b eqn:E; simpl; try reflexivity
    end;
    try (rewrite E; reflexivity).
Qed.

(** X3: the error [wrapError] returns carries the too-large flag exactly
    when the error it was given wraps [decoder.ErrLineTooLong] or carried
    the flag already; an error that wraps [decoder.ErrLineTooLong] becomes
    the too-large error with the latest line; any other error keeps its
    message, and is returned as it is unless it is a JSON decode error. *)
Theorem X3_wrapError_flag_and_message (sr : streamReader) (e e' : error) :
  wrapError sr (Some e) = Some e' ->
  is_TooLarge e' = errors_Is_ErrLineTooLong e || is_TooLarge e /\
  (errors_Is_ErrLineTooLong e = true ->
   e' = InvalidInputError true "event exceeded the permitted size."
          (string_of_bytes (LatestLine sr))) /\
  (errors_Is_ErrLineTooLong e = false -> Error e' = Error e) /\
  (errors_Is_ErrLineTooLong e = false -> is_JSONDecodeError e = false -> e' = e).
Proof.
  intros H.
  destruct e; simpl in H |- *;
    try match type of H with
        | context [if ?b then _ else _] => destruct b eqn:E
        end;
    injection H as <-; simpl;
    (split; [|split; [|split]]); intros; first [reflexivity | discriminate].
Qed.

Lemma X3_wrapError_flag_and_message_witness :
  is_TooLarge
    (InvalidInputError true "event exceeded the permitted size." "{'e':")
  = true /\
  Error (DecoderError (errorString "validation error")) = "validation error".
Proof.
  pose (sr := {| source := []; latestLine := Sample.bytes "{'e':"; isEOF := false;
                 maxLineLength := 5 |}).
  split.
  - exact (proj1 (X3_wrapError_flag_and_message sr
             (DecoderError (withMessage ErrLineTooLong "reading"))
             _ eq_refl)).
  - exact (proj1 (proj2 (proj2 (X3_wrapError_flag_and_message sr
             (DecoderError (errorString "validation error")) _ eq_refl)))
             eq_refl).
Defined.

(** ** [readMetadata] *)

(** [readMetadata] never panics; it returns nil exactly when the
    metadata decoder does, and otherwise an invalid-input error. *)
Lemma readMetadata_Ok {Fields LabelValue NumericLabelValue : Type}
    (p : Processor Fields LabelValue NumericLabelValue)
    (rd : streamReader) (out : APMEvent Fields)
    (h : store LabelValue NumericLabelValue) sr out' h' cond :
  decodeMetadata p rd out h = (sr, out', h', cond) ->
  exists ret,
    readMetadata p rd out h = Ok (sr, out', h', ret) /\
    (ret = None <-> cond = None) /\
    (forall err, ret = Some err -> is_InvalidInputError err = true).
Proof.
  intros Hmeta. unfold readMetadata. rewrite Hmeta.
  destruct cond as [e|]; [|exists None; now repeat split].
  destruct (wrapError_Some sr e) as (e' & -> & _).
  destruct (is_EOF e'); [|destruct (is_InvalidInputError e') eqn:Hinv];
    eexists; (split; [reflexivity|]);
    (split; [split; discriminate|]); intros err [= <-];
    first [reflexivity | exact Hinv].
Qed.

(** X4: the error [readMetadata] returns, by the error of the metadata
    decoder: an invalid-input error of the decoder is returned as it is; an
    error that wraps [decoder.ErrLineTooLong] becomes the too-large error
    with the latest line; any other error becomes an invalid-input error
    with the latest line as its document and the decoder's message, or
    "EOF while reading metadata" when the error is [io.EOF] itself. *)
Theorem X4_readMetadata_error_report
    {Fields LabelValue NumericLabelValue : Type}
    (p : Processor Fields LabelValue NumericLabelValue)
    (rd : streamReader) (out : APMEvent Fields)
    (h : store LabelValue NumericLabelValue) sr out' h' (e : error) :
  decodeMetadata p rd out h = (sr, out', h', Some e) ->
  exists err,
    readMetadata p rd out h = Ok (sr, out', h', Some err) /\
    (is_InvalidInputError e = true -> err = e) /\
    (errors_Is_ErrLineTooLong e = true ->
     err = InvalidInputError true "event exceeded the permitted size."
             (string_of_bytes (LatestLine sr))) /\
    (is_InvalidInputError e = false -> errors_Is_ErrLineTooLong e = false ->
     err = InvalidInputError false
             (if is_EOF e then "EOF while reading metadata" else Error e)
             (string_of_bytes (LatestLine sr))).
Proof.
  intros Hmeta. unfold readMetadata. rewrite Hmeta.
  destruct e; simpl;
    try match goal with
        | |- context [if errors_Is_ErrLineTooLong ?c then _ else _] =>
            destruct (errors_Is_ErrLineTooLong c) eqn:E
        end;
    simpl; eexists; (split; [reflexivity|]);
    (split; [|split]); intros; first [reflexivity | discriminate].
Qed.

Lemma X4_readMetadata_error_report_witness :
  exists err,
    readMetadata Sample.processor
      (Sample.reader0
         [(Sample.bytes "{'metadata':", Some (errorString "connection reset"))])
      Sample.base Sample.baseStore
    = Ok ({| source := []; latestLine := Sample.bytes "{'metadata':";
             isEOF := false; maxLineLength := 32 |},
          Sample.base, Sample.baseStore, Some err) /\
    err = InvalidInputError false "connection reset" "{'metadata':".
Proof.
  destruct (X4_readMetadata_error_report Sample.processor
              (Sample.reader0 [(Sample.bytes "{'metadata':",
                                Some (errorString "connection reset"))])
              Sample.base Sample.baseStore _ _ _ _ eq_refl)
    as (err & Hrun & _ & _ & Herr).
  exists err. split; [exact Hrun|]. exact (Herr eq_refl eq_refl).
Defined.

(** ** [identifyEventType] *)

(** X5: bytes before the first quote character do not matter to
    [identifyEventType]: a document classifies as what remains of it once a
    prefix without quote characters is dropped. *)
Theorem X5_identifyEventType_skips_prefix (pre body : list byte) :
  no_quote pre ->
  identifyEventType (pre ++ body) = identifyEventType body.
Proof.
  intros Hpre.
  destruct (identifyEventType_cases body)
    as [[Hnq ->] | (pre' & q & tail & -> & Hpre' & Hq & Hcase)].
  - apply identifyEventType_no_quote. apply Forall_app. now split.
  - assert (Hboth : no_quote (pre ++ pre')) by (apply Forall_app; now split).
    rewrite app_assoc.
    destruct Hcase as [[Hl ->] | (tok & rest & -> & Hl & ->)].
    + now apply identifyEventType_unclosed.
    + now apply identifyEventType_quoted.
Qed.

Lemma X5_identifyEventType_skips_prefix_witness :
  identifyEventType (Sample.bytes "  {" ++ Sample.bytes "'span':{}}")
  = Ok (Some (Sample.bytes "span")).
Proof.
  rewrite (X5_identifyEventType_skips_prefix (Sample.bytes "  {")
             (Sample.bytes "'span':{}}")).
  - reflexivity.
  - repeat constructor.
Defined.

(** ** What one pass reads and records *)

Section Trace.

Context {Fields LabelValue NumericLabelValue : Type}.
Variable errorsLimit : nat.
Variable decoders : Decoders Fields LabelValue NumericLabelValue.

(** The two ways an iteration of the batch loop ends: it returns the
    error of a failed read, having changed nothing but the reader, or it
    goes on, having appended the events of at most one document and
    recorded at most one error, an invalid-input error. *)
Lemma readBatch_iter_cases (baseEvent : APMEvent Fields)
    (s : state Fields LabelValue NumericLabelValue) :
  let rd := fst (ReadAhead (reader s)) in
  (exists e,
      readBatch_iter errorsLimit decoders baseEvent s =
      Ok ({| reader := rd; batch := batch s; result := result s; heap := heap s |},
          Return (Some e)) /\
      is_EOF e = false /\ errors_As_InvalidInputError e = false) \/
  (exists res events h',
      readBatch_iter errorsLimit decoders baseEvent s =
      Ok ({| reader := rd; batch := batch s ++ events; result := res; heap := h' |},
          Next) /\
      (res = result s \/
       exists e, res = LimitedAdd errorsLimit (result s) e /\
                 errors_As_InvalidInputError e = true) /\
      (events = [] \/
       exists tok,
         events = fst (fst (decodeEvent decoders tok (LatestLine rd)
                              (fst (copyEvent baseEvent (heap s)))
                              (snd (copyEvent baseEvent (heap s))))))).
Proof.
  unfold readBatch_iter.
  destruct (ReadAhead (reader s)) as [rd [body cond]]. cbn [fst].
  assert (Hdoc :
    exists res events h',
      (if (length body =? 0)%nat
       then Ok ({| reader := rd; batch := batch s; result := result s;
                   heap := heap s |}, Next)
       else
         let '(base, h) := copyEvent baseEvent (heap s) in
         try! eventType := identifyEventType body in
         let '(events, h0, err) :=
           decodeEvent decoders eventType (LatestLine rd) base h in
         Ok ({| reader := rd; batch := batch s ++ events;
                result :=
                  match err with
                  | Some e =>
                      if negb (is_EOF e)
                      then LimitedAdd errorsLimit (result s)
                             (InvalidInputError false (Error e)
                                (string_of_bytes (LatestLine rd)))
                      else result s
                  | None => result s
                  end;
                heap := h0 |}, Next)) =
      Ok ({| reader := rd; batch := batch s ++ events; result := res; heap := h' |},
          Next) /\
      (res = result s \/
       exists e, res = LimitedAdd errorsLimit (result s) e /\
                 errors_As_InvalidInputError e = true) /\
      (events = [] \/
       exists tok,
         events = fst (fst (decodeEvent decoders tok (LatestLine rd)
                              (fst (copyEvent baseEvent (heap s)))
                              (snd (copyEvent baseEvent (heap s))))))).
  { destruct (length body =? 0)%nat.
    - exists (result s), [], (heap s). rewrite app_nil_r.
      split; [reflexivity|]. split; now left.
    - destruct (copyEvent baseEvent (heap s)) as [base h]. cbn [fst snd].
      destruct (identifyEventType_total body) as [tok ->]. cbn [go_bind].
      destruct (decodeEvent decoders tok (LatestLine rd) base h)
        as [[events h0] err] eqn:Hdec.
      eexists _, events, h0. split; [reflexivity|]. split.
      + destruct err as [e1|]; [destruct (is_EOF e1)|]; cbn [negb];
          [now left | right | now left].
        eexists. split; reflexivity.
      + right. exists tok. now rewrite Hdec. }
  destruct cond as [e|]; [destruct (is_EOF e) eqn:Heof|]; cbn [negb];
    cbn [reader batch result heap]; try (right; exact Hdoc).
  destruct (wrapError_Some rd e) as (e' & Hw & _).
  pose proof (wrapError_not_EOF rd e e' Hw Heof) as Heof'.
  rewrite Hw. destruct (errors_As_InvalidInputError e') eqn:Has.
  - right. eexists _, [], (heap s). rewrite app_nil_r.
    split; [reflexivity|]. split; [right; now exists e' | now left].
  - left. exists e'. now split.
Qed.

(** At end of input the loop does not run. *)
Lemma readBatch_loop_at_EOF (iters : nat) (baseEvent : APMEvent Fields)
    (s : state Fields LabelValue NumericLabelValue) :
  isEOF (reader s) = true ->
  readBatch_loop errorsLimit decoders iters baseEvent s = Ok (s, Next).
Proof.
  intros Heof. destruct iters; cbn [readBatch_loop]; [reflexivity|].
  unfold IsEOF. now rewrite Heof.
Qed.

Lemma ReadAhead_empty_isEOF (sr : streamReader) :
  source sr = [] -> isEOF (fst (ReadAhead sr)) = true.
Proof. intros H. now rewrite (ReadAhead_exhausted sr H). Qed.

Ltac idle_pass s :=
  exists s, Next, 0%nat, (@nil error); rewrite app_nil_r; cbn [skipn length];
  split; [reflexivity|]; split; [lia|]; split; [reflexivity|];
  split; [lia|];
  split; [intros _ H; first [congruence | split; [reflexivity | lia]]|];
  split; [discriminate|]; split; [reflexivity|]; split; [lia|];
  split; [constructor | lia].

(** A pass of [iters] iterations at most: [k] of them ran, each read one
    line and recorded at most one error, an invalid-input error. *)
Lemma readBatch_loop_trace (iters : nat) (baseEvent : APMEvent Fields) :
  forall s : state Fields LabelValue NumericLabelValue,
  exists s' fl k added,
    readBatch_loop errorsLimit decoders iters baseEvent s = Ok (s', fl) /\
    (k <= iters)%nat /\
    source (reader s') = skipn k (source (reader s)) /\
    (reads_left (reader s') + k <= reads_left (reader s))%nat /\
    (fl = Next -> isEOF (reader s') = false ->
     k = iters /\ (k <= length (source (reader s)))%nat) /\
    (forall err, fl = Return err -> terminal err) /\
    Errors (result s') = Errors (result s) ++ added /\
    (length added <= k)%nat /\
    Forall (fun e => errors_As_InvalidInputError e = true) added /\
    (length (Errors (result s'))
     <= Nat.max errorsLimit (length (Errors (result s))))%nat.
Proof.
  induction iters as [|iters IH]; intros s; cbn [readBatch_loop].
  - idle_pass s.
  - unfold IsEOF. destruct (isEOF (reader s)) eqn:Heof.
    + idle_pass s.
    + pose proof (ReadAhead_reads_left (reader s) Heof) as Hrl.
      pose proof (ReadAhead_source (reader s)) as Hsrc.
      destruct (readBatch_iter_cases baseEvent s)
        as [(e & Hit & He & Has) | (res & events & h' & Hit & Hres & _)];
        rewrite Hit; cbn [go_bind].
      * exists {| reader := fst (ReadAhead (reader s)); batch := batch s;
                  result := result s; heap := heap s |}, (Return (Some e)),
               1%nat, [].
        cbn [reader result]. rewrite app_nil_r, Hsrc.
        split; [reflexivity|]. split; [lia|].
        split; [now destruct (source (reader s))|].
        split; [lia|]. split; [discriminate|].
        split; [intros err [= <-]; now exists e|].
        split; [reflexivity|]. split; [cbn [length]; lia|].
        split; [constructor | lia].
      * set (s1 := {| reader := fst (ReadAhead (reader s));
                      batch := batch s ++ events; result := res; heap := h' |}).
        destruct (IH s1) as (s' & fl & k & added & Hloop & Hk & Hsk & Hleft
                             & Hfull & Hret & Herr & Hlen & Hall & Hcap).
        subst s1. cbn [reader result] in *.
        assert (Hone : exists first,
                   Errors res = Errors (result s) ++ first /\
                   (length first <= 1)%nat /\
                   Forall (fun e => errors_As_InvalidInputError e = true) first /\
                   (length (Errors res)
                    <= Nat.max errorsLimit (length (Errors (result s))))%nat).
        { destruct Hres as [-> | (e & -> & He)].
          - exists []. rewrite app_nil_r.
            split; [reflexivity|]. split; [cbn [length]; lia|].
            split; [constructor | lia].
          - rewrite Errors_LimitedAdd.
            destruct (Nat.ltb_spec (length (Errors (result s))) errorsLimit).
            + exists [e]. split; [reflexivity|]. split; [cbn [length]; lia|].
              split; [now constructor|]. rewrite length_app. cbn [length]. lia.
            + exists []. split; [reflexivity|]. split; [cbn [length]; lia|].
              split; [constructor|]. rewrite app_nil_r. lia. }
        destruct Hone as (first & Hfirst & Hlen1 & Hall1 & Hcap1).
        exists s', fl, (S k), (first ++ added).
        split; [exact Hloop|]. split; [lia|].
        split; [rewrite Hsk, Hsrc; destruct (source (reader s));
                [now destruct k | reflexivity]|].
        split; [lia|].
        split.
        { intros Hfl Hne. destruct (Hfull Hfl Hne) as [-> Hle].
          split; [reflexivity|].
          destruct (source (reader s)) as [|l0 rest] eqn:Hs0.
          - exfalso.
            rewrite readBatch_loop_at_EOF in Hloop
              by (cbn [reader]; apply ReadAhead_empty_isEOF; exact Hs0).
            injection Hloop as <- <-. cbn [reader] in Hne.
            rewrite (ReadAhead_empty_isEOF _ Hs0) in Hne. discriminate Hne.
          - rewrite Hsrc in Hle. cbn [tl length] in *. lia. }
        split; [exact Hret|].
        split; [now rewrite Herr, Hfirst, app_assoc|].
        split; [rewrite length_app; lia|].
        split; [now apply Forall_app|]. lia.
Qed.

(** What a pass does to the result. *)
Lemma readBatch_errors (baseEvent : APMEvent Fields) (batchSize : Z)
    (s : state Fields LabelValue NumericLabelValue) :
  exists n sig s' added,
    readBatch errorsLimit decoders baseEvent batchSize s = Ok (n, sig, s') /\
    Accepted (result s') = Accepted (result s) /\
    Errors (result s') = Errors (result s) ++ added /\
    Forall (fun e => errors_As_InvalidInputError e = true) added /\
    (length added <= Z.to_nat batchSize)%nat /\
    (length (Errors (result s'))
     <= Nat.max errorsLimit (length (Errors (result s))))%nat.
Proof.
  destruct (readBatch_shape errorsLimit decoders baseEvent batchSize s)
    as (n & sig & s' & ap & Hrb & _ & _ & _ & Hacc & _).
  exists n, sig, s'. revert Hrb. unfold readBatch.
  destruct (readBatch_loop_trace (Z.to_nat batchSize) baseEvent s)
    as (s1 & fl & k & added & Hloop & Hk & _ & _ & _ & _ & Herr & Hlen & Hall & Hcap).
  rewrite Hloop. cbn [go_bind]. intros Hrb.
  assert (Hs : s1 = s')
    by (destruct fl as [|err]; [destruct (IsEOF (reader s1))|]; congruence).
  subst s1. exists added.
  assert (Hlen' : (length added <= Z.to_nat batchSize)%nat) by lia.
  now repeat split.
Qed.

(** A pass that ends with the nil signal went through all its
    iterations without reaching end of input. *)
Lemma readBatch_nil_signal (baseEvent : APMEvent Fields) (batchSize : Z)
    (s s' : state Fields LabelValue NumericLabelValue) (n : Z) :
  readBatch errorsLimit decoders baseEvent batchSize s = Ok (n, None, s') ->
  readBatch_loop errorsLimit decoders (Z.to_nat batchSize) baseEvent s
  = Ok (s', Next) /\
  isEOF (reader s') = false /\
  n = Z.of_nat (length (batch s')) - Z.of_nat (length (batch s)).
Proof.
  unfold readBatch.
  destruct (readBatch_loop_trace (Z.to_nat batchSize) baseEvent s)
    as (s1 & fl & k & added & Hloop & _ & _ & _ & _ & Hret & _).
  rewrite Hloop. cbn [go_bind]. destruct fl as [|err].
  - unfold IsEOF. destruct (isEOF (reader s1)) eqn:Heof; intros [= <- <-].
    now repeat split.
  - intros [= <- -> <-]. destruct (Hret None eq_refl) as (e & He & _).
    discriminate He.
Qed.

(** A pass of at least one iteration that ends with the nil signal has
    used up some of the reads the reader had left. *)
Lemma readBatch_progress (baseEvent : APMEvent Fields) (batchSize : Z)
    (s s' : state Fields LabelValue NumericLabelValue) (n : Z) :
  1 <= batchSize ->
  readBatch errorsLimit decoders baseEvent batchSize s = Ok (n, None, s') ->
  (reads_left (reader s') < reads_left (reader s))%nat.
Proof.
  intros Hsize Hrb. destruct (readBatch_nil_signal _ _ _ _ _ Hrb) as (Hloop & Heof & _).
  destruct (readBatch_loop_trace (Z.to_nat batchSize) baseEvent s)
    as (s1 & fl & k & added & Hloop1 & _ & _ & Hleft & Hfull & _).
  rewrite Hloop in Hloop1. injection Hloop1 as <- <-.
  destruct (Hfull eq_refl Heof) as [-> _]. lia.
Qed.

End Trace.

(** X6: every iteration of the batch loop reads one line: a pass takes
    at most [batchSize] lines from the front of the source and leaves the
    rest unread, and a pass that ends with the nil signal has taken
    exactly [batchSize] lines, all of which the source had. *)
Theorem X6_readBatch_reads_one_line_per_iteration
    {Fields LabelValue NumericLabelValue : Type}
    (errorsLimit : nat) (decoders : Decoders Fields LabelValue NumericLabelValue)
    (baseEvent : APMEvent Fields) (batchSize : Z)
    (s : state Fields LabelValue NumericLabelValue) :
  exists n sig s' k,
    readBatch errorsLimit decoders baseEvent batchSize s = Ok (n, sig, s') /\
    (k <= Z.to_nat batchSize)%nat /\
    source (reader s') = skipn k (source (reader s)) /\
    (sig = None ->
     k = Z.to_nat batchSize /\ (k <= length (source (reader s)))%nat).
Proof.
  unfold readBatch.
  destruct (readBatch_loop_trace errorsLimit decoders (Z.to_nat batchSize)
              baseEvent s)
    as (s' & fl & k & added & Hloop & Hk & Hsk & _ & Hfull & Hret & _).
  rewrite Hloop. cbn [go_bind]. destruct fl as [|err].
  - unfold IsEOF. destruct (isEOF (reader s')) eqn:Heof.
    + eexists _, _, s', k. split; [reflexivity|]. split; [exact Hk|].
      split; [exact Hsk | discriminate].
    + eexists _, _, s', k. split; [reflexivity|]. split; [exact Hk|].
      split; [exact Hsk | intros _; now apply Hfull].
  - eexists _, _, s', k. split; [reflexivity|]. split; [exact Hk|].
    split; [exact Hsk|]. intros ->.
    destruct (Hret None eq_refl) as (e & He & _). discriminate He.
Qed.

(** X7: a pass of [readBatch] leaves the accepted count alone and only
    appends to the error list: the errors already recorded stay, in order,
    every error added is an invalid-input error, at most one is added for
    each of the [batchSize] iterations, and the list does not grow beyond
    the cap. *)
Theorem X7_readBatch_records_invalid_input_only
    {Fields LabelValue NumericLabelValue : Type}
    (errorsLimit : nat) (decoders : Decoders Fields LabelValue NumericLabelValue)
    (baseEvent : APMEvent Fields) (batchSize : Z)
    (s : state Fields LabelValue NumericLabelValue) :
  exists n sig s' added,
    readBatch errorsLimit decoders baseEvent batchSize s = Ok (n, sig, s') /\
    Accepted (result s') = Accepted (result s) /\
    Errors (result s') = Errors (result s) ++ added /\
    Forall (fun e => errors_As_InvalidInputError e = true) added /\
    (length added <= Z.to_nat batchSize)%nat /\
    (length (Errors (result s'))
     <= Nat.max errorsLimit (length (Errors (result s))))%nat.
Proof.
  destruct (readBatch_shape errorsLimit decoders baseEvent batchSize s)
    as (n & sig & s' & ap & Hrb & _ & _ & _ & Hacc & _).
  exists n, sig, s'. revert Hrb. unfold readBatch.
  destruct (readBatch_loop_trace errorsLimit decoders (Z.to_nat batchSize)
              baseEvent s)
    as (s1 & fl & k & added & Hloop & Hk & _ & _ & _ & _ & Herr & Hlen & Hall & Hcap).
  rewrite Hloop. cbn [go_bind]. intros Hrb.
  assert (Hs : s1 = s')
    by (destruct fl as [|err]; [destruct (IsEOF (reader s1))|]; congruence).
  subst s1. exists added.
  split; [exact Hrb|]. split; [exact Hacc|]. split; [exact Herr|].
  split; [exact Hall|]. split; [lia | exact Hcap].
Qed.

(** X8: passes compose: when a pass of [a] iterations ends with the nil
    signal, a pass of [a + b] iterations from the same state is that pass
    followed by a pass of [b] iterations, the two counts added. *)
Theorem X8_readBatch_passes_compose
    {Fields LabelValue NumericLabelValue : Type}
    (errorsLimit : nat) (decoders : Decoders Fields LabelValue NumericLabelValue)
    (baseEvent : APMEvent Fields) (a b : Z)
    (s s1 : state Fields LabelValue NumericLabelValue) (n1 : Z) :
  0 <= a -> 0 <= b ->
  readBatch errorsLimit decoders baseEvent a s = Ok (n1, None, s1) ->
  readBatch errorsLimit decoders baseEvent (a + b) s =
  try! r := readBatch errorsLimit decoders baseEvent b s1 in
  let '(n2, sig, s2) := r in Ok (n1 + n2, sig, s2).
Proof.
  intros Ha Hb Hrb.
  destruct (readBatch_nil_signal errorsLimit decoders _ _ _ _ _ Hrb)
    as (Hloop & _ & ->).
  unfold readBatch.
  rewrite Z2Nat.inj_add by lia.
  rewrite (readBatch_loop_split errorsLimit decoders _ _ baseEvent s s1 Hloop).
  destruct (readBatch_loop errorsLimit decoders (Z.to_nat b) baseEvent s1)
    as [[s2 fl]|]; cbn [go_bind]; [|reflexivity].
  destruct fl as [|err]; [destruct (IsEOF (reader s2))|]; cbn [go_bind];
    do 2 f_equal; f_equal; lia.
Qed.

Lemma X8_readBatch_passes_compose_witness :
  exists n1 s1,
    readBatch 5 Sample.decoders Sample.base 1
      (Sample.state0 (Sample.lines [Sample.good1; Sample.good2; Sample.good3]))
    = Ok (n1, None, s1) /\
    readBatch 5 Sample.decoders Sample.base (1 + 1)
      (Sample.state0 (Sample.lines [Sample.good1; Sample.good2; Sample.good3]))
    = try! r := readBatch 5 Sample.decoders Sample.base 1 s1 in
      let '(n2, sig, s2) := r in Ok (n1 + n2, sig, s2).
Proof.
  eexists _, _. split; [vm_compute; reflexivity|].
  apply X8_readBatch_passes_compose; [lia | lia | vm_compute; reflexivity].
Defined.

(** ** Whole runs of [HandleStream] *)

Lemma after_signal_Next (sig : option error) : after_signal sig = Next -> sig = None.
Proof.
  unfold after_signal. destruct sig as [e|]; [|reflexivity].
  destruct (is_EOF e); discriminate.
Qed.

Lemma after_signal_Return (sig ret : option error) :
  after_signal sig = Return ret ->
  (sig = Some io_EOF /\ ret = None) \/
  (exists e, sig = Some e /\ ret = Some e /\ is_EOF e = false).
Proof.
  unfold after_signal. destruct sig as [e|]; [|discriminate].
  destruct (is_EOF e) eqn:He; intros [= <-].
  - left. destruct e; try discriminate He. now split.
  - right. now exists e.
Qed.

Lemma ReadAhead_maxLineLength (sr : streamReader) :
  maxLineLength (fst (ReadAhead sr)) = maxLineLength sr.
Proof.
  unfold ReadAhead. destruct (source sr) as [|[line cond] rest]; [reflexivity|].
  now destruct (Z.of_nat (length line) >? maxLineLength sr).
Qed.

(** A read that reports an error outside the invalid-input class, other
    than [io.EOF], reports the condition that came with the next line of
    the source, a line within the size limit. *)
Lemma ReadAhead_failed_entry (sr rd : streamReader) (body : list byte) (e : error) :
  ReadAhead sr = (rd, (body, Some e)) ->
  is_EOF e = false ->
  wrapError rd (Some e) = Some e ->
  exists line,
    source sr !! 0%nat = Some (line, Some e) /\ fits (maxLineLength sr) line.
Proof.
  unfold ReadAhead, fits. destruct (source sr) as [|[line cond] rest].
  - intros [= _ _ <-]. discriminate.
  - destruct (Z.gtb_spec (Z.of_nat (length line)) (maxLineLength sr)).
    + intros [= <- _ <-] _ Hw. discriminate Hw.
    + intros [= _ _ ->] _ _. exists line. split; [reflexivity | lia].
Qed.

Section RunSignal.

Context {Fields LabelValue NumericLabelValue : Type}.
Variable errorsLimit : nat.
Variable decoders : Decoders Fields LabelValue NumericLabelValue.

(** The reader after some iterations is the reader before with lines
    taken from the front of its source. *)
Lemma readBatch_loop_reader (iters : nat) (baseEvent : APMEvent Fields) :
  forall (s s' : state Fields LabelValue NumericLabelValue) (fl : flow),
  readBatch_loop errorsLimit decoders iters baseEvent s = Ok (s', fl) ->
  maxLineLength (reader s') = maxLineLength (reader s) /\
  exists k, source (reader s') = skipn k (source (reader s)).
Proof.
  induction iters as [|iters IH]; intros s s' fl; cbn [readBatch_loop].
  - intros [= <- <-]. split; [reflexivity | now exists 0%nat].
  - destruct (IsEOF (reader s)).
    + intros [= <- <-]. split; [reflexivity | now exists 0%nat].
    + destruct (readBatch_iter_shape errorsLimit decoders baseEvent s)
        as (s1 & fl1 & Hit & Hrd & _).
      rewrite Hit. cbn [go_bind].
      assert (Hone : maxLineLength (reader s1) = maxLineLength (reader s) /\
                     source (reader s1) = skipn 1 (source (reader s))).
      { rewrite Hrd, ReadAhead_maxLineLength, ReadAhead_source.
        split; [reflexivity | now destruct (source (reader s))]. }
      destruct Hone as [Hm Hs]. destruct fl1 as [|err].
      * intros Hloop. destruct (IH s1 s' fl Hloop) as (Hm' & k & Hk).
        split; [congruence|]. exists (1 + k)%nat.
        now rewrite Hk, Hs, skipn_skipn, Nat.add_comm.
      * intros [= <- <-]. split; [exact Hm | now exists 1%nat].
Qed.

(** The signal of a pass, by the source of the reader: [io.EOF] at end
    of input, nil before it, or the error that came with a line of the
    source, within the size limit, and that is neither [io.EOF] nor an
    invalid-input error. *)
Lemma readBatch_signal_source (baseEvent : APMEvent Fields) (batchSize : Z)
    (s s' : state Fields LabelValue NumericLabelValue) (n : Z)
    (sig : option error) :
  readBatch errorsLimit decoders baseEvent batchSize s = Ok (n, sig, s') ->
  maxLineLength (reader s') = maxLineLength (reader s) /\
  (exists k, source (reader s') = skipn k (source (reader s))) /\
  ((sig = Some io_EOF /\ isEOF (reader s') = true) \/
   (sig = None /\ isEOF (reader s') = false) \/
   (exists j line e,
       source (reader s) !! j = Some (line, Some e) /\
       fits (maxLineLength (reader s)) line /\
       is_EOF e = false /\ errors_As_InvalidInputError e = false /\
       sig = Some e)).
Proof.
  intros Hrb.
  destruct (readBatch_signal errorsLimit decoders baseEvent batchSize s)
    as (n0 & sig0 & s0 & ap & Hrb0 & _ & _ & _ & Hsig).
  rewrite Hrb in Hrb0. injection Hrb0 as <- <- <-.
  assert (Hrd : maxLineLength (reader s') = maxLineLength (reader s) /\
                exists k, source (reader s') = skipn k (source (reader s))).
  { revert Hrb. unfold readBatch.
    destruct (readBatch_loop errorsLimit decoders (Z.to_nat batchSize) baseEvent s)
      as [[s1 fl]|] eqn:Hloop; cbn [go_bind]; [|discriminate].
    intros Hrb. assert (s1 = s')
      by (destruct fl as [|err]; [destruct (IsEOF (reader s1))|]; congruence).
    subst s1. exact (readBatch_loop_reader _ baseEvent s s' fl Hloop). }
  destruct Hrd as [Hm Hk]. split; [exact Hm|]. split; [exact Hk|].
  destruct Hsig as [[_ ->] | (k & s1 & body & e & _ & Hpre & _ & HR & He & Hw & Has
                             & -> & _)].
  - destruct (isEOF (reader s')); [left | right; left]; now split.
  - right. right.
    destruct (readBatch_loop_reader k baseEvent s s1 Next Hpre) as (Hm1 & j & Hj).
    destruct (ReadAhead_failed_entry _ _ _ _ HR He Hw) as (line & Hl & Hfit).
    exists j, line, e. rewrite Hj, lookup_drop, Nat.add_0_r in Hl.
    rewrite Hm1 in Hfit. now repeat split.
Qed.

End RunSignal.

(** [HandleStream] returns before its loop, the result and the
    downstream processor untouched, or runs its loop on the caller's
    result. *)
Lemma HandleStream_cases {Fields LabelValue NumericLabelValue Downstream : Type}
    (errorsLimit : nat) (decoders : Decoders Fields LabelValue NumericLabelValue)
    (fuel : nat) (p : Processor Fields LabelValue NumericLabelValue)
    (adm : admission) (baseEvent : APMEvent Fields)
    (r : list (list byte * option error)) (batchSize : Z)
    (processor : BatchProcessor Fields LabelValue NumericLabelValue Downstream)
    (res : Result) (h : store LabelValue NumericLabelValue) (d : Downstream) :
  (exists e sr h1,
      HandleStream errorsLimit decoders fuel p adm baseEvent r batchSize
        processor res h d
      = Done (Some e) {| run_reader := sr; run_result := res; run_heap := h1;
                         run_downstream := d |} /\
      (adm = SlotAcquired ->
       is_InvalidInputError e = true /\
       exists base1 e0,
         decodeMetadata p (getStreamReader p r) baseEvent h
         = (sr, base1, h1, Some e0))) \/
  (exists sr base1 h1,
      adm = SlotAcquired /\
      decodeMetadata p (getStreamReader p r) baseEvent h = (sr, base1, h1, None) /\
      HandleStream errorsLimit decoders fuel p adm baseEvent r batchSize
        processor res h d
      = HandleStream_loop errorsLimit decoders fuel base1 batchSize processor
          {| run_reader := sr; run_result := res; run_heap := h1;
             run_downstream := d |}).
Proof.
  unfold HandleStream.
  destruct adm as [|ctxErr]; [|left; eexists _, _, _; split; [reflexivity|discriminate]].
  destruct (decodeMetadata p (getStreamReader p r) baseEvent h)
    as [[[sr base1] h1] cond] eqn:Hmeta.
  destruct (readMetadata_Ok p _ _ _ _ _ _ _ Hmeta) as (ret & -> & Hnil & Hinv).
  destruct ret as [err|].
  - left. exists err, sr, h1. split; [reflexivity|]. intros _.
    split; [now apply Hinv|].
    destruct cond as [e0|]; [now exists base1, e0|].
    destruct Hnil as [_ Hnil]. discriminate (Hnil eq_refl).
  - right. exists sr, base1, h1. split; [reflexivity|].
    split; [|reflexivity]. f_equal. now apply Hnil.
Qed.

Section Returns.

Context {Fields LabelValue NumericLabelValue Downstream : Type}.
Variable errorsLimit : nat.
Variable decoders : Decoders Fields LabelValue NumericLabelValue.
Variable processor : BatchProcessor Fields LabelValue NumericLabelValue Downstream.
Variable baseEvent : APMEvent Fields.
Variable batchSize : Z.

(** One round, by what [readBatch] returned and what the downstream
    processor answered. *)
Lemma HandleStream_iter_cases (st : run LabelValue NumericLabelValue Downstream) :
  exists n sig s st' fl,
    readBatch errorsLimit decoders baseEvent batchSize
      {| reader := run_reader st; batch := []; result := run_result st;
         heap := run_heap st |} = Ok (n, sig, s) /\
    HandleStream_iter errorsLimit decoders baseEvent batchSize processor st
    = Ok (st', fl) /\
    run_reader st' = reader s /\
    ((n <= 0 /\ fl = after_signal sig /\
      run_downstream st' = run_downstream st /\ run_result st' = result s) \/
     (n > 0 /\ exists d b h err,
        processor (run_downstream st) (batch s) (heap s) = (d, b, h, err) /\
        run_downstream st' = d /\
        match err with
        | Some e => fl = Return (Some e) /\ run_result st' = result s
        | None => fl = after_signal sig /\
                  run_result st' = AddAccepted (result s) (Z.of_nat (length b))
        end)) /\
    ((sig = Some io_EOF /\ isEOF (reader s) = true) \/
     (sig = None /\ isEOF (reader s) = false) \/
     terminal sig).
Proof.
  destruct (readBatch_shape errorsLimit decoders baseEvent batchSize
              {| reader := run_reader st; batch := []; result := run_result st;
                 heap := run_heap st |})
    as (n & sig & s & ap & Hrb & _ & _ & _ & _ & Hsig).
  destruct (Z.gtb_spec n 0) as [Hpos | Hnpos].
  - destruct (processor (run_downstream st) (batch s) (heap s))
      as [[[d b] h] [e|]] eqn:Hp.
    + eexists n, sig, s, _, _. split; [exact Hrb|].
      split; [exact (HandleStream_iter_reject errorsLimit decoders processor
                       baseEvent batchSize st n sig s d b h e Hrb ltac:(lia) Hp)|].
      split; [reflexivity|]. split; [|exact Hsig].
      right. split; [lia|]. exists d, b, h, (Some e). now repeat split.
    + eexists n, sig, s, _, _. split; [exact Hrb|].
      split; [exact (HandleStream_iter_forward errorsLimit decoders processor
                       baseEvent batchSize st n sig s d b h Hrb ltac:(lia) Hp)|].
      split; [reflexivity|]. split; [|exact Hsig].
      right. split; [lia|]. exists d, b, h, None. now repeat split.
  - eexists n, sig, s, _, _. split; [exact Hrb|].
    split; [exact (HandleStream_iter_empty errorsLimit decoders processor
                     baseEvent batchSize st n sig s Hrb Hnpos)|].
    split; [reflexivity|]. split; [|exact Hsig].
    left. now repeat split.
Qed.

(** With a batch size of one or more, a round that does not return has
    used up some of the reads the reader had left. *)
Lemma HandleStream_iter_progress
    (st st' : run LabelValue NumericLabelValue Downstream) :
  1 <= batchSize ->
  HandleStream_iter errorsLimit decoders baseEvent batchSize processor st
  = Ok (st', Next) ->
  (reads_left (run_reader st') < reads_left (run_reader st))%nat.
Proof.
  intros Hsize Hit.
  destruct (HandleStream_iter_cases st)
    as (n & sig & s & st1 & fl & Hrb & Hit1 & Hrd & Hcase & _).
  rewrite Hit in Hit1. injection Hit1 as <- <-.
  assert (Hsig : sig = None).
  { destruct Hcase as [(_ & Hfl & _) | (_ & d & b & h & err & _ & _ & Herr)].
    - now apply after_signal_Next.
    - destruct err as [e|]; [destruct Herr as [Hfl _]; discriminate Hfl|].
      destruct Herr as [Hfl _]. now apply after_signal_Next. }
  subst sig. rewrite Hrd.
  exact (readBatch_progress errorsLimit decoders baseEvent batchSize _ s n Hsize Hrb).
Qed.

(** With a batch size of one or more the stream loop returns, within as
    many rounds as the reader has reads left. *)
Lemma HandleStream_loop_returns (fuel : nat) :
  forall st : run LabelValue NumericLabelValue Downstream,
  1 <= batchSize ->
  (reads_left (run_reader st) < fuel)%nat ->
  exists ret st',
    HandleStream_loop errorsLimit decoders fuel baseEvent batchSize processor st
    = Done ret st'.
Proof.
  induction fuel as [|fuel IH]; intros st Hsize Hfuel; [lia|].
  cbn [HandleStream_loop].
  destruct (HandleStream_iter_cases st)
    as (n & sig & s & st1 & fl & _ & Hit & _).
  rewrite Hit. destruct fl as [|ret]; [|now exists ret, st1].
  apply IH; [exact Hsize|].
  pose proof (HandleStream_iter_progress st st1 Hsize Hit). lia.
Qed.

(** A run of the stream loop only appends to the error list, and only
    invalid-input errors, within the cap. *)
Lemma HandleStream_loop_errors (fuel : nat) :
  forall st : run LabelValue NumericLabelValue Downstream,
  exists st' added,
    final (HandleStream_loop errorsLimit decoders fuel baseEvent batchSize
             processor st) = Some st' /\
    Errors (run_result st') = Errors (run_result st) ++ added /\
    Forall (fun e => errors_As_InvalidInputError e = true) added /\
    (length (Errors (run_result st'))
     <= Nat.max errorsLimit (length (Errors (run_result st))))%nat.
Proof.
  induction fuel as [|fuel IH]; intros st; cbn [HandleStream_loop final].
  - exists st, []. rewrite app_nil_r. split; [reflexivity|].
    split; [reflexivity|]. split; [constructor | lia].
  - destruct (HandleStream_iter_cases st)
      as (n & sig & s & st1 & fl & Hrb & Hit & _ & Hcase & _).
    rewrite Hit.
    destruct (readBatch_errors errorsLimit decoders baseEvent batchSize
                {| reader := run_reader st; batch := []; result := run_result st;
                   heap := run_heap st |})
      as (n0 & sig0 & s0 & first & Hrb0 & _ & Hfirst & Hall & _ & Hcap).
    rewrite Hrb in Hrb0. injection Hrb0 as <- <- <-. cbn [result] in *.
    assert (Hres : Errors (run_result st1) = Errors (result s)).
    { destruct Hcase as [(_ & _ & _ & ->) | (_ & d & b & h & err & _ & _ & Herr)];
        [reflexivity|].
      destruct err as [e|]; destruct Herr as [_ ->]; reflexivity. }
    destruct fl as [|ret].
    + destruct (IH st1) as (st' & added & Hfin & Herr' & Hall' & Hcap').
      exists st', (first ++ added). split; [exact Hfin|].
      rewrite Hres in *.
      split; [now rewrite Herr', Hfirst, app_assoc|].
      split; [now apply Forall_app | lia].
    + cbn [final]. exists st1, first. rewrite Hres. now repeat split.
Qed.

(** With a downstream processor that never fails, the stream loop
    returns nil, the reader being at end of input, or the error that came
    with a line of the source of its reader: a line within the size limit
    whose read failed with an error that is neither [io.EOF] nor an
    invalid-input error. *)
Lemma HandleStream_loop_return (fuel : nat) :
  never_fails processor ->
  forall (st st' : run LabelValue NumericLabelValue Downstream) ret,
  HandleStream_loop errorsLimit decoders fuel baseEvent batchSize processor st
  = Done ret st' ->
  (ret = None /\ isEOF (run_reader st') = true) \/
  (exists j line e,
      source (run_reader st) !! j = Some (line, Some e) /\
      fits (maxLineLength (run_reader st)) line /\
      is_EOF e = false /\ errors_As_InvalidInputError e = false /\
      ret = Some e).
Proof.
  intros Hnf.
  induction fuel as [|fuel IH]; intros st st' ret; cbn [HandleStream_loop];
    [discriminate|].
  destruct (HandleStream_iter_cases st)
    as (n & sig & s & st1 & fl & Hrb & Hit & Hrd & Hcase & _).
  destruct (readBatch_signal_source errorsLimit decoders baseEvent batchSize
              _ s n sig Hrb) as (Hm & (k & Hk) & Hsig).
  cbn [reader] in Hm, Hk.
  rewrite Hit. destruct fl as [|ret0].
  - intros Hloop.
    destruct (IH st1 st' ret Hloop)
      as [Hnil | (j & line & e & Hj & Hfit & He & Has & Hret)]; [now left|].
    right. exists (k + j)%nat, line, e.
    rewrite Hrd, Hk, lookup_drop in Hj. rewrite Hrd, Hm in Hfit.
    now repeat split.
  - intros [= <- <-].
    assert (Hfl : Return ret0 = after_signal sig).
    { destruct Hcase as [(_ & Hfl & _) | (_ & d & b & h & err & Hp & _ & Herr)];
        [exact Hfl|].
      pose proof (Hnf (run_downstream st) (batch s) (heap s)) as Hnone.
      rewrite Hp in Hnone. cbn [snd] in Hnone. subst err. now destruct Herr. }
    symmetry in Hfl.
    destruct (after_signal_Return sig ret0 Hfl) as [[-> ->] | (e & -> & -> & He)].
    + left. split; [reflexivity|]. rewrite Hrd.
      destruct Hsig as [[_ Heof] | [[Hs _] | (j & line & e & _ & _ & He & _ & Hs)]];
        [exact Heof | discriminate Hs |].
      injection Hs as <-. discriminate He.
    + right.
      destruct Hsig as [[Hs _] | [[Hs _] | (j & line & e0 & Hj & Hfit & _ & Has & Hs)]].
      * injection Hs as ->. discriminate He.
      * discriminate Hs.
      * injection Hs as ->. exists j, line, e0. now repeat split.
Qed.

End Returns.

(** X9: with a batch size of one or more [HandleStream] returns: it
    neither panics nor loops for ever, whatever the stream, the decoders
    and the downstream processor; its loop goes round at most once for each
    read the reader has left after the metadata line. *)
Theorem X9_HandleStream_returns
    {Fields LabelValue NumericLabelValue Downstream : Type}
    (errorsLimit : nat) (decoders : Decoders Fields LabelValue NumericLabelValue)
    (fuel : nat) (p : Processor Fields LabelValue NumericLabelValue)
    (adm : admission) (baseEvent : APMEvent Fields)
    (r : list (list byte * option error)) (batchSize : Z)
    (processor : BatchProcessor Fields LabelValue NumericLabelValue Downstream)
    (res : Result) (h : store LabelValue NumericLabelValue) (d : Downstream)
    sr base1 h1 cond :
  1 <= batchSize ->
  decodeMetadata p (getStreamReader p r) baseEvent h = (sr, base1, h1, cond) ->
  (reads_left sr < fuel)%nat ->
  exists ret st,
    HandleStream errorsLimit decoders fuel p adm baseEvent r batchSize processor
      res h d = Done ret st.
Proof.
  intros Hsize Hmeta Hfuel.
  destruct (HandleStream_cases errorsLimit decoders fuel p adm baseEvent r
              batchSize processor res h d)
    as [(e & sr0 & h0 & -> & _) | (sr0 & base0 & h0 & _ & Hmeta0 & ->)];
    [now eexists _, _|].
  rewrite Hmeta in Hmeta0. injection Hmeta0 as <- <- <- _.
  now apply HandleStream_loop_returns.
Qed.

Lemma X9_HandleStream_returns_witness :
  exists ret st,
    HandleStream 5 Sample.decoders 4 Sample.processor SlotAcquired Sample.base
      (Sample.lines [Sample.meta; Sample.good1; Sample.malformed])
      1 Sample.keep Sample.emptyResult Sample.baseStore []
    = Done ret st.
Proof.
  apply (X9_HandleStream_returns 5 Sample.decoders 4 Sample.processor SlotAcquired
           Sample.base (Sample.lines [Sample.meta; Sample.good1; Sample.malformed])
           1 Sample.keep Sample.emptyResult Sample.baseStore []
           {| source := Sample.lines [Sample.good1; Sample.malformed];
              latestLine := Sample.meta; isEOF := false; maxLineLength := 32 |}
           {| Labels := Some 1%positive; NumericLabels := None;
              OtherFields := string_of_bytes Sample.meta |}
           Sample.baseStore None).
  - lia.
  - reflexivity.
  - vm_compute. lia.
Defined.

(** X10: with a batch size of zero or less [HandleStream] does not
    return when lines follow the metadata line: every pass reads nothing
    and ends with the nil signal, so the loop goes round for ever, the
    result, the label maps and the downstream processor staying as they
    were. *)
Theorem X10_HandleStream_spins_on_batch_size_zero
    {Fields LabelValue NumericLabelValue Downstream : Type}
    (errorsLimit : nat) (decoders : Decoders Fields LabelValue NumericLabelValue)
    (p : Processor Fields LabelValue NumericLabelValue)
    (baseEvent : APMEvent Fields)
    (r : list (list byte * option error)) (batchSize : Z)
    (processor : BatchProcessor Fields LabelValue NumericLabelValue Downstream)
    (res : Result) (h : store LabelValue NumericLabelValue) (d : Downstream)
    sr base1 h1 :
  batchSize <= 0 ->
  decodeMetadata p (getStreamReader p r) baseEvent h = (sr, base1, h1, None) ->
  isEOF sr = false ->
  forall fuel,
    HandleStream errorsLimit decoders fuel p SlotAcquired baseEvent r batchSize
      processor res h d
    = Unfinished {| run_reader := sr; run_result := res; run_heap := h1;
                    run_downstream := d |}.
Proof.
  intros Hsize Hmeta Heof fuel. unfold HandleStream, readMetadata.
  rewrite Hmeta. now apply HandleStream_loop_no_batch.
Qed.

Lemma X10_HandleStream_spins_on_batch_size_zero_witness :
  HandleStream 5 Sample.decoders 1000 Sample.processor SlotAcquired Sample.base
    (Sample.lines [Sample.meta; Sample.good1])
    0 Sample.keep Sample.emptyResult Sample.baseStore []
  = Unfinished
      {| run_reader :=
           {| source := Sample.lines [Sample.good1];
              latestLine := Sample.meta; isEOF := false; maxLineLength := 32 |};
         run_result := Sample.emptyResult; run_heap := Sample.baseStore;
         run_downstream := [] |}.
Proof.
  apply (X10_HandleStream_spins_on_batch_size_zero 5 Sample.decoders
           Sample.processor Sample.base (Sample.lines [Sample.meta; Sample.good1])
           0 Sample.keep Sample.emptyResult Sample.baseStore []
           _ {| Labels := Some 1%positive; NumericLabels := None;
                OtherFields := string_of_bytes Sample.meta |}).
  - lia.
  - reflexivity.
  - reflexivity.
Defined.

(** ** What is handed downstream *)

Section Forwarded.

Context {Fields LabelValue NumericLabelValue Downstream : Type}.
Variable errorsLimit : nat.
Variable decoders : Decoders Fields LabelValue NumericLabelValue.
Variable processor : BatchProcessor Fields LabelValue NumericLabelValue Downstream.
Variable batchSize : Z.

(** A property of the batch that every pass from an empty batch
    establishes when it has read an event. *)
Variable P : Batch Fields -> Prop.
Hypothesis P_pass :
  forall (baseEvent : APMEvent Fields)
         (s s' : state Fields LabelValue NumericLabelValue) n sig,
    batch s = [] ->
    readBatch errorsLimit decoders baseEvent batchSize s = Ok (n, sig, s') ->
    n > 0 -> P (batch s').

Lemma HandleStream_loop_logged (fuel : nat) (baseEvent : APMEvent Fields) :
  forall st : run LabelValue NumericLabelValue (Downstream * list (Batch Fields)),
  exists st' new,
    final (HandleStream_loop errorsLimit decoders fuel baseEvent batchSize
             (logged processor) st) = Some st' /\
    snd (run_downstream st') = snd (run_downstream st) ++ new /\
    Forall P new.
Proof.
  induction fuel as [|fuel IH]; intros st; cbn [HandleStream_loop final].
  - exists st, []. rewrite app_nil_r. now repeat split.
  - destruct (HandleStream_iter_cases errorsLimit decoders (logged processor)
                baseEvent batchSize st)
      as (n & sig & s & st1 & fl & Hrb & Hit & _ & Hcase & _).
    rewrite Hit.
    assert (Hlog : exists first,
               snd (run_downstream st1) = snd (run_downstream st) ++ first /\
               Forall P first).
    { destruct Hcase as [(_ & _ & Hd & _) | (Hn & d & b & h & err & Hp & Hd & _)].
      - exists []. rewrite app_nil_r, Hd. now split.
      - exists [batch s]. split.
        + unfold logged in Hp.
          destruct (processor (fst (run_downstream st)) (batch s) (heap s))
            as [[[d0 b0] h0] err0].
          injection Hp as <- _ _ _. now rewrite Hd.
        + constructor; [|constructor].
          exact (P_pass baseEvent
                   {| reader := run_reader st; batch := [];
                      result := run_result st; heap := run_heap st |}
                   s n sig eq_refl Hrb Hn). }
    destruct Hlog as (first & Hfirst & Hall).
    destruct fl as [|ret].
    + destruct (IH st1) as (st' & new & Hfin & Hnew & Hall').
      exists st', (first ++ new). split; [exact Hfin|].
      split; [now rewrite Hnew, Hfirst, app_assoc | now apply Forall_app].
    + cbn [final]. now exists st1, first.
Qed.

Lemma HandleStream_logged (fuel : nat)
    (p : Processor Fields LabelValue NumericLabelValue) (adm : admission)
    (baseEvent : APMEvent Fields) (r : list (list byte * option error))
    (res : Result) (h : store LabelValue NumericLabelValue)
    (d : Downstream) (log : list (Batch Fields)) :
  exists st' new,
    final (HandleStream errorsLimit decoders fuel p adm baseEvent r batchSize
             (logged processor) res h (d, log)) = Some st' /\
    snd (run_downstream st') = log ++ new /\
    Forall P new.
Proof.
  destruct (HandleStream_cases errorsLimit decoders fuel p adm baseEvent r
              batchSize (logged processor) res h (d, log))
    as [(e & sr & h1 & -> & _) | (sr & base1 & h1 & _ & _ & ->)].
  - eexists _, []. cbn [final run_downstream snd]. rewrite app_nil_r.
    now repeat split.
  - apply (HandleStream_loop_logged fuel base1
             {| run_reader := sr; run_result := res; run_heap := h1;
                run_downstream := (d, log) |}).
Qed.

End Forwarded.

Section Emits.

Context {Fields LabelValue NumericLabelValue : Type}.
Variable errorsLimit : nat.
Variable decoders : Decoders Fields LabelValue NumericLabelValue.
Variable k : nat.
Hypothesis decoders_emit : emits_at_most k decoders.

Lemma readBatch_loop_emits (iters : nat) (baseEvent : APMEvent Fields) :
  forall s s' : state Fields LabelValue NumericLabelValue, forall fl,
  readBatch_loop errorsLimit decoders iters baseEvent s = Ok (s', fl) ->
  (length (batch s') <= length (batch s) + k * iters)%nat.
Proof.
  induction iters as [|iters IH]; intros s s' fl; cbn [readBatch_loop].
  - intros [= <- <-]. lia.
  - destruct (IsEOF (reader s)); [intros [= <- <-]; lia|].
    destruct (readBatch_iter_cases errorsLimit decoders baseEvent s)
      as [(e & Hit & _) | (res & events & h' & Hit & _ & Hev)];
      rewrite Hit; cbn [go_bind].
    + intros [= <- <-]. cbn [batch]. lia.
    + intros Hloop. apply IH in Hloop. cbn [batch] in Hloop.
      rewrite length_app in Hloop.
      assert (length events <= k)%nat.
      { destruct Hev as [-> | (tok & ->)]; [cbn [length]; lia|].
        apply decoders_emit. }
      nia.
Qed.

End Emits.

(** X11: [ProcessBatch] is never handed an empty batch: of the batches
    the downstream processor is called with during a run of [HandleStream],
    in the order of the calls, none is empty. *)
Theorem X11_ProcessBatch_gets_no_empty_batch
    {Fields LabelValue NumericLabelValue Downstream : Type}
    (errorsLimit : nat) (decoders : Decoders Fields LabelValue NumericLabelValue)
    (fuel : nat) (p : Processor Fields LabelValue NumericLabelValue)
    (adm : admission) (baseEvent : APMEvent Fields)
    (r : list (list byte * option error)) (batchSize : Z)
    (processor : BatchProcessor Fields LabelValue NumericLabelValue Downstream)
    (res : Result) (h : store LabelValue NumericLabelValue)
    (d : Downstream) (log : list (Batch Fields)) :
  exists st' new,
    final (HandleStream errorsLimit decoders fuel p adm baseEvent r batchSize
             (logged processor) res h (d, log)) = Some st' /\
    snd (run_downstream st') = log ++ new /\
    Forall (fun b => b <> []) new.
Proof.
  apply HandleStream_logged.
  intros base s s' n sig Hs Hrb Hn.
  destruct (readBatch_shape errorsLimit decoders base batchSize s)
    as (n0 & sig0 & s0 & ap & Hrb0 & Hap & Hn0 & _).
  rewrite Hrb in Hrb0. injection Hrb0 as <- <- <-.
  rewrite Hap, Hs. cbn [app]. intros ->. cbn [length] in Hn0. lia.
Qed.

(** X12: when no decoder appends more than [k] events for one document,
    no batch handed to [ProcessBatch] has more than [k * batchSize]
    events. *)
Theorem X12_forwarded_batches_are_bounded
    {Fields LabelValue NumericLabelValue Downstream : Type}
    (errorsLimit : nat) (decoders : Decoders Fields LabelValue NumericLabelValue)
    (fuel : nat) (p : Processor Fields LabelValue NumericLabelValue)
    (adm : admission) (baseEvent : APMEvent Fields)
    (r : list (list byte * option error)) (batchSize : Z)
    (processor : BatchProcessor Fields LabelValue NumericLabelValue Downstream)
    (res : Result) (h : store LabelValue NumericLabelValue)
    (d : Downstream) (log : list (Batch Fields)) (k : nat) :
  emits_at_most k decoders ->
  exists st' new,
    final (HandleStream errorsLimit decoders fuel p adm baseEvent r batchSize
             (logged processor) res h (d, log)) = Some st' /\
    snd (run_downstream st') = log ++ new /\
    Forall (fun b => (length b <= k * Z.to_nat batchSize)%nat) new.
Proof.
  intros Hk. apply HandleStream_logged.
  intros base s s' n sig Hs Hrb _.
  unfold readBatch in Hrb.
  destruct (readBatch_loop errorsLimit decoders (Z.to_nat batchSize) base s)
    as [[s1 fl]|] eqn:Hloop; cbn [go_bind] in Hrb; [|discriminate Hrb].
  pose proof (readBatch_loop_emits errorsLimit decoders k Hk _ _ _ _ _ Hloop) as Hlen.
  rewrite Hs in Hlen. cbn [length] in Hlen.
  destruct fl as [|err]; [destruct (IsEOF (reader s1))|];
    injection Hrb as _ _ <-; lia.
Qed.

Lemma sample_decoders_emit : emits_at_most 1 Sample.decoders.
Proof.
  intros tok doc input h. unfold decodeEvent.
  repeat match goal with
         | |- context [if ?c then _ else _] => destruct c
         end;
    cbn [Sample.decoders v2_DecodeNestedError v2_DecodeNestedMetricset
         v2_DecodeNestedSpan v2_DecodeNestedTransaction rumv3_DecodeNestedError
         rumv3_DecodeNestedTransaction fst length];
    try lia;
    unfold Sample.decode;
    repeat match goal with
           | |- context [if ?c then _ else _] => destruct c
           end; cbn [fst length]; lia.
Qed.

Lemma X12_forwarded_batches_are_bounded_witness :
  exists st' new,
    final (HandleStream 5 Sample.decoders 6 Sample.processor SlotAcquired
             Sample.base
             (Sample.lines [Sample.meta; Sample.good1; Sample.good2; Sample.good3])
             2 (logged Sample.keep) Sample.emptyResult Sample.baseStore ([], []))
    = Some st' /\
    snd (run_downstream st') = [] ++ new /\
    Forall (fun b => (length b <= 1 * Z.to_nat 2)%nat) new.
Proof.
  exact (X12_forwarded_batches_are_bounded 5 Sample.decoders 6 Sample.processor
           SlotAcquired Sample.base
           (Sample.lines [Sample.meta; Sample.good1; Sample.good2; Sample.good3])
           2 Sample.keep Sample.emptyResult Sample.baseStore [] [] 1
           sample_decoders_emit).
Defined.

(** ** The result of a whole run *)

(** X13: on a stream without read failures whose lines after the
    metadata line are [v] valid documents, [b] failing documents and any
    number of blank lines, in any order, [HandleStream] returns nil, the
    accepted count has grown by [v], and the error list has grown by the
    errors of the failing documents up to the cap: by [b] errors, or by as
    many as the cap left room for. *)
Theorem X13_HandleStream_accounts_for_every_document
    {Fields LabelValue NumericLabelValue Downstream : Type}
    (errorsLimit : nat) (decoders : Decoders Fields LabelValue NumericLabelValue)
    (recorded : error -> Prop)
    (p : Processor Fields LabelValue NumericLabelValue)
    (processor : BatchProcessor Fields LabelValue NumericLabelValue Downstream)
    (baseEvent : APMEvent Fields) (r : list (list byte * option error))
    (batchSize : Z) (res : Result) (h : store LabelValue NumericLabelValue)
    (d : Downstream) sr base1 h1 (v b : nat) :
  1 <= batchSize ->
  forwards processor ->
  decodeMetadata p (getStreamReader p r) baseEvent h = (sr, base1, h1, None) ->
  maxLineLength sr = MaxEventSize p ->
  clean (source sr) ->
  tally decoders (MaxEventSize p) recorded (lines_of sr) v b ->
  exists st added,
    (forall fuel, (length (source sr) + 1 < fuel)%nat ->
       HandleStream errorsLimit decoders fuel p SlotAcquired baseEvent r
         batchSize processor res h d = Done None st) /\
    Accepted (run_result st) = Accepted res + Z.of_nat v /\
    Errors (run_result st) = Errors res ++ added /\
    Forall recorded added /\
    length added = Nat.min b (errorsLimit - length (Errors res)).
Proof.
  intros Hsize Hfwd Hmeta Hmax Hclean Htally.
  destruct (HandleStream_loop_tally errorsLimit decoders (MaxEventSize p)
              recorded processor base1 batchSize Hfwd Hsize
              (length (source sr) + 1)
              {| run_reader := sr; run_result := res; run_heap := h1;
                 run_downstream := d |} v b
              (reads_left_bound sr) Hclean Hmax Htally)
    as (st & added & Hrun & Hacc & Herr & Hall & Hlen).
  cbn [run_result] in *.
  exists st, added. split; [|now repeat split].
  intros fuel Hfuel. unfold HandleStream, readMetadata. rewrite Hmeta.
  now apply Hrun.
Qed.

Lemma sample_tally_2_2 :
  tally Sample.decoders 32 (fun e => is_InvalidInputError e = true)
    [Sample.good1; Sample.malformed; []; Sample.unknown; Sample.good2] 2 2.
Proof.
  apply tally_valid; [sample_valid|].
  apply tally_bad; [sample_bad|].
  apply tally_blank; [lia|].
  apply tally_bad; [sample_bad|].
  apply tally_valid; [sample_valid|].
  apply tally_nil.
Qed.

Lemma X13_HandleStream_accounts_for_every_document_witness :
  exists st added,
    (forall fuel, (6 < fuel)%nat ->
       HandleStream 1 Sample.decoders fuel Sample.processor SlotAcquired Sample.base
         (Sample.lines [Sample.meta; Sample.good1; Sample.malformed; [];
                        Sample.unknown; Sample.good2])
         2 Sample.keep Sample.emptyResult Sample.baseStore []
       = Done None st) /\
    Accepted (run_result st) = 0 + 2 /\
    Errors (run_result st) = [] ++ added /\
    Forall (fun e => is_InvalidInputError e = true) added /\
    length added = 1%nat.
Proof.
  apply (X13_HandleStream_accounts_for_every_document 1 Sample.decoders
           (fun e => is_InvalidInputError e = true)
           Sample.processor Sample.keep Sample.base
           (Sample.lines [Sample.meta; Sample.good1; Sample.malformed; [];
                          Sample.unknown; Sample.good2])
           2 Sample.emptyResult Sample.baseStore []
           {| source := Sample.lines [Sample.good1; Sample.malformed; [];
                                      Sample.unknown; Sample.good2];
              latestLine := Sample.meta; isEOF := false; maxLineLength := 32 |}
           {| Labels := Some 1%positive; NumericLabels := None;
              OtherFields := string_of_bytes Sample.meta |}
           Sample.baseStore 2 2).
  - lia.
  - exact sample_keep_forwards.
  - reflexivity.
  - reflexivity.
  - apply sample_clean.
  - exact sample_tally_2_2.
Defined.

(** X14: with a downstream processor that never fails, [HandleStream]
    returns nil only with its reader at end of input, and returns an error
    in two cases only.  Either the metadata decoder failed: the error is an
    invalid-input error and the result and the downstream processor are
    untouched.  Or the metadata line was decoded and the error is the one
    that came with a line of the source after it, a line within the size
    limit whose read failed with an error that is neither [io.EOF] nor an
    invalid-input error.  An error of a document whose line was read is
    never what [HandleStream] returns. *)
Theorem X14_HandleStream_aborts_only_on_metadata_or_read_failure
    {Fields LabelValue NumericLabelValue Downstream : Type}
    (errorsLimit : nat) (decoders : Decoders Fields LabelValue NumericLabelValue)
    (fuel : nat) (p : Processor Fields LabelValue NumericLabelValue)
    (baseEvent : APMEvent Fields)
    (r : list (list byte * option error)) (batchSize : Z)
    (processor : BatchProcessor Fields LabelValue NumericLabelValue Downstream)
    (res : Result) (h : store LabelValue NumericLabelValue) (d : Downstream)
    (ret : option error) (st : run LabelValue NumericLabelValue Downstream) :
  never_fails processor ->
  HandleStream errorsLimit decoders fuel p SlotAcquired baseEvent r batchSize
    processor res h d = Done ret st ->
  (ret = None /\ isEOF (run_reader st) = true) \/
  (exists sr base1 h1 j line e,
      decodeMetadata p (getStreamReader p r) baseEvent h = (sr, base1, h1, None) /\
      source sr !! j = Some (line, Some e) /\
      fits (maxLineLength sr) line /\
      is_EOF e = false /\ errors_As_InvalidInputError e = false /\
      ret = Some e) \/
  (exists sr base1 h1 e0 e,
      decodeMetadata p (getStreamReader p r) baseEvent h
      = (sr, base1, h1, Some e0) /\
      ret = Some e /\ is_InvalidInputError e = true /\
      run_result st = res /\ run_downstream st = d).
Proof.
  intros Hnf.
  destruct (HandleStream_cases errorsLimit decoders fuel p SlotAcquired baseEvent
              r batchSize processor res h d)
    as [(e & sr & h1 & -> & Hmeta) | (sr & base1 & h1 & _ & Hmeta & ->)].
  - intros [= <- <-]. right. right.
    destruct (Hmeta eq_refl) as (Hinv & base1 & e0 & Hdec).
    exists sr, base1, h1, e0, e. cbn [run_result run_downstream].
    now repeat split.
  - intros Hloop.
    destruct (HandleStream_loop_return errorsLimit decoders processor base1
                batchSize fuel Hnf _ _ _ Hloop)
      as [Hnil | (j & line & e & Hj & Hfit & He & Has & ->)]; [now left|].
    right. left. cbn [run_reader] in Hj, Hfit.
    exists sr, base1, h1, j, line, e. now repeat split.
Qed.

Lemma sample_keep_never_fails : never_fails Sample.keep.
Proof. intros d b h. reflexivity. Qed.

Lemma X14_HandleStream_aborts_only_on_metadata_or_read_failure_witness :
  exists st j line,
    HandleStream 5 Sample.decoders 6 Sample.processor SlotAcquired Sample.base
      [(Sample.meta, None); (Sample.good1, None); (Sample.malformed, None);
       (Sample.bytes "{'span':", Some (errorString "connection reset"));
       (Sample.good2, None)]
      10 Sample.keep Sample.emptyResult Sample.baseStore []
    = Done (Some (errorString "connection reset")) st /\
    [(Sample.good1, None); (Sample.malformed, None);
     (Sample.bytes "{'span':", Some (errorString "connection reset"));
     (Sample.good2, None)] !! j
    = Some (line, Some (errorString "connection reset")).
Proof.
  eexists.
  assert (Hrun : HandleStream 5 Sample.decoders 6 Sample.processor SlotAcquired
                   Sample.base
                   [(Sample.meta, None); (Sample.good1, None);
                    (Sample.malformed, None);
                    (Sample.bytes "{'span':", Some (errorString "connection reset"));
                    (Sample.good2, None)]
                   10 Sample.keep Sample.emptyResult Sample.baseStore []
                 = Done (Some (errorString "connection reset")) _)
    by (vm_compute; reflexivity).
  destruct (X14_HandleStream_aborts_only_on_metadata_or_read_failure 5
              Sample.decoders 6 Sample.processor Sample.base _ 10 Sample.keep
              Sample.emptyResult Sample.baseStore [] _ _
              sample_keep_never_fails Hrun)
    as [[Hnil _] | [(sr & base1 & h1 & j & line & e & Hmeta & Hj & _ & _ & _ & Hret)
                   | (sr & base1 & h1 & e0 & e & Hmeta & _)]].
  - discriminate Hnil.
  - injection Hret as <-. injection Hmeta as <- _ _.
    exists j, line. split; [exact Hrun | exact Hj].
  - discriminate Hmeta.
Defined.

Section Counted.

Context {Fields LabelValue NumericLabelValue Downstream : Type}.
Variable errorsLimit : nat.
Variable decoders : Decoders Fields LabelValue NumericLabelValue.
Variable processor : BatchProcessor Fields LabelValue NumericLabelValue Downstream.
Variable batchSize : Z.
Hypothesis processor_forwards : forwards processor.

(** With a downstream processor that takes every batch as it is, the
    accepted count grows by the number of events handed downstream. *)
Lemma HandleStream_loop_count (fuel : nat) (baseEvent : APMEvent Fields) :
  forall st : run LabelValue NumericLabelValue (Downstream * list (Batch Fields)),
  exists st' new,
    final (HandleStream_loop errorsLimit decoders fuel baseEvent batchSize
             (logged processor) st) = Some st' /\
    snd (run_downstream st') = snd (run_downstream st) ++ new /\
    Accepted (run_result st')
    = Accepted (run_result st) + Z.of_nat (length (concat new)).
Proof.
  induction fuel as [|fuel IH]; intros st; cbn [HandleStream_loop final].
  - exists st, []. rewrite app_nil_r. cbn [concat length].
    split; [reflexivity|]. split; [reflexivity | lia].
  - destruct (HandleStream_iter_cases errorsLimit decoders (logged processor)
                baseEvent batchSize st)
      as (n & sig & s & st1 & fl & Hrb & Hit & _ & Hcase & _).
    rewrite Hit.
    destruct (readBatch_errors errorsLimit decoders baseEvent batchSize
                {| reader := run_reader st; batch := []; result := run_result st;
                   heap := run_heap st |})
      as (n0 & sig0 & s0 & added & Hrb0 & Hacc & _).
    rewrite Hrb in Hrb0. injection Hrb0 as <- <- <-. cbn [result] in Hacc.
    assert (Hone : exists first,
               snd (run_downstream st1) = snd (run_downstream st) ++ first /\
               Accepted (run_result st1)
               = Accepted (run_result st) + Z.of_nat (length (concat first))).
    { destruct Hcase as [(_ & _ & Hd & ->) | (_ & d & b & h & err & Hp & Hd & Herr)].
      - exists []. rewrite app_nil_r, Hd. cbn [concat length].
        split; [reflexivity | lia].
      - exists [batch s]. unfold logged in Hp.
        destruct (processor_forwards (fst (run_downstream st)) (batch s) (heap s))
          as (d' & b' & h' & Hp' & Hlen).
        rewrite Hp' in Hp. injection Hp as <- <- <- <-.
        destruct Herr as [_ ->]. rewrite Hd.
        cbn [snd concat AddAccepted Accepted]. rewrite app_nil_r, Hlen.
        split; [reflexivity | lia]. }
    destruct Hone as (first & Hfirst & Hcount).
    destruct fl as [|ret].
    + destruct (IH st1) as (st' & new & Hfin & Hnew & Hacc').
      exists st', (first ++ new). split; [exact Hfin|].
      split; [now rewrite Hnew, Hfirst, app_assoc|].
      rewrite concat_app, length_app. lia.
    + cbn [final]. now exists st1, first.
Qed.

End Counted.

(** X15: with a downstream processor that takes every batch as it is,
    the accepted count of the result grows, over a whole run of
    [HandleStream], by exactly the number of events in the batches handed
    to [ProcessBatch] during the run. *)
Theorem X15_accepted_counts_forwarded_events
    {Fields LabelValue NumericLabelValue Downstream : Type}
    (errorsLimit : nat) (decoders : Decoders Fields LabelValue NumericLabelValue)
    (fuel : nat) (p : Processor Fields LabelValue NumericLabelValue)
    (adm : admission) (baseEvent : APMEvent Fields)
    (r : list (list byte * option error)) (batchSize : Z)
    (processor : BatchProcessor Fields LabelValue NumericLabelValue Downstream)
    (res : Result) (h : store LabelValue NumericLabelValue)
    (d : Downstream) (log : list (Batch Fields)) :
  forwards processor ->
  exists st' new,
    final (HandleStream errorsLimit decoders fuel p adm baseEvent r batchSize
             (logged processor) res h (d, log)) = Some st' /\
    snd (run_downstream st') = log ++ new /\
    Accepted (run_result st') = Accepted res + Z.of_nat (length (concat new)).
Proof.
  intros Hfwd.
  destruct (HandleStream_cases errorsLimit decoders fuel p adm baseEvent r
              batchSize (logged processor) res h (d, log))
    as [(e & sr & h1 & -> & _) | (sr & base1 & h1 & _ & _ & ->)].
  - eexists _, []. split; [reflexivity|].
    cbn [run_downstream run_result snd concat length]. rewrite app_nil_r.
    split; [reflexivity | lia].
  - apply (HandleStream_loop_count errorsLimit decoders processor batchSize Hfwd
             fuel base1
             {| run_reader := sr; run_result := res; run_heap := h1;
                run_downstream := (d, log) |}).
Qed.

Lemma X15_accepted_counts_forwarded_events_witness :
  exists st' new,
    final (HandleStream 5 Sample.decoders 6 Sample.processor SlotAcquired
             Sample.base
             (Sample.lines [Sample.meta; Sample.good1; Sample.malformed;
                            Sample.good2; Sample.good3])
             2 (logged Sample.keep) Sample.emptyResult Sample.baseStore ([], []))
    = Some st' /\
    snd (run_downstream st') = [] ++ new /\
    Accepted (run_result st') = 0 + Z.of_nat (length (concat new)).
Proof.
  exact (X15_accepted_counts_forwarded_events 5 Sample.decoders 6 Sample.processor
           SlotAcquired Sample.base
           (Sample.lines [Sample.meta; Sample.good1; Sample.malformed;
                          Sample.good2; Sample.good3])
           2 Sample.keep Sample.emptyResult Sample.baseStore [] []
           sample_keep_forwards).
Defined.

(** X16: a run of [HandleStream] never panics and only appends to the
    error list of the result: the errors the caller had recorded stay, in
    order, every error added is an invalid-input error, and the list does
    not grow beyond the cap. *)
Theorem X16_HandleStream_only_appends_errors
    {Fields LabelValue NumericLabelValue Downstream : Type}
    (errorsLimit : nat) (decoders : Decoders Fields LabelValue NumericLabelValue)
    (fuel : nat) (p : Processor Fields LabelValue NumericLabelValue)
    (adm : admission) (baseEvent : APMEvent Fields)
    (r : list (list byte * option error)) (batchSize : Z)
    (processor : BatchProcessor Fields LabelValue NumericLabelValue Downstream)
    (res : Result) (h : store LabelValue NumericLabelValue) (d : Downstream) :
  exists st' added,
    final (HandleStream errorsLimit decoders fuel p adm baseEvent r batchSize
             processor res h d) = Some st' /\
    Errors (run_result st') = Errors res ++ added /\
    Forall (fun e => errors_As_InvalidInputError e = true) added /\
    (length (Errors (run_result st'))
     <= Nat.max errorsLimit (length (Errors res)))%nat.
Proof.
  destruct (HandleStream_cases errorsLimit decoders fuel p adm baseEvent r
              batchSize processor res h d)
    as [(e & sr & h1 & -> & _) | (sr & base1 & h1 & _ & _ & ->)].
  - eexists _, []. split; [reflexivity|].
    cbn [run_result]. rewrite app_nil_r.
    split; [reflexivity|]. split; [constructor | lia].
  - apply (HandleStream_loop_errors errorsLimit decoders processor base1 batchSize
             fuel
             {| run_reader := sr; run_result := res; run_heap := h1;
                run_downstream := d |}).
Qed.
